(** * nistats/hemodynamic_models.py: event sampling, kernel selection,
      orthogonalisation and regressor naming.

    The module is embedded function by function.  Conventions:

    - a Python/NumPy float is idealised as an exact rational ([Qc], the
      canonical rationals, so that equality is Leibniz equality and every
      definition computes); rounding, [nan] and [inf] are outside the model,
      and the places where the source would produce [inf]/[nan] and then
      raise are written out explicitly.  Two places where the idealisation
      changes the outcome are singled out: the sample count of the grid
      goes through [int()], so its float64 value is written out beside the
      exact one ([n_hr_float64], with [exact_in_float64] for the inputs on
      which the two agree), and a response kernel whose samples sum to zero
      is an array of [nan] in the program ([defined_kernels] excludes it);
    - a Python exception is a constructor of [exn]; a function that can raise
      returns a [result];
    - a 1-D array is a [list Qc]; a 2-D array of shape (n, p) is the list of
      its n rows;
    - the NumPy and SciPy routines called by the module ([linspace],
      [searchsorted], [cumsum], fancy indexing, [dot], [convolve],
      [interp1d]) are written out in [Module Np] and [Module Scipy] after
      the behaviour of the releases the module runs on (a NumPy whose
      [linspace] still accepts a float sample count, a SciPy whose
      [interp1d] has [assume_sorted=False] and sorts its abscissae);
      [scipy.stats.gamma.pdf] and [numpy.linalg.pinv] are parameters of the
      development. *)

From Stdlib Require Import String Ascii DecimalString DecimalPos DecimalZ.
From Stdlib Require Import QArith Qcanon ZArith Bool Lia Lqa List.
Import ListNotations.

Open Scope Z_scope.
Open Scope Qc_scope.

(** ** Python exceptions and the error monad *)

Inductive exn : Type :=
| ZeroDivisionError
| ValueError (msg : string)
| IndexError
| OverflowError
| TypeError.

Inductive result (A : Type) : Type :=
| Ok (a : A)
| Err (e : exn).

Arguments Ok {A} a.
Arguments Err {A} e.

Definition bind {A B : Type} (m : result A) (f : A -> result B) : result B :=
  match m with
  | Ok a => f a
  | Err e => Err e
  end.

Notation "x <- m ;; k" := (bind m (fun x => k))
  (at level 61, m at next level, right associativity).
Notation "' p <- m ;; k" := (bind m (fun x => match x with p => k end))
  (at level 61, p pattern, m at next level, right associativity).

Fixpoint mapM {A B : Type} (f : A -> result B) (l : list A) : result (list B) :=
  match l with
  | [] => Ok []
  | a :: l' => b <- f a ;; bs <- mapM f l' ;; Ok (b :: bs)
  end.

(** ** Numbers *)

Definition Z2Qc (z : Z) : Qc := Q2Qc (inject_Z z).

(** [int(x)]: truncation toward zero. *)
Definition py_int (x : Qc) : Z := Z.quot (Qnum x) (Zpos (Qden x)).

(** Division of two Python floats (or of a float by an int). *)
Definition py_div (a b : Qc) : result Qc :=
  if Qc_eq_dec b 0 then Err ZeroDivisionError else Ok (a / b).

Definition Qc_ltb (a b : Qc) : bool :=
  if Qclt_le_dec a b then true else false.

Definition vec := list Qc.
Definition matrix := list vec.

(** ** NumPy *)

Module Np.

Fixpoint amax_from (m : Qc) (l : vec) : Qc :=
  match l with
  | [] => m
  | x :: l' => amax_from (if Qc_ltb m x then x else m) l'
  end.

Fixpoint amin_from (m : Qc) (l : vec) : Qc :=
  match l with
  | [] => m
  | x :: l' => amin_from (if Qc_ltb x m then x else m) l'
  end.

(** [a.max()] and [a.min()]; a zero-size array has no maximum. *)
Definition max (a : vec) : result Qc :=
  match a with
  | [] => Err (ValueError "zero-size array to reduction operation maximum which has no identity")
  | x :: l => Ok (amax_from x l)
  end.

Definition min (a : vec) : result Qc :=
  match a with
  | [] => Err (ValueError "zero-size array to reduction operation minimum which has no identity")
  | x :: l => Ok (amin_from x l)
  end.

Definition zeros (n : nat) : vec := repeat 0 n.
Definition ones (n : nat) : vec := repeat 1 n.

(** [np.zeros(k)] and [np.ones(k)] for a Python integer [k]. *)
Definition zerosZ (k : Z) : result vec :=
  if (k <? 0)%Z then Err (ValueError "negative dimensions are not allowed")
  else Ok (zeros (Z.to_nat k)).

Definition onesZ (k : Z) : result vec :=
  if (k <? 0)%Z then Err (ValueError "negative dimensions are not allowed")
  else Ok (ones (Z.to_nat k)).

Definition arange (k : nat) : list Z := map Z.of_nat (seq 0 k).

(** [y[-1] = x] on a non-empty array. *)
Definition set_last (y : vec) (x : Qc) : vec :=
  match y with
  | [] => []
  | _ => removelast y ++ [x]
  end.

(** [np.linspace(start, stop, num)] with [endpoint=True]: [num] goes
    through [int()]; no sample for [num == 0], [start] alone for
    [num == 1], otherwise [arange(0, num) * step + start] with the last
    sample overwritten by [stop].  For a negative count the releases up
    to 1.9 return the empty array, which is what is written here; later
    ones raise [ValueError]. *)
Definition linspace (start stop : Qc) (num : Qc) : vec :=
  let k := py_int num in
  if (k <=? 0)%Z then []
  else if (k =? 1)%Z then [start]
  else
    let step := (stop - start) / Z2Qc (k - 1) in
    set_last (map (fun j => Z2Qc j * step + start) (arange (Z.to_nat k))) stop.

(** [np.searchsorted(a, v)] ([side='left']) on a sorted array [a]: the
    first index [i] with [v <= a[i]], [len(a)] when there is none. *)
Fixpoint searchsorted1 (a : vec) (v : Qc) : nat :=
  match a with
  | [] => 0%nat
  | x :: a' => if Qc_ltb x v then S (searchsorted1 a' v) else 0%nat
  end.

Definition searchsorted (a : vec) (vs : vec) : list Z :=
  map (fun v => Z.of_nat (searchsorted1 a v)) vs.

Definition minimum (xs : list Z) (m : Z) : list Z := map (fun x => Z.min x m) xs.

(** Integer indexing of a 1-D array: a negative index counts from the
    end; anything outside [-len, len) raises [IndexError]. *)
Definition norm_index (len : nat) (i : Z) : result nat :=
  let i' := if (i <? 0)%Z then (i + Z.of_nat len)%Z else i in
  if ((0 <=? i') && (i' <? Z.of_nat len))%Z then Ok (Z.to_nat i') else Err IndexError.

Fixpoint upd (a : vec) (k : nat) (x : Qc) : vec :=
  match a, k with
  | [], _ => []
  | _ :: a', O => x :: a'
  | y :: a', S k' => y :: upd a' k' x
  end.

Definition getitem (a : vec) (i : Z) : result Qc :=
  k <- norm_index (length a) i ;; Ok (nth k a 0).

Definition setitem (a : vec) (i : Z) (x : Qc) : result vec :=
  k <- norm_index (length a) i ;; Ok (upd a k x).

(** [a[idx] = vals] for an index array: the assignments are carried out
    in order, so that a repeated index keeps the last value. *)
Fixpoint fancy_set (a : vec) (idx : list Z) (vals : vec) : result vec :=
  match idx, vals with
  | i :: idx', v :: vals' => a' <- setitem a i v ;; fancy_set a' idx' vals'
  | _, _ => Ok a
  end.

(** [a[idx] op= vals] for an index array [idx] and [vals] of the same
    length: NumPy evaluates [a[idx] op vals] into a temporary (a gather of
    the current values) and then assigns the temporary back through
    [idx]. *)
Definition fancy_iop (op : Qc -> Qc -> Qc) (a : vec) (idx : list Z) (vals : vec)
  : result vec :=
  cur <- mapM (getitem a) idx ;;
  fancy_set a idx (map (fun p => op (fst p) (snd p)) (combine cur vals)).

Fixpoint cumsum_from (acc : Qc) (a : vec) : vec :=
  match a with
  | [] => []
  | x :: a' => (acc + x) :: cumsum_from (acc + x) a'
  end.

Definition cumsum (a : vec) : vec := cumsum_from 0 a.

Definition sum (a : vec) : Qc := fold_right Qcplus 0 a.


(** Element-wise arithmetic on arrays of equal size. *)
Definition vadd (u v : vec) : vec := map (fun p => fst p + snd p) (combine u v).
Definition vsub (u v : vec) : vec := map (fun p => fst p - snd p) (combine u v).
Definition scale (a : Qc) (v : vec) : vec := map (Qcmult a) v.

(** The shape of a 2-D array kept as the list of its rows. *)
Definition shape0 (X : matrix) : nat := length X.
Definition shape1 (X : matrix) : nat := length (hd [] X).
Definition size (X : matrix) : nat := (shape0 X * shape1 X)%nat.

(** [sum_j v[j] * M[j, :]], a row vector with [m] entries. *)
Fixpoint lincomb (m : nat) (v : vec) (M : matrix) : vec :=
  match v, M with
  | a :: v', r :: M' => vadd (scale a r) (lincomb m v' M')
  | _, _ => zeros m
  end.

(** [np.dot(v, M)] for a 1-D [v] and a 2-D [M]. *)
Definition dot_vm (v : vec) (M : matrix) : result vec :=
  if (length v =? shape0 M)%nat then Ok (lincomb (shape1 M) v M)
  else Err (ValueError "shapes not aligned").

(** [np.dot(A, B)] for 2-D [A] and [B]. *)
Definition dot_mm (A B : matrix) : result matrix :=
  if (shape1 A =? shape0 B)%nat then Ok (map (fun r => lincomb (shape1 B) r B) A)
  else Err (ValueError "shapes not aligned").

(** [X[:, i]] and [X[:, :i]]. *)
Definition col (i : nat) (X : matrix) : vec := map (fun r => nth i r 0) X.
Definition cols_before (i : nat) (X : matrix) : matrix := map (firstn i) X.

(** Column [i] of [X] minus [w], entry by entry. *)
Definition sub_col (X : matrix) (i : nat) (w : vec) : matrix :=
  map (fun p => upd (fst p) i (nth i (fst p) 0 - snd p)) (combine X w).

(** [X[:, i] -= w]: [w] has one entry per row, or a single entry that is
    broadcast. *)
Definition isub_col (X : matrix) (i : nat) (w : vec) : result matrix :=
  if (length w =? shape0 X)%nat then Ok (sub_col X i w)
  else if (length w =? 1)%nat then
    Ok (map (fun r => upd r i (nth i r 0 - hd 0 w)) X)
  else Err (ValueError "operands could not be broadcast together").

(** [M.T] for [M] of shape (k, n). *)
Definition transpose (n : nat) (M : matrix) : matrix :=
  map (fun j => col j M) (seq 0 n).

(** Addition of coefficient sequences of possibly different sizes. *)
Fixpoint padd (u v : vec) : vec :=
  match u, v with
  | [], _ => v
  | _, [] => u
  | x :: u', y :: v' => (x + y) :: padd u' v'
  end.

Fixpoint conv_full (a v : vec) : vec :=
  match a with
  | [] => []
  | x :: a' => padd (scale x v) (0 :: conv_full a' v)
  end.

(** [np.convolve(a, v)] ([mode='full']): [len(a) + len(v) - 1] samples
    [sum_j a[j] * v[k - j]]; an empty operand is rejected. *)
Definition convolve (a v : vec) : result vec :=
  match a, v with
  | [], _ => Err (ValueError "a cannot be empty")
  | _, [] => Err (ValueError "v cannot be empty")
  | _, _ => Ok (conv_full a v)
  end.

(** [idx.clip(lo, hi)] *)
Definition clip (i lo hi : Z) : Z := Z.min (Z.max i lo) hi.

End Np.

(** ** The event sampler: [_sample_condition] *)

(** [exp_condition] is a 3 x n_events array (onsets, durations, amplitudes);
    it is kept as the list of its n_events columns, so that the three rows
    unpacked by the source have the same length by construction. *)
Record event : Type := mk_event { onset : Qc; duration : Qc; value : Qc }.

Definition onsets (exp_condition : list event) : vec := map onset exp_condition.
Definition durations (exp_condition : list event) : vec := map duration exp_condition.
Definition values (exp_condition : list event) : vec := map value exp_condition.

(** The last sample time of the grid: [frame_times.max() * (1 + 1. / (n - 1))]. *)
Definition hr_stop (frame_times : vec) : result Qc :=
  let n := Z.of_nat (length frame_times) in
  fmax <- Np.max frame_times ;;
  inv <- py_div 1 (Z2Qc (n - 1)) ;;
  Ok (fmax * (1 + inv)).

(** The sample count handed to [linspace]:
    [((n - 1) * 1. / (max - min) * (max * (1 + 1. / (n - 1)) - min - min_onset)
      * oversampling) + 1].
    [frame_times.max()] raises on an empty array and [1. / (n - 1)] on a
    single frame.  With [max == min] the float64 division yields [inf], the
    product is [inf] or [nan], and [int()] inside [linspace] raises
    [OverflowError] or [ValueError].  This is the exact value of the
    formula; the program holds its float64 value, [n_hr_float64], which can
    fall just below a whole number that the exact value reaches. *)
Definition n_hr (frame_times : vec) (oversampling : Z) (min_onset : Qc) : result Qc :=
  let n := Z.of_nat (length frame_times) in
  fmax <- Np.max frame_times ;;
  fmin <- Np.min frame_times ;;
  stop <- hr_stop frame_times ;;
  let margin := (stop - fmin - min_onset) * Z2Qc oversampling in
  if Qc_eq_dec (fmax - fmin) 0 then
    if Qc_eq_dec margin 0
    then Err (ValueError "cannot convert float NaN to integer")
    else Err OverflowError
  else
    Ok (Z2Qc (n - 1) * 1 / (fmax - fmin) * (stop - fmin - min_onset)
        * Z2Qc oversampling + 1).

(** The grid [np.linspace(frame_times.min() + min_onset, stop, n_hr)], with
    the exact sample count: it is the grid of the program where the count
    does not round ([exact_in_float64]). *)
Definition hr_frame_times (frame_times : vec) (oversampling : Z) (min_onset : Qc)
  : result vec :=
  num <- n_hr frame_times oversampling min_onset ;;
  fmin <- Np.min frame_times ;;
  stop <- hr_stop frame_times ;;
  Ok (Np.linspace (fmin + min_onset) stop num).

(** [np.minimum(np.searchsorted(hr_frame_times, onsets), tmax - 1)] *)
Definition t_onset (hr : vec) (exp_condition : list event) : list Z :=
  Np.minimum (Np.searchsorted hr (onsets exp_condition)) (Z.of_nat (length hr) - 1).

(** [np.minimum(np.searchsorted(hr_frame_times, onsets + durations), tmax - 1)] *)
Definition t_offset0 (hr : vec) (exp_condition : list event) : list Z :=
  Np.minimum
    (Np.searchsorted hr (map (fun e => onset e + duration e) exp_condition))
    (Z.of_nat (length hr) - 1).

(** The loop [for i, to in enumerate(t_offset): if to < (tmax - 1) and
    to == t_onset[i]: t_offset[i] += 1]. *)
Fixpoint bump (tmax : Z) (t_off t_on : list Z) : list Z :=
  match t_off, t_on with
  | to :: t_off', ton :: t_on' =>
      (if ((to <? tmax - 1) && (to =? ton))%Z then (to + 1)%Z else to)
        :: bump tmax t_off' t_on'
  | _, _ => t_off
  end.

Definition t_offset (hr : vec) (exp_condition : list event) : list Z :=
  bump (Z.of_nat (length hr)) (t_offset0 hr exp_condition) (t_onset hr exp_condition).

(** The regressor time course on a given grid (source lines 200-214). *)
Definition hr_regressor (hr : vec) (exp_condition : list event) : result vec :=
  let regressor := Np.zeros (length hr) in
  regressor <- Np.fancy_iop Qcplus regressor (t_onset hr exp_condition)
                 (values exp_condition) ;;
  regressor <- Np.fancy_iop Qcminus regressor (t_offset hr exp_condition)
                 (values exp_condition) ;;
  Ok (Np.cumsum regressor).

(** The early-onset test: [(onsets < frame_times[0] + min_onset).any()].
    When it holds the source calls [warnings.warn] and carries on; the
    regressor and the grid do not depend on it. *)
Definition early_onset (frame_times : vec) (min_onset : Qc)
    (exp_condition : list event) : bool :=
  existsb (fun o => Qc_ltb o (hd 0 frame_times + min_onset)) (onsets exp_condition).

Definition _sample_condition (exp_condition : list event) (frame_times : vec)
    (oversampling : Z) (min_onset : Qc) : result (vec * vec) :=
  hr <- hr_frame_times frame_times oversampling min_onset ;;
  regressor <- hr_regressor hr exp_condition ;;
  Ok (regressor, hr).

(** A valid index into the grid [hr]. *)
Definition in_grid (hr : vec) (i : Z) : Prop :=
  (0 <= i <= Z.of_nat (length hr) - 1)%Z.

(** ** Literals and decidable equality of arrays *)

Definition qz (z : Z) : Qc := Z2Qc z.
Definition qf (a : Z) (b : positive) : Qc := Q2Qc (a # b).

Fixpoint vec_eqb (u v : vec) : bool :=
  match u, v with
  | [], [] => true
  | x :: u', y :: v' => Qc_eq_bool x y && vec_eqb u' v'
  | _, _ => false
  end.


(** ** SciPy: [interp1d] *)

Module Scipy.

Fixpoint insert_by (p : Qc * nat) (l : list (Qc * nat)) : list (Qc * nat) :=
  match l with
  | [] => [p]
  | q :: l' => if Qc_ltb (fst q) (fst p) then q :: insert_by p l' else p :: q :: l'
  end.

(** [np.argsort(x)]: the indices that sort [x] in increasing order (the
    order among equal values is the one of a stable sort). *)
Definition argsort (x : vec) : list nat :=
  map snd (fold_right insert_by [] (combine x (seq 0 (length x)))).

Definition take (ind : list nat) (a : vec) : vec := map (fun j => nth j a 0) ind.

(** [interp1d(x, y)] with the defaults [kind='linear'], [axis=-1],
    [bounds_error=True], [assume_sorted=False], for [y = np.array(rows)]
    (an empty list of rows is a 1-D array of size 0).  The constructor
    sorts [x], reorders [y] along its last axis in the same way, and checks
    the sizes; it yields the sorted samples. *)
Definition interp1d_init (x : vec) (y : matrix) : result (vec * matrix) :=
  let ind := argsort x in
  match y, ind with
  | [], _ :: _ => Err IndexError
  | _, _ =>
      let len_y := match y with [] => 0%nat | r :: _ => length r end in
      if negb (length x =? len_y)%nat then
        Err (ValueError "x and y arrays must be equal in length along interpolation axis.")
      else if (length x <? 2)%nat then
        Err (ValueError "x and y arrays must have at least 2 entries")
      else Ok (take ind x, map (take ind) y)
  end.

(** The bounds check of a call [f(x_new)]. *)
Definition check_bounds (x x_new : vec) : result unit :=
  if existsb (fun t => Qc_ltb t (hd 0 x)) x_new then
    Err (ValueError "A value in x_new is below the interpolation range.")
  else if existsb (fun t => Qc_ltb (last x 0) t) x_new then
    Err (ValueError "A value in x_new is above the interpolation range.")
  else Ok tt.

(** Linear interpolation of one row [y] at [t]: the bracketing samples are
    [searchsorted(x, t).clip(1, len(x) - 1)] and its predecessor. *)
Definition interp_linear (x y : vec) (t : Qc) : Qc :=
  let hi := Z.to_nat (Np.clip (Z.of_nat (Np.searchsorted1 x t)) 1
                               (Z.of_nat (length x) - 1)) in
  let lo := (hi - 1)%nat in
  let slope := (nth hi y 0 - nth lo y 0) / (nth hi x 0 - nth lo x 0) in
  slope * (t - nth lo x 0) + nth lo y 0.

(** [interp1d(x, y)(x_new)], of shape (k, len(x_new)). *)
Definition interp1d (x : vec) (y : matrix) (x_new : vec) : result matrix :=
  '(xs, ys) <- interp1d_init x y ;;
  _ <- check_bounds xs x_new ;;
  Ok (map (fun row => map (interp_linear xs row) x_new) ys).

End Scipy.

(** [_resample_regressor]: [interp1d(hr_frame_times, hr_regressor)(frame_times).T] *)
Definition _resample_regressor (hr_regressor : matrix) (hr_frame_times frame_times : vec)
  : result matrix :=
  y <- Scipy.interp1d hr_frame_times hr_regressor frame_times ;;
  Ok (Np.transpose (length frame_times) y).

(** ** Regressor names *)

(** ["%d" % i] for an integer [i]. *)
Definition format_d (i : Z) : string := NilZero.string_of_int (Z.to_int i).

(** [_regressor_names]: a Python function that falls off its end returns
    [None]; [fir_delays] defaults to [None], which cannot be iterated. *)
Definition _regressor_names (con_name hrf_model : string) (fir_delays : option (list Z))
  : result (option (list string)) :=
  if String.eqb hrf_model "canonical" then Ok (Some [con_name])
  else if String.eqb hrf_model "canonical with derivative" then
    Ok (Some [con_name; (con_name ++ "_derivative")%string])
  else if String.eqb hrf_model "spm" then Ok (Some [con_name])
  else if String.eqb hrf_model "spm_time" then
    Ok (Some [con_name; (con_name ++ "_derivative")%string])
  else if String.eqb hrf_model "spm_time_dispersion" then
    Ok (Some [con_name; (con_name ++ "_derivative")%string;
              (con_name ++ "_dispersion")%string])
  else if String.eqb hrf_model "fir" then
    match fir_delays with
    | None => Err TypeError
    | Some ds => Ok (Some (map (fun i => (con_name ++ "_delay_" ++ format_d i)%string) ds))
    end
  else Ok None.

(** The six identifiers accepted by the kernel selector. *)
Definition hrf_models : list string :=
  ["spm"; "spm_time"; "spm_time_dispersion"; "canonical";
   "canonical with derivative"; "fir"]%string.

(** ** Kernels, orthogonalisation and the pipeline *)

Section Pipeline.

(** [scipy.stats.gamma.pdf(x, a, loc)], applied point-wise. *)
Variable gamma_pdf : Qc -> Qc -> Qc -> Qc.

(** [numpy.linalg.pinv]. *)
Variable pinv : matrix -> matrix.

(** [_gamma_difference_hrf] (lines 14-38).  [hrf /= hrf.sum()] is written
    as the exact quotient.  When the samples sum to zero the program fills
    the kernel with [nan] and carries on, where the division of [Qc] gives
    0; [nonzero_mass] and [defined_kernels] exclude that case. *)
Definition _gamma_difference_hrf (tr : Qc) (oversampling : Z)
    (time_length onset delay undershoot dispersion u_dispersion ratio : Qc)
  : result vec :=
  dt <- py_div tr (Z2Qc oversampling) ;;
  num <- py_div time_length dt ;;
  let time_stamps := Np.linspace 0 time_length num in
  shift <- py_div onset dt ;;
  let time_stamps := map (fun t => t - shift) time_stamps in
  a1 <- py_div delay dispersion ;;
  l1 <- py_div dt dispersion ;;
  a2 <- py_div undershoot u_dispersion ;;
  l2 <- py_div dt u_dispersion ;;
  let hrf := map (fun t => gamma_pdf t a1 l1 - ratio * gamma_pdf t a2 l2) time_stamps in
  Ok (map (fun h => h / Np.sum hrf) hrf).

Definition spm_hrf (tr : Qc) (oversampling : Z) (time_length onset : Qc) : result vec :=
  _gamma_difference_hrf tr oversampling time_length onset
    (qz 6) (qz 16) (qz 1) (qz 1) (qf 167 1000).

Definition glover_hrf (tr : Qc) (oversampling : Z) (time_length onset : Qc) : result vec :=
  _gamma_difference_hrf tr oversampling time_length onset
    (qz 6) (qz 12) (qf 9 10) (qf 9 10) (qf 35 100).

Definition spm_time_derivative (tr : Qc) (oversampling : Z) (time_length onset : Qc)
  : result vec :=
  let do := qf 1 10 in
  h1 <- spm_hrf tr oversampling time_length (onset + do) ;;
  h0 <- spm_hrf tr oversampling time_length onset ;;
  Ok (Np.scale (1 / do) (Np.vsub h1 h0)).

Definition glover_time_derivative (tr : Qc) (oversampling : Z) (time_length onset : Qc)
  : result vec :=
  let do := qf 1 10 in
  h1 <- glover_hrf tr oversampling time_length (onset + do) ;;
  h0 <- glover_hrf tr oversampling time_length onset ;;
  Ok (Np.scale (1 / do) (Np.vsub h1 h0)).

Definition spm_dispersion_derivative (tr : Qc) (oversampling : Z) (time_length onset : Qc)
  : result vec :=
  let dd := qf 1 100 in
  h1 <- _gamma_difference_hrf tr oversampling time_length onset
          (qz 6) (qz 16) (1 + dd) (qz 1) (qf 167 1000) ;;
  h0 <- spm_hrf tr oversampling time_length onset ;;
  Ok (Np.scale (1 / dd) (Np.vsub h1 h0)).

(** The default [time_length=32.] and [onset=0.] of the kernel builders. *)
Definition time_length0 : Qc := qz 32.
Definition onset0 : Qc := qz 0.

(** One FIR kernel: [np.hstack((np.zeros(f * oversampling), np.ones(oversampling)))]. *)
Definition fir_kernel (oversampling f : Z) : result vec :=
  z <- Np.zerosZ (f * oversampling) ;;
  o <- Np.onesZ oversampling ;;
  Ok (z ++ o).

Definition _hrf_kernel (hrf_model : string) (tr : Qc) (oversampling : Z)
    (fir_delays : option (list Z)) : result (list vec) :=
  if String.eqb hrf_model "spm" then
    h <- spm_hrf tr oversampling time_length0 onset0 ;; Ok [h]
  else if String.eqb hrf_model "spm_time" then
    h <- spm_hrf tr oversampling time_length0 onset0 ;;
    d <- spm_time_derivative tr oversampling time_length0 onset0 ;;
    Ok [h; d]
  else if String.eqb hrf_model "spm_time_dispersion" then
    h <- spm_hrf tr oversampling time_length0 onset0 ;;
    d <- spm_time_derivative tr oversampling time_length0 onset0 ;;
    s <- spm_dispersion_derivative tr oversampling time_length0 onset0 ;;
    Ok [h; d; s]
  else if String.eqb hrf_model "canonical" then
    h <- glover_hrf tr oversampling time_length0 onset0 ;; Ok [h]
  else if String.eqb hrf_model "canonical with derivative" then
    h <- glover_hrf tr oversampling time_length0 onset0 ;;
    d <- glover_time_derivative tr oversampling time_length0 onset0 ;;
    Ok [h; d]
  else if String.eqb hrf_model "fir" then
    match fir_delays with
    | None => Err TypeError
    | Some ds => mapM (fir_kernel oversampling) ds
    end
  else Err (ValueError "Unknown hrf model").

(** One pass of the loop body of [_orthogonalize]:
    [X[:, i] -= np.dot(X[:, i], np.dot(X[:, :i], pinv(X[:, :i])))]. *)
Definition orth_step (i : nat) (X : matrix) : result matrix :=
  let A := Np.cols_before i X in
  P <- Np.dot_mm A (pinv A) ;;
  w <- Np.dot_vm (Np.col i X) P ;;
  Np.isub_col X i w.

Fixpoint orth_loop (range : list nat) (X : matrix) : result matrix :=
  match range with
  | [] => Ok X
  | i :: range' => X' <- orth_step i X ;; orth_loop range' X'
  end.

Definition _orthogonalize (X : matrix) : result matrix :=
  if (Np.size X =? Np.shape0 X)%nat then Ok X
  else orth_loop (seq 1 (Np.shape1 X - 1)) X.

Definition compute_regressor (exp_condition : list event) (hrf_model : string)
    (frame_times : vec) (con_id : string) (oversampling : Z)
    (fir_delays : option (list Z)) (min_onset : Qc)
  : result (matrix * option (list string)) :=
  fmax <- Np.max frame_times ;;
  tr <- py_div fmax (Z2Qc (Z.of_nat (length frame_times) - 1)) ;;
  '(hr_regressor, hr_frame_times) <-
     _sample_condition exp_condition frame_times oversampling min_onset ;;
  hkernel <- _hrf_kernel hrf_model tr oversampling fir_delays ;;
  conv_reg <- mapM (fun h => c <- Np.convolve hr_regressor h ;;
                             Ok (firstn (length hr_regressor) c)) hkernel ;;
  creg <- _resample_regressor conv_reg hr_frame_times frame_times ;;
  creg <- (if negb (String.eqb hrf_model "fir") then _orthogonalize creg else Ok creg) ;;
  reg_names <- _regressor_names con_id hrf_model fir_delays ;;
  Ok (creg, reg_names).

End Pipeline.

(** ** Specification-side notions *)

(** Strictly increasing time stamps. *)
Fixpoint increasing (l : vec) : Prop :=
  match l with
  | x :: (y :: _) as l' => x < y /\ increasing l'
  | _ => True
  end.



(** The sum of the amplitudes of the events selected by [sel], which sees
    the onset index and the offset index of each event. *)
Definition amplitude_sum (hr : vec) (evs : list event) (sel : Z -> Z -> bool) : Qc :=
  Np.sum (map (fun p => if sel (fst (fst p)) (snd (fst p)) then value (snd p) else 0)
              (combine (combine (t_onset hr evs) (t_offset hr evs)) evs)).

(** The sum of the entries of [vals] whose index in [idx] is [j]. *)
Definition sel_sum (idx : list Z) (vals : vec) (j : nat) : Qc :=
  Np.sum (map (fun p => if (fst p =? Z.of_nat j)%Z then snd p else 0)
              (combine idx vals)).

(** The delta array of the specification: at grid index [j], the
    amplitudes of all events whose onset index is [j], minus the amplitudes
    of all events whose offset index is [j]. *)
Definition delta_spec (hr : vec) (evs : list event) : vec :=
  map (fun j => sel_sum (t_onset hr evs) (values evs) j
              - sel_sum (t_offset hr evs) (values evs) j)
      (seq 0 (length hr)).

(** The entry of [ws] paired with index [j] in [idx], [d] when there is
    none. *)
Fixpoint pick (j : nat) (idx : list Z) (ws : vec) (d : Qc) : Qc :=
  match idx, ws with
  | i :: idx', w :: ws' => if (i =? Z.of_nat j)%Z then w else pick j idx' ws' d
  | _, _ => d
  end.

(** The regressor of the specification: the prefix sum of [delta_spec]. *)
Definition regressor_spec (hr : vec) (evs : list event) : vec :=
  Np.cumsum (delta_spec hr evs).

(** The events active at grid index [j]: onset index reached, offset
    index not yet reached. *)
Definition active_sum (hr : vec) (evs : list event) (j : nat) : Qc :=
  amplitude_sum hr evs (fun ton tof => (ton <=? Z.of_nat j)%Z && (Z.of_nat j <? tof)%Z).

(** The number of regressors the specification attaches to each model. *)
Definition expected_columns (hrf_model : string) (fir_delays : option (list Z)) : nat :=
  if String.eqb hrf_model "spm" then 1
  else if String.eqb hrf_model "canonical" then 1
  else if String.eqb hrf_model "spm_time" then 2
  else if String.eqb hrf_model "canonical with derivative" then 2
  else if String.eqb hrf_model "spm_time_dispersion" then 3
  else match fir_delays with Some ds => length ds | None => 0 end.

(** ** Linear algebra on the specification side *)

(** An n x p array: n rows of p entries. *)
Definition rect (n p : nat) (X : matrix) : Prop :=
  length X = n /\ Forall (fun r => length r = p) X.

(** A list of rows that is a 2-D array: all rows as long as the first. *)
Definition rectangular (X : matrix) : Prop := rect (Np.shape0 X) (Np.shape1 X) X.

(** Column [i] is orthogonal to every column before it:
    [X[:, i]^T X[:, :i] = 0]. *)
Definition ortho (X : matrix) (i : nat) : Prop :=
  Np.lincomb i (Np.col i X) (Np.cols_before i X) = Np.zeros i.

Fixpoint dotv (u v : vec) : Qc :=
  match u, v with
  | a :: u', b :: v' => a * b + dotv u' v'
  | _, _ => 0
  end.

(** Matrix times column vector, and the matrix product. *)
Definition matvec (M : matrix) (x : vec) : vec := map (fun r => dotv r x) M.

Definition matmul (A B : matrix) : matrix :=
  map (fun r => Np.lincomb (Np.shape1 B) r B) A.

Fixpoint mat_eqb (A B : matrix) : bool :=
  match A, B with
  | [], [] => true
  | r :: A', s :: B' => vec_eqb r s && mat_eqb A' B'
  | _, _ => false
  end.

(** What is asked of a pseudo-inverse [P] of [A]: the transposed shape,
    and the Penrose conditions [A P A = A] and [(A P)^T = A P]. *)
Definition pinv_shape (A P : matrix) : Prop := rect (Np.shape1 A) (Np.shape0 A) P.

Definition penrose1 (A P : matrix) : Prop :=
  pinv_shape A P /\ matmul (matmul A P) A = A.

Definition penrose3 (A P : matrix) : Prop :=
  pinv_shape A P /\ Np.transpose (length A) (matmul A P) = matmul A P.

(** The pseudo-inverse of a single non-zero column [a]: the row [a^T / (a . a)]. *)
Definition pinv_column (A : matrix) : matrix :=
  let a := Np.col 0 A in
  [map (fun x => x / dotv a a) a].

Section LeastSquares.

Variable pinv : matrix -> matrix.

(** Column [j] is orthogonal to its predecessors and [pinv] returned an
    array of the transposed shape for them. *)
Definition settled (X : matrix) (j : nat) : Prop :=
  ortho X j /\ pinv_shape (Np.cols_before j X) (pinv (Np.cols_before j X)).

(** The arguments handed to [pinv], in order, while the loop of
    [_orthogonalize] runs over [range] from the array [X]. *)
Fixpoint pinv_calls (range : list nat) (X : matrix) : list matrix :=
  match range with
  | [] => []
  | i :: range' =>
      Np.cols_before i X ::
      match orth_step pinv i X with
      | Ok X' => pinv_calls range' X'
      | Err _ => []
      end
  end.

(** The least-squares fit of [x] on the columns of [A], the projection of
    [x] onto the column space of [A], and the step of the specification:
    column [i] minus its projection onto the columns before it. *)
Definition lstsq_fit (A : matrix) (x : vec) : vec := matvec (pinv A) x.

Definition lsq_projection (A : matrix) (x : vec) : vec := matvec A (lstsq_fit A x).

Definition lsq_step (X : matrix) (i : nat) : matrix :=
  Np.sub_col X i (lsq_projection (Np.cols_before i X) (Np.col i X)).

Definition orthogonalize_spec (X : matrix) : matrix :=
  fold_left lsq_step (seq 1 (Np.shape1 X - 1)) X.

End LeastSquares.

(** ** Notions used to state further properties *)

(** The samples of [_gamma_difference_hrf] before they are divided by
    their sum (source lines 31-36). *)
Definition gamma_difference_samples (gamma_pdf : Qc -> Qc -> Qc -> Qc)
    (tr : Qc) (oversampling : Z)
    (time_length onset delay undershoot dispersion u_dispersion ratio : Qc)
  : result vec :=
  dt <- py_div tr (Z2Qc oversampling) ;;
  num <- py_div time_length dt ;;
  let time_stamps := Np.linspace 0 time_length num in
  shift <- py_div onset dt ;;
  let time_stamps := map (fun t => t - shift) time_stamps in
  a1 <- py_div delay dispersion ;;
  l1 <- py_div dt dispersion ;;
  a2 <- py_div undershoot u_dispersion ;;
  l2 <- py_div dt u_dispersion ;;
  Ok (map (fun t => gamma_pdf t a1 l1 - ratio * gamma_pdf t a2 l2) time_stamps).

(** The samples exist and their sum is not zero, so that the division of
    line 37 is an ordinary one. *)
Definition nonzero_mass (gamma_pdf : Qc -> Qc -> Qc -> Qc)
    (tr : Qc) (oversampling : Z)
    (time_length onset delay undershoot dispersion u_dispersion ratio : Qc) : Prop :=
  exists raw,
    gamma_difference_samples gamma_pdf tr oversampling time_length onset
      delay undershoot dispersion u_dispersion ratio = Ok raw /\
    Np.sum raw <> 0.

(** The events of a condition with every amplitude multiplied by [c]. *)
Definition scale_amplitudes (c : Qc) (exp_condition : list event) : list event :=
  map (fun e => mk_event (onset e) (duration e) (c * value e)) exp_condition.

(** ** The sample count in float64 arithmetic

    Everywhere else a float is its exact value.  The sample count of the
    grid is the one place where a float goes through [int()], so that an
    error of one unit in the last place becomes a whole sample: for it
    the rounding of every operation is written out.  [round64] rounds a
    rational to the nearest float64 number, ties to even, with the
    53-bit significand and the gradual underflow of IEEE 754 binary64;
    magnitudes of [2^1024] and more, which float64 turns into [inf], are
    outside the model. *)

(** [2^s] for an integer [s]. *)
Definition pow2 (s : Z) : Qc :=
  if (0 <=? s)%Z then Z2Qc (2 ^ s) else / Z2Qc (2 ^ (- s)).

(** [floor(log2 x)] for [x > 0]. *)
Definition ilog2 (x : Qc) : Z :=
  let e0 := (Z.log2 (Qnum x) - Z.log2 (Zpos (Qden x)))%Z in
  if Qc_ltb x (pow2 e0) then (e0 - 1)%Z else e0.

(** The integer nearest to [x >= 0], the even one of two that are equally
    near. *)
Definition round_half_even (x : Qc) : Z :=
  let lo := (Qnum x / Zpos (Qden x))%Z in
  let r := x - Z2Qc lo in
  if Qc_ltb r (qf 1 2) then lo
  else if Qc_ltb (qf 1 2) r then (lo + 1)%Z
  else if Z.even lo then lo else (lo + 1)%Z.

Definition round64 (x : Qc) : Qc :=
  if Qc_eq_dec x 0 then 0
  else
    let ax := if Qc_ltb x 0 then - x else x in
    let s := Z.max (ilog2 ax - 52) (-1074) in
    let y := Z2Qc (round_half_even (ax / pow2 s)) * pow2 s in
    if Qc_ltb x 0 then - y else y.

(** A float64 number: rounding leaves it as it is. *)
Definition is_float64 (x : Qc) : Prop := round64 x = x.

(** [n_hr] with the rounding of each operation, in the order in which
    Python evaluates
    [((n - 1) * 1. / (max - min) * (max * (1 + 1. / (n - 1)) - min - min_onset)
      * oversampling) + 1];
    the integers [n - 1] and [oversampling] are converted to float64 where
    they meet a float. *)
Definition n_hr_float64 (frame_times : vec) (oversampling : Z) (min_onset : Qc)
  : result Qc :=
  let n := Z.of_nat (length frame_times) in
  fmax <- Np.max frame_times ;;
  fmin <- Np.min frame_times ;;
  let t1 := round64 (round64 (Z2Qc (n - 1)) * 1) in
  let d := round64 (fmax - fmin) in
  inv <- py_div 1 (round64 (Z2Qc (n - 1))) ;;
  let a := round64 inv in
  let b := round64 (1 + a) in
  let c := round64 (fmax * b) in
  let e := round64 (c - fmin) in
  let f := round64 (e - min_onset) in
  let os := round64 (Z2Qc oversampling) in
  if Qc_eq_dec d 0 then
    if Qc_eq_dec (f * os) 0
    then Err (ValueError "cannot convert float NaN to integer")
    else Err OverflowError
  else
    let t2 := round64 (t1 / d) in
    let t3 := round64 (t2 * f) in
    let t4 := round64 (t3 * os) in
    Ok (round64 (t4 + 1)).

(** The values that the operations of [n_hr] produce in exact
    arithmetic, with the inputs and the first grid time
    [min + min_onset]. *)
Definition n_hr_steps (frame_times : vec) (oversampling : Z) (min_onset : Qc)
  : list Qc :=
  let n1 := Z2Qc (Z.of_nat (length frame_times) - 1) in
  let os := Z2Qc oversampling in
  let fmax := last frame_times 0 in
  let fmin := hd 0 frame_times in
  let t1 := n1 * 1 in
  let d := fmax - fmin in
  let a := 1 / n1 in
  let b := 1 + a in
  let c := fmax * b in
  let e := c - fmin in
  let f := e - min_onset in
  let t2 := t1 / d in
  let t3 := t2 * f in
  let t4 := t3 * os in
  [n1; os; min_onset; fmin + min_onset; t1; d; a; b; c; e; f; t2; t3; t4; t4 + 1].

(** No operation of the sample count rounds: the frame times are float64
    numbers and so is every value of [n_hr_steps]. *)
Definition exact_in_float64 (frame_times : vec) (oversampling : Z) (min_onset : Qc)
  : Prop :=
  Forall is_float64 frame_times /\
  Forall is_float64 (n_hr_steps frame_times oversampling min_onset).

(** ** Names and columns, regressor by regressor *)



(** Every response kernel that the model builds has a non-zero sum before
    it is normalised, so that no division of line 37 is by zero. *)
Definition defined_kernels (gamma_pdf : Qc -> Qc -> Qc -> Qc) (hrf_model : string)
    (tr : Qc) (oversampling : Z) : Prop :=
  let spm onset dispersion :=
    nonzero_mass gamma_pdf tr oversampling time_length0 onset
      (qz 6) (qz 16) dispersion (qz 1) (qf 167 1000) in
  let glover onset :=
    nonzero_mass gamma_pdf tr oversampling time_length0 onset
      (qz 6) (qz 12) (qf 9 10) (qf 9 10) (qf 35 100) in
  if String.eqb hrf_model "spm" then spm onset0 (qz 1)
  else if String.eqb hrf_model "spm_time" then
    spm onset0 (qz 1) /\ spm (onset0 + qf 1 10) (qz 1)
  else if String.eqb hrf_model "spm_time_dispersion" then
    spm onset0 (qz 1) /\ spm (onset0 + qf 1 10) (qz 1) /\ spm onset0 (1 + qf 1 100)
  else if String.eqb hrf_model "canonical" then glover onset0
  else if String.eqb hrf_model "canonical with derivative" then
    glover onset0 /\ glover (onset0 + qf 1 10)
  else True.
(** * Proofs *)

Lemma vec_eqb_eq (u v : vec) : vec_eqb u v = true -> u = v.
Proof.
  revert v; induction u as [|x u IH]; intros [|y v]; simpl; try discriminate; auto.
  intros H. apply andb_true_iff in H as [Hx Hu].
  apply Qc_eq_bool_correct in Hx. f_equal; auto.
Qed.

Lemma vec_ext (u v : vec) :
  length u = length v -> (forall j, nth j u 0 = nth j v 0) -> u = v.
Proof.
  revert v; induction u as [|a u IH]; intros [|b v] Hl Hn; simpl in Hl;
    try discriminate; auto.
  f_equal.
  - exact (Hn 0%nat).
  - apply IH; [lia|]. intros j. exact (Hn (S j)).
Qed.

Lemma vec_ext_lt (u v : vec) :
  length u = length v ->
  (forall j, (j < length u)%nat -> nth j u 0 = nth j v 0) -> u = v.
Proof.
  intros Hl Hn. apply vec_ext; [exact Hl|]. intros j.
  destruct (Nat.lt_ge_cases j (length u)) as [H|H]; [now apply Hn|].
  rewrite !nth_overflow by lia. reflexivity.
Qed.

Lemma nth_map_lt {A B : Type} (f : A -> B) (l : list A) (k : nat) (d : B) (d' : A) :
  (k < length l)%nat -> nth k (map f l) d = f (nth k l d').
Proof.
  intros H. rewrite nth_indep with (d' := f d') by (now rewrite length_map).
  apply map_nth.
Qed.

(** ** Index bounds of the sampler *)

Section SamplerIndices.

Variable hr : vec.
Let tmax : Z := Z.of_nat (length hr).

Lemma searchsorted1_le (a : vec) (v : Qc) :
  (Np.searchsorted1 a v <= length a)%nat.
Proof.
  induction a as [|x a IH]; simpl; [lia|].
  destruct (Qc_ltb x v); lia.
Qed.

Lemma clamp_in_grid (k : nat) :
  hr <> [] -> in_grid hr (Z.min (Z.of_nat k) (tmax - 1)).
Proof.
  intros Hne. unfold in_grid, tmax.
  destruct hr; [congruence|]. simpl length. lia.
Qed.

Lemma t_onset_in_grid (evs : list event) :
  hr <> [] -> Forall (in_grid hr) (t_onset hr evs).
Proof.
  intros Hne. unfold t_onset, Np.minimum, Np.searchsorted, onsets.
  rewrite !map_map. apply Forall_forall. intros i Hi.
  apply in_map_iff in Hi as [e [<- _]]. now apply clamp_in_grid.
Qed.

Lemma t_offset0_in_grid (evs : list event) :
  hr <> [] -> Forall (in_grid hr) (t_offset0 hr evs).
Proof.
  intros Hne. unfold t_offset0, Np.minimum, Np.searchsorted.
  rewrite !map_map. apply Forall_forall. intros i Hi.
  apply in_map_iff in Hi as [e [<- _]]. now apply clamp_in_grid.
Qed.

Lemma bump_in_grid (t_off t_on : list Z) :
  Forall (in_grid hr) t_off -> Forall (in_grid hr) (bump tmax t_off t_on).
Proof.
  revert t_on. induction t_off as [|to t_off IH]; intros t_on H; simpl; auto.
  destruct t_on as [|ton t_on]; auto.
  inversion H as [|? ? Hto Hrest]; subst. constructor; auto.
  destruct (to <? tmax - 1)%Z eqn:Hlt; simpl; auto.
  destruct (to =? ton)%Z; auto.
  apply Z.ltb_lt in Hlt. unfold in_grid in *. fold tmax in Hto |- *. lia.
Qed.

Lemma t_offset_in_grid (evs : list event) :
  hr <> [] -> Forall (in_grid hr) (t_offset hr evs).
Proof.
  intros Hne. unfold t_offset. apply bump_in_grid. now apply t_offset0_in_grid.
Qed.

Lemma bump_length (t_off t_on : list Z) :
  length (bump tmax t_off t_on) = length t_off.
Proof.
  revert t_on; induction t_off as [|to t_off IH]; intros [|ton t_on]; simpl; auto.
Qed.

Lemma bump_nth (t_off t_on : list Z) (i : nat) :
  (i < length t_off)%nat -> (i < length t_on)%nat ->
  nth i (bump tmax t_off t_on) 0%Z =
    let to := nth i t_off 0%Z in
    if ((to <? tmax - 1) && (to =? nth i t_on 0))%Z then (to + 1)%Z else to.
Proof.
  revert t_on i; induction t_off as [|to t_off IH]; intros [|ton t_on] [|i];
    simpl; intros H1 H2; try lia; auto.
  apply IH; lia.
Qed.

End SamplerIndices.

Lemma t_onset_length (hr : vec) (evs : list event) :
  length (t_onset hr evs) = length evs.
Proof.
  unfold t_onset, Np.minimum, Np.searchsorted, onsets. now rewrite !length_map.
Qed.

Lemma t_offset0_length (hr : vec) (evs : list event) :
  length (t_offset0 hr evs) = length evs.
Proof.
  unfold t_offset0, Np.minimum, Np.searchsorted. now rewrite !length_map.
Qed.

Lemma t_offset_length (hr : vec) (evs : list event) :
  length (t_offset hr evs) = length evs.
Proof.
  unfold t_offset. now rewrite bump_length, t_offset0_length.
Qed.

(** Fancy indexing with in-range indices never raises and keeps the size. *)

Lemma upd_length (a : vec) (k : nat) (x : Qc) : length (Np.upd a k x) = length a.
Proof.
  revert k; induction a as [|y a IH]; intros [|k]; simpl; auto.
Qed.

Lemma norm_index_in_range (len : nat) (i : Z) :
  (0 <= i <= Z.of_nat len - 1)%Z -> Np.norm_index len i = Ok (Z.to_nat i).
Proof.
  intros H. unfold Np.norm_index.
  destruct (i <? 0)%Z eqn:Hneg; [apply Z.ltb_lt in Hneg; lia|].
  destruct (0 <=? i)%Z eqn:H0; [|apply Z.leb_gt in H0; lia].
  destruct (i <? Z.of_nat len)%Z eqn:H1; [|apply Z.ltb_ge in H1; lia].
  reflexivity.
Qed.

Lemma mapM_getitem_ok (a : vec) (idx : list Z) :
  Forall (in_grid a) idx ->
  mapM (Np.getitem a) idx = Ok (map (fun i => nth (Z.to_nat i) a 0) idx).
Proof.
  induction 1 as [|i idx Hi _ IH]; simpl; auto.
  unfold Np.getitem at 1. rewrite norm_index_in_range by exact Hi. simpl.
  now rewrite IH.
Qed.

Lemma fancy_set_ok (a : vec) (idx : list Z) (vals : vec) :
  Forall (in_grid a) idx ->
  exists a', Np.fancy_set a idx vals = Ok a' /\ length a' = length a.
Proof.
  intros H. revert a vals H.
  induction idx as [|i idx IH]; intros a vals H; simpl.
  - now exists a.
  - destruct vals as [|v vals]; [now exists a|].
    inversion H as [|? ? Hi Hrest]; subst.
    unfold Np.setitem. rewrite norm_index_in_range by exact Hi. simpl.
    destruct (IH (Np.upd a (Z.to_nat i) v) vals) as [a' [Ha' Hl]].
    + unfold in_grid in *. now rewrite upd_length.
    + exists a'. split; auto. now rewrite Hl, upd_length.
Qed.

Lemma fancy_iop_ok (op : Qc -> Qc -> Qc) (a : vec) (idx : list Z) (vals : vec) :
  Forall (in_grid a) idx ->
  exists a', Np.fancy_iop op a idx vals = Ok a' /\ length a' = length a.
Proof.
  intros H. unfold Np.fancy_iop. rewrite mapM_getitem_ok by exact H. simpl.
  now apply fancy_set_ok.
Qed.

Lemma cumsum_from_length (acc : Qc) (a : vec) :
  length (Np.cumsum_from acc a) = length a.
Proof.
  revert acc; induction a as [|x a IH]; intros acc; simpl; auto.
Qed.

Lemma zeros_length (n : nat) : length (Np.zeros n) = n.
Proof. apply repeat_length. Qed.

Lemma hr_regressor_ok (hr : vec) (evs : list event) :
  hr <> [] ->
  exists r, hr_regressor hr evs = Ok r /\ length r = length hr.
Proof.
  intros Hne. unfold hr_regressor.
  destruct (fancy_iop_ok Qcplus (Np.zeros (length hr)) (t_onset hr evs) (values evs))
    as [r1 [H1 L1]].
  { unfold in_grid. rewrite zeros_length. now apply t_onset_in_grid. }
  rewrite H1. simpl.
  destruct (fancy_iop_ok Qcminus r1 (t_offset hr evs) (values evs)) as [r2 [H2 L2]].
  { unfold in_grid. rewrite L1, zeros_length. now apply t_offset_in_grid. }
  rewrite H2. simpl. eexists; split; [reflexivity|].
  unfold Np.cumsum. now rewrite cumsum_from_length, L2, L1, zeros_length.
Qed.

(** ** Elementary facts on [Qc] *)

Lemma Qc_ltb_lt (a b : Qc) : Qc_ltb a b = true <-> a < b.
Proof.
  unfold Qc_ltb. destruct (Qclt_le_dec a b) as [H|H]; split; auto; try discriminate.
  intros H'. exfalso. exact (Qcle_not_lt _ _ H H').
Qed.

Lemma Qc_ltb_ge (a b : Qc) : Qc_ltb a b = false <-> b <= a.
Proof.
  unfold Qc_ltb. destruct (Qclt_le_dec a b) as [H|H]; split; auto; try discriminate.
  intros H'. exfalso. exact (Qcle_not_lt _ _ H' H).
Qed.

Lemma Z2Qc_inj (a b : Z) : Z2Qc a = Z2Qc b -> a = b.
Proof.
  unfold Z2Qc. intros H. apply Q2Qc_eq_iff in H.
  unfold Qeq in H. simpl in H. lia.
Qed.

Lemma Z2Qc_neq0 (a : Z) : a <> 0%Z -> Z2Qc a <> 0.
Proof.
  intros Ha H. apply Ha. apply Z2Qc_inj. exact H.
Qed.

Lemma Qc_eq_bool_complete (x y : Qc) : x = y -> Qc_eq_bool x y = true.
Proof.
  intros ->. unfold Qc_eq_bool. destruct (Qc_eq_dec y y); congruence.
Qed.

Lemma Qc_neq_by_bool (x y : Qc) : Qc_eq_bool x y = false -> x <> y.
Proof.
  intros H E. apply Qc_eq_bool_complete in E. congruence.
Qed.

(** ** C7: every index of the sampler is a valid grid index *)

(** C7.  On every non-empty grid, and for every event list, the onset
    indices, the offset indices and the offset indices after the edge bump
    all lie in [0, len(grid) - 1], whatever the onsets and durations are
    (before the grid start, past the grid end); the two fancy-indexed
    updates therefore never raise [IndexError] and the regressor has one
    sample per grid point. *)
Theorem sampler_indices_in_bounds (hr : vec) (evs : list event) :
  hr <> [] ->
  Forall (in_grid hr) (t_onset hr evs) /\
  Forall (in_grid hr) (t_offset0 hr evs) /\
  Forall (in_grid hr) (t_offset hr evs) /\
  exists r, hr_regressor hr evs = Ok r /\ length r = length hr.
Proof.
  intros Hne. repeat split.
  - now apply t_onset_in_grid.
  - now apply t_offset0_in_grid.
  - now apply t_offset_in_grid.
  - now apply hr_regressor_ok.
Qed.

Lemma sampler_indices_in_bounds_witness :
  let hr := [qz 0; qz 1; qz 2] in
  let evs := [mk_event (qz (-5)) (qz 0) (qz 1); mk_event (qz 10) (qz 3) (qz 1);
              mk_event (qz 1) (qz 7) (qz 2)] in
  Forall (in_grid hr) (t_onset hr evs) /\
  Forall (in_grid hr) (t_offset0 hr evs) /\
  Forall (in_grid hr) (t_offset hr evs) /\
  exists r, hr_regressor hr evs = Ok r /\ length r = length hr.
Proof.
  intros hr evs. apply (sampler_indices_in_bounds hr evs). discriminate.
Defined.

(** On an empty grid (a sample count that is not positive) the clamp
    yields the index -1, and the first update raises. *)
Lemma hr_regressor_empty_grid (e : event) (evs : list event) :
  hr_regressor [] (e :: evs) = Err IndexError.
Proof. reflexivity. Qed.

(** ** C4: the edge bump *)

Lemma t_offset0_le (hr : vec) (evs : list event) (i : nat) :
  (i < length evs)%nat ->
  (nth i (t_offset0 hr evs) 0 <= Z.of_nat (length hr) - 1)%Z.
Proof.
  intros Hi.
  assert (F : Forall (fun x => (x <= Z.of_nat (length hr) - 1)%Z) (t_offset0 hr evs)).
  { unfold t_offset0, Np.minimum. apply Forall_forall. intros x Hx.
    apply in_map_iff in Hx as [y [<- _]]. lia. }
  apply (proj1 (Forall_nth _ _) F). now rewrite t_offset0_length.
Qed.

Lemma nth_upd (a : vec) (k j : nat) (x : Qc) :
  (k < length a)%nat ->
  nth j (Np.upd a k x) 0 = if (j =? k)%nat then x else nth j a 0.
Proof.
  revert k j; induction a as [|y a IH]; intros [|k] [|j]; simpl; intros H;
    try lia; auto.
  apply IH. lia.
Qed.

Lemma nth_zeros (n j : nat) : nth j (Np.zeros n) 0 = 0.
Proof.
  unfold Np.zeros. revert j; induction n as [|n IH]; intros [|j]; simpl; auto.
Qed.

Lemma nth_cumsum_from (acc : Qc) (a : vec) (j : nat) :
  (j < length a)%nat ->
  nth j (Np.cumsum_from acc a) 0 = acc + Np.sum (firstn (S j) a).
Proof.
  revert acc j; induction a as [|x a IH]; intros acc j H; simpl in H; [lia|].
  destruct j as [|j].
  - simpl. destruct a; simpl; ring.
  - change (Np.cumsum_from acc (x :: a)) with ((acc + x) :: Np.cumsum_from (acc + x) a).
    change (nth (S j) ((acc + x) :: Np.cumsum_from (acc + x) a) 0)
      with (nth j (Np.cumsum_from (acc + x) a) 0).
    rewrite IH by lia.
    change (firstn (S (S j)) (x :: a)) with (x :: firstn (S j) a).
    simpl Np.sum. ring.
Qed.

(** The sum of the first [m] entries of an array that is zero except for
    [a] at index [k] and [b] at index [k + 1]. *)
Lemma sum_firstn_pulse (n k m : nat) (a b : Qc) :
  (S k < n)%nat ->
  Np.sum (firstn m (Np.upd (Np.upd (Np.zeros n) k a) (S k) b)) =
    (if (k <? m)%nat then a else 0) + (if (S k <? m)%nat then b else 0).
Proof.
  revert k m. induction n as [|n IH]; intros k m H; [lia|].
  destruct m as [|m].
  - simpl. destruct k; simpl; ring.
  - destruct k as [|k].
    + destruct n as [|n]; [lia|]. simpl Np.upd. simpl firstn. simpl Np.sum.
      destruct m as [|m]; simpl; [ring|].
      assert (Hz : forall l, Np.sum (firstn l (repeat 0 n)) = 0).
      { clear. induction n as [|n IHn]; intros [|l]; simpl; auto.
        rewrite IHn. ring. }
      rewrite Hz. ring.
    + simpl Np.upd. simpl firstn. simpl Np.sum.
      change (repeat 0 n) with (Np.zeros n). rewrite IH by lia.
      change (S k <? S m)%nat with (k <? m)%nat.
      change (S (S k) <? S m)%nat with (S k <? m)%nat. ring.
Qed.

(** The offset rule.  For every event of every event list: when its clamped offset
    index equals its onset index and that index is not the last grid index,
    the offset index is incremented by one, so the two indices differ; when
    the shared index is the last grid index the offset index is left alone;
    an offset index different from the onset index is left alone.  For a
    single-event condition the bumped event is a step of width one sample:
    the regressor is the amplitude at the onset index and zero elsewhere. *)
Theorem edge_bump :
  (forall (hr : vec) (evs : list event) (i : nat),
      (i < length evs)%nat ->
      let tmax := Z.of_nat (length hr) in
      let ton := nth i (t_onset hr evs) 0%Z in
      let to0 := nth i (t_offset0 hr evs) 0%Z in
      let to := nth i (t_offset hr evs) 0%Z in
      (to0 = ton -> to0 <> (tmax - 1)%Z -> to = (to0 + 1)%Z /\ to <> ton) /\
      (to0 = ton -> to0 = (tmax - 1)%Z -> to = to0) /\
      (to0 <> ton -> to = to0)) /\
  (forall (hr : vec) (e : event),
      let tmax := Z.of_nat (length hr) in
      let ton := nth 0 (t_onset hr [e]) 0%Z in
      nth 0 (t_offset0 hr [e]) 0%Z = ton -> ton <> (tmax - 1)%Z -> hr <> [] ->
      exists r, hr_regressor hr [e] = Ok r /\ length r = length hr /\
        forall j, (j < length hr)%nat ->
          nth j r 0 = if (j =? Z.to_nat ton)%nat then value e else 0).
Proof.
  split.
  - intros hr evs i Hi tmax ton to0 to.
    assert (Hle : (to0 <= tmax - 1)%Z) by (apply t_offset0_le; exact Hi).
    assert (Hto : to = if ((to0 <? tmax - 1) && (to0 =? ton))%Z then (to0 + 1)%Z else to0).
    { unfold to, t_offset. rewrite bump_nth; [reflexivity| |].
      - now rewrite t_offset0_length.
      - now rewrite t_onset_length. }
    split; [|split].
    + intros E N.
      assert (Hb : to = (to0 + 1)%Z).
      { rewrite Hto.
        destruct (to0 <? tmax - 1)%Z eqn:H1; [|apply Z.ltb_ge in H1; lia].
        rewrite (proj2 (Z.eqb_eq to0 ton) E). reflexivity. }
      split; [exact Hb | lia].
    + intros E L. rewrite Hto.
      destruct (to0 <? tmax - 1)%Z eqn:H1; [apply Z.ltb_lt in H1; lia|]. reflexivity.
    + intros N. rewrite Hto.
      destruct (to0 =? ton)%Z eqn:H2; [apply Z.eqb_eq in H2; contradiction|].
      now rewrite andb_false_r.
  - intros hr e tmax ton Heq Hlast Hne.
    assert (Hin : in_grid hr ton).
    { pose proof (t_onset_in_grid hr [e] Hne) as F. inversion F; subst. assumption. }
    unfold in_grid in Hin. fold tmax in Hin.
    set (k := Z.to_nat ton).
    assert (Hk : (S k < length hr)%nat) by (unfold k, tmax in *; lia).
    assert (Hon : t_onset hr [e] = [ton]).
    { unfold ton. unfold t_onset, Np.minimum, Np.searchsorted, onsets. reflexivity. }
    assert (Hoff : t_offset hr [e] = [(ton + 1)%Z]).
    { unfold t_offset. rewrite Hon.
      assert (H0 : t_offset0 hr [e] = [ton]).
      { rewrite <- Heq. unfold t_offset0, Np.minimum, Np.searchsorted. reflexivity. }
      rewrite H0. simpl. fold tmax.
      destruct (ton <? tmax - 1)%Z eqn:H1; [|apply Z.ltb_ge in H1; lia].
      now rewrite Z.eqb_refl. }
    unfold hr_regressor. rewrite Hon, Hoff.
    unfold Np.fancy_iop, values. simpl mapM. unfold Np.getitem at 1.
    rewrite norm_index_in_range by (rewrite zeros_length; fold tmax; lia).
    simpl bind at 1. simpl.
    unfold Np.setitem at 1.
    rewrite norm_index_in_range by (rewrite zeros_length; fold tmax; lia).
    simpl bind. unfold Np.getitem.
    rewrite norm_index_in_range
      by (rewrite upd_length, zeros_length; fold tmax; lia).
    simpl bind. unfold Np.setitem.
    rewrite norm_index_in_range
      by (rewrite upd_length, zeros_length; fold tmax; lia).
    simpl bind.
    replace (Z.to_nat (ton + 1)) with (S k) by (unfold k; lia). fold k.
    eexists. split; [reflexivity|]. split.
    + unfold Np.cumsum. now rewrite cumsum_from_length, !upd_length, zeros_length.
    + intros j Hj. unfold Np.cumsum.
      rewrite nth_cumsum_from by (now rewrite !upd_length, zeros_length).
      rewrite sum_firstn_pulse by exact Hk.
      rewrite nth_upd by (rewrite zeros_length; lia).
      replace (S k =? k)%nat with false by (symmetry; apply Nat.eqb_neq; lia).
      rewrite !nth_zeros.
      destruct (j =? k)%nat eqn:Hjk.
      * apply Nat.eqb_eq in Hjk. subst j.
        replace (k <? S k)%nat with true by (symmetry; apply Nat.ltb_lt; lia).
        replace (S k <? S k)%nat with false by (symmetry; apply Nat.ltb_ge; lia).
        ring.
      * apply Nat.eqb_neq in Hjk.
        destruct (k <? S j)%nat eqn:H1.
        -- apply Nat.ltb_lt in H1.
           replace (S k <? S j)%nat with true by (symmetry; apply Nat.ltb_lt; lia).
           ring.
        -- apply Nat.ltb_ge in H1.
           replace (S k <? S j)%nat with false by (symmetry; apply Nat.ltb_ge; lia).
           ring.
Qed.

Lemma edge_bump_witness :
  let hr := [qz 0; qz 1; qz 2; qz 3] in
  let e := mk_event (qz 1) (qz 0) (qz 5) in
  (nth 0 (t_onset hr [e]) 0%Z = 1%Z /\ nth 0 (t_offset0 hr [e]) 0%Z = 1%Z /\
   nth 0 (t_offset hr [e]) 0%Z = 2%Z) /\
  exists r, hr_regressor hr [e] = Ok r /\ length r = 4%nat /\
    forall j, (j < 4)%nat -> nth j r 0 = if (j =? 1)%nat then qz 5 else 0.
Proof.
  intros hr e. destruct edge_bump as [Hidx Hstep]. split.
  - assert (Hon : nth 0 (t_onset hr [e]) 0%Z = 1%Z) by (vm_compute; reflexivity).
    assert (Hoff : nth 0 (t_offset0 hr [e]) 0%Z = 1%Z) by (vm_compute; reflexivity).
    split; [exact Hon|]. split; [exact Hoff|].
    destruct (Hidx hr [e] 0%nat) as [Hb _]; [simpl; lia|].
    destruct Hb as [Hb _].
    + now rewrite Hon, Hoff.
    + rewrite Hoff. simpl. lia.
    + rewrite Hb, Hoff. reflexivity.
  - destruct (Hstep hr e) as [r [Hr [Hl Hv]]].
    + vm_compute; reflexivity.
    + vm_compute. discriminate.
    + discriminate.
    + exists r. split; [exact Hr|]. split; [exact Hl|].
      intros j Hj. apply (Hv j Hj).
Defined.

(** ** C2: the high-resolution grid *)

Lemma increasing_tail (x : Qc) (l : vec) : increasing (x :: l) -> increasing l.
Proof. destruct l as [|y l]; simpl; tauto. Qed.

Lemma increasing_above (x : Qc) (l : vec) :
  increasing (x :: l) -> Forall (fun y => x < y) l.
Proof.
  revert x; induction l as [|y l IH]; intros x H; constructor.
  - apply H.
  - destruct H as [Hxy Hl]. specialize (IH y Hl).
    eapply Forall_impl; [|exact IH]. intros z Hz. simpl in Hz.
    eapply Qclt_trans; eassumption.
Qed.





Lemma set_last_length (y : vec) (x : Qc) : length (Np.set_last y x) = length y.
Proof.
  destruct y as [|a y]; [reflexivity|]. unfold Np.set_last.
  rewrite length_app, removelast_firstn_len, length_firstn. simpl. lia.
Qed.






Lemma Z2Qc_0 : Z2Qc 0 = 0.
Proof. apply Qc_is_canon. reflexivity. Qed.




(** ** C3: the regressor against the prefix sum of accumulated deltas *)

(** With pairwise distinct indices a fancy-indexed in-place update does
    accumulate, and the sampler computes the regressor of the
    specification. *)

Lemma pick_notin (j : nat) (idx : list Z) (ws : vec) (d : Qc) :
  ~ In (Z.of_nat j) idx -> pick j idx ws d = d.
Proof.
  revert ws; induction idx as [|i idx IH]; intros [|w ws] H; simpl; auto.
  destruct (i =? Z.of_nat j)%Z eqn:E.
  - apply Z.eqb_eq in E. exfalso. apply H. now left.
  - apply IH. intros Hin. apply H. now right.
Qed.

Lemma sel_sum_notin (j : nat) (idx : list Z) (vals : vec) :
  ~ In (Z.of_nat j) idx -> sel_sum idx vals j = 0.
Proof.
  unfold sel_sum. revert vals; induction idx as [|i idx IH]; intros [|v vals] H;
    simpl; auto.
  destruct (i =? Z.of_nat j)%Z eqn:E.
  - apply Z.eqb_eq in E. exfalso. apply H. now left.
  - rewrite IH; [ring|]. intros Hin. apply H. now right.
Qed.

Lemma fancy_set_distinct (idx : list Z) :
  forall (ws a : vec),
    Forall (in_grid a) idx -> NoDup idx ->
    exists a', Np.fancy_set a idx ws = Ok a' /\ length a' = length a /\
      forall j, (j < length a)%nat -> nth j a' 0 = pick j idx ws (nth j a 0).
Proof.
  induction idx as [|i idx IH]; intros ws a F ND.
  - exists a. simpl. auto.
  - destruct ws as [|w ws]; [exists a; simpl; auto|].
    inversion F as [|? ? Hi F']; subst. inversion ND as [|? ? Hni ND']; subst.
    simpl Np.fancy_set. unfold Np.setitem.
    rewrite norm_index_in_range by exact Hi. simpl bind.
    destruct (IH ws (Np.upd a (Z.to_nat i) w)) as [a' [Ha' [La' Va']]].
    + unfold in_grid in *. now rewrite upd_length.
    + exact ND'.
    + exists a'. split; [exact Ha'|]. rewrite upd_length in La', Va'.
      split; [exact La'|]. intros j Hj. rewrite (Va' j Hj).
      unfold in_grid in Hi.
      rewrite nth_upd by lia. simpl pick.
      destruct (i =? Z.of_nat j)%Z eqn:E.
      * apply Z.eqb_eq in E. subst i. rewrite Nat2Z.id, Nat.eqb_refl.
        now apply pick_notin.
      * apply Z.eqb_neq in E.
        replace (j =? Z.to_nat i)%nat with false; [reflexivity|].
        symmetry. apply Nat.eqb_neq. lia.
Qed.

Lemma pick_gathered (op : Qc -> Qc -> Qc) (a : vec) (j : nat) (idx : list Z)
    (vals : vec) :
  (forall x, op x 0 = x) -> NoDup idx -> length vals = length idx ->
  pick j idx
    (map (fun p => op (fst p) (snd p))
         (combine (map (fun i => nth (Z.to_nat i) a 0) idx) vals))
    (nth j a 0)
  = op (nth j a 0) (sel_sum idx vals j).
Proof.
  intros Hop. revert vals; induction idx as [|i idx IH]; intros [|v vals] ND L;
    simpl in L; try discriminate.
  - unfold sel_sum. simpl. now rewrite Hop.
  - inversion ND as [|? ? Hni ND']; subst. simpl pick.
    unfold sel_sum. simpl combine. simpl map. simpl Np.sum.
    destruct (i =? Z.of_nat j)%Z eqn:E.
    + apply Z.eqb_eq in E. subst i. rewrite Nat2Z.id.
      fold (sel_sum idx vals j). rewrite sel_sum_notin by exact Hni.
      now rewrite Qcplus_0_r.
    + fold (sel_sum idx vals j). rewrite Qcplus_0_l. apply IH; [exact ND'|lia].
Qed.

Lemma fancy_iop_distinct (op : Qc -> Qc -> Qc) (a : vec) (idx : list Z) (vals : vec) :
  (forall x, op x 0 = x) ->
  Forall (in_grid a) idx -> NoDup idx -> length vals = length idx ->
  exists a', Np.fancy_iop op a idx vals = Ok a' /\ length a' = length a /\
    forall j, (j < length a)%nat -> nth j a' 0 = op (nth j a 0) (sel_sum idx vals j).
Proof.
  intros Hop F ND L. unfold Np.fancy_iop.
  rewrite mapM_getitem_ok by exact F. simpl bind.
  destruct (fancy_set_distinct idx
              (map (fun p => op (fst p) (snd p))
                   (combine (map (fun i => nth (Z.to_nat i) a 0) idx) vals))
              a F ND) as [a' [Ha' [La' Va']]].
  exists a'. split; [exact Ha'|]. split; [exact La'|].
  intros j Hj. rewrite (Va' j Hj). now apply pick_gathered.
Qed.

Lemma hr_regressor_distinct_indices (hr : vec) (evs : list event) :
  hr <> [] -> NoDup (t_onset hr evs) -> NoDup (t_offset hr evs) ->
  hr_regressor hr evs = Ok (regressor_spec hr evs).
Proof.
  intros Hne ND1 ND2. unfold hr_regressor, regressor_spec.
  assert (Lv : length (values evs) = length evs) by (unfold values; now rewrite length_map).
  destruct (fancy_iop_distinct Qcplus (Np.zeros (length hr)) (t_onset hr evs) (values evs))
    as [r1 [H1 [L1 V1]]].
  { intros x. ring. }
  { unfold in_grid. rewrite zeros_length. now apply t_onset_in_grid. }
  { exact ND1. }
  { now rewrite t_onset_length. }
  rewrite H1. simpl bind. rewrite zeros_length in L1, V1.
  destruct (fancy_iop_distinct Qcminus r1 (t_offset hr evs) (values evs))
    as [r2 [H2 [L2 V2]]].
  { intros x. ring. }
  { unfold in_grid. rewrite L1. now apply t_offset_in_grid. }
  { exact ND2. }
  { now rewrite t_offset_length. }
  rewrite H2. simpl bind. rewrite L1 in L2, V2. do 2 f_equal.
  apply vec_ext_lt.
  - unfold delta_spec. now rewrite length_map, length_seq.
  - intros j Hj. rewrite L2 in Hj. rewrite (V2 j Hj), (V1 j Hj), nth_zeros.
    unfold delta_spec.
    rewrite (nth_map_lt _ (seq 0 (length hr)) j 0 0%nat) by (now rewrite length_seq).
    rewrite seq_nth by exact Hj. simpl. ring.
Qed.

(** The prefix sum of the accumulated deltas is the sum of the amplitudes
    of the active events, as soon as no event ends before it starts. *)

Lemma sum_map_add {A : Type} (f g : A -> Qc) (l : list A) :
  Np.sum (map (fun k => f k + g k) l) = Np.sum (map f l) + Np.sum (map g l).
Proof.
  induction l as [|a l IH]; simpl; [ring|]. rewrite IH. ring.
Qed.

Lemma sum_map_sub {A : Type} (f g : A -> Qc) (l : list A) :
  Np.sum (map (fun k => f k - g k) l) = Np.sum (map f l) - Np.sum (map g l).
Proof.
  induction l as [|a l IH]; simpl; [ring|]. rewrite IH. ring.
Qed.

Lemma sum_app (u v : vec) : Np.sum (u ++ v) = Np.sum u + Np.sum v.
Proof.
  induction u as [|a u IH]; simpl; [ring|]. rewrite IH. ring.
Qed.

Lemma sum_indicator (a : Z) (v : Qc) (m : nat) :
  Np.sum (map (fun k => if (a =? Z.of_nat k)%Z then v else 0) (seq 0 m))
  = if ((0 <=? a) && (a <? Z.of_nat m))%Z then v else 0.
Proof.
  induction m as [|m IH].
  { simpl. destruct (0 <=? a)%Z eqn:E0; [|reflexivity].
    destruct (a <? 0)%Z eqn:E1; [|reflexivity].
    apply Z.leb_le in E0. apply Z.ltb_lt in E1. lia. }
  rewrite seq_S, map_app, sum_app, IH. simpl map. simpl Np.sum.
  destruct (a =? Z.of_nat m)%Z eqn:E.
  - apply Z.eqb_eq in E.
    replace (0 <=? a)%Z with true by (symmetry; apply Z.leb_le; lia).
    replace (a <? Z.of_nat m)%Z with false by (symmetry; apply Z.ltb_ge; lia).
    replace (a <? Z.of_nat (S m))%Z with true by (symmetry; apply Z.ltb_lt; lia).
    cbn [andb]. ring.
  - apply Z.eqb_neq in E. destruct (0 <=? a)%Z; cbn [andb]; [|ring].
    destruct (a <? Z.of_nat m)%Z eqn:L.
    + apply Z.ltb_lt in L.
      replace (a <? Z.of_nat (S m))%Z with true by (symmetry; apply Z.ltb_lt; lia).
      ring.
    + apply Z.ltb_ge in L.
      replace (a <? Z.of_nat (S m))%Z with false by (symmetry; apply Z.ltb_ge; lia).
      ring.
Qed.

Lemma sum_sel_sum (idx : list Z) (vals : vec) (m : nat) :
  Np.sum (map (sel_sum idx vals) (seq 0 m))
  = Np.sum (map (fun p => if ((0 <=? fst p) && (fst p <? Z.of_nat m))%Z
                          then snd p else 0) (combine idx vals)).
Proof.
  assert (Z0 : forall f : nat -> Qc, (forall k, f k = 0) ->
                Np.sum (map f (seq 0 m)) = 0).
  { intros f Hf. induction (seq 0 m) as [|k l IHl]; [reflexivity|].
    simpl. rewrite Hf, IHl. ring. }
  revert vals; induction idx as [|a idx IH]; intros [|v vals];
    try (now (rewrite Z0 by (intros k; reflexivity))).
  rewrite (map_ext (sel_sum (a :: idx) (v :: vals))
                   (fun k => (if (a =? Z.of_nat k)%Z then v else 0) + sel_sum idx vals k))
    by reflexivity.
  rewrite sum_map_add, sum_indicator, IH. reflexivity.
Qed.

Lemma searchsorted1_mono (a : vec) (v v' : Qc) :
  v <= v' -> (Np.searchsorted1 a v <= Np.searchsorted1 a v')%nat.
Proof.
  intros H. induction a as [|x a IH]; simpl; [lia|].
  destruct (Qc_ltb x v) eqn:E; [|lia].
  apply Qc_ltb_lt in E.
  rewrite (proj2 (Qc_ltb_lt x v') (Qclt_le_trans _ _ _ E H)). lia.
Qed.

(** Onset and offset indices of the events, pairwise. *)
Lemma onset_le_offset (hr : vec) (evs : list event) :
  hr <> [] -> Forall (fun e => 0 <= duration e) evs ->
  Forall (fun p => (0 <= fst p <= snd p)%Z)
         (combine (t_onset hr evs) (t_offset hr evs)).
Proof.
  intros Hne F. unfold t_offset, t_onset, t_offset0, Np.minimum, Np.searchsorted, onsets.
  rewrite !map_map. set (tmax := Z.of_nat (length hr)).
  assert (Ht : (1 <= tmax)%Z) by (unfold tmax; destruct hr; [congruence|simpl; lia]).
  induction F as [|e evs He F IH]; simpl; [constructor|].
  constructor; [|exact IH]. simpl.
  assert (Hm : (Np.searchsorted1 hr (onset e)
                <= Np.searchsorted1 hr (onset e + duration e))%nat).
  { apply searchsorted1_mono.
    rewrite <- (Qcplus_0_r (onset e)) at 1.
    apply Qcplus_le_compat; [apply Qcle_refl | exact He]. }
  destruct ((_ <? tmax - 1) && _)%Z; lia.
Qed.

Lemma firstn_seq_min (a s len : nat) : firstn a (seq s len) = seq s (Nat.min a len).
Proof.
  revert s len; induction a as [|a IH]; intros s [|len]; simpl; auto.
  f_equal. apply IH.
Qed.

Lemma active_term (a b J M : Z) (v : Qc) :
  (0 <= a <= b)%Z -> M = (J + 1)%Z ->
  (if ((0 <=? a) && (a <? M))%Z then v else 0)
  - (if ((0 <=? b) && (b <? M))%Z then v else 0)
  = (if ((a <=? J) && (J <? b))%Z then v else 0).
Proof.
  intros Hab ->.
  replace (0 <=? a)%Z with true by (symmetry; apply Z.leb_le; lia).
  replace (0 <=? b)%Z with true by (symmetry; apply Z.leb_le; lia).
  cbn [andb].
  destruct (a <? J + 1)%Z eqn:E1; destruct (b <? J + 1)%Z eqn:E2;
    destruct (a <=? J)%Z eqn:E3; destruct (J <? b)%Z eqn:E4;
    cbn [andb]; try ring; exfalso;
    repeat match goal with
           | H : (_ <? _)%Z = true |- _ => apply Z.ltb_lt in H
           | H : (_ <? _)%Z = false |- _ => apply Z.ltb_ge in H
           | H : (_ <=? _)%Z = true |- _ => apply Z.leb_le in H
           | H : (_ <=? _)%Z = false |- _ => apply Z.leb_gt in H
           end; lia.
Qed.

Lemma regressor_spec_active_sum (hr : vec) (evs : list event) (j : nat) :
  hr <> [] -> Forall (fun e => 0 <= duration e) evs -> (j < length hr)%nat ->
  nth j (regressor_spec hr evs) 0 = active_sum hr evs j.
Proof.
  intros Hne F Hj. unfold regressor_spec, Np.cumsum.
  assert (Ld : length (delta_spec hr evs) = length hr)
    by (unfold delta_spec; now rewrite length_map, length_seq).
  rewrite nth_cumsum_from by (now rewrite Ld).
  unfold delta_spec. rewrite firstn_map, firstn_seq_min.
  replace (Nat.min (S j) (length hr)) with (S j) by lia.
  assert (Hm : Z.of_nat (S j) = (Z.of_nat j + 1)%Z) by lia.
  revert Hm. generalize (S j) as m. intros m Hm.
  rewrite sum_map_sub, !sum_sel_sum.
  pose proof (onset_le_offset hr evs Hne F) as Hle.
  unfold active_sum, amplitude_sum, values, Np.sum.
  assert (L1 : length (t_onset hr evs) = length evs) by apply t_onset_length.
  assert (L2 : length (t_offset hr evs) = length evs) by apply t_offset_length.
  revert Hle L1 L2.
  generalize (t_onset hr evs) as A. generalize (t_offset hr evs) as B.
  clear F Ld. induction evs as [|e evs IH]; intros B A Hle L1 L2.
  - destruct A; [|discriminate]. destruct B; [|discriminate]. simpl. ring.
  - destruct A as [|a A]; [discriminate|]. destruct B as [|b B]; [discriminate|].
    simpl in L1, L2. inversion Hle as [|? ? Hab Hrest]; subst. simpl in Hab.
    specialize (IH B A Hrest ltac:(lia) ltac:(lia)).
    cbn [combine map fold_right fst snd].
    rewrite <- IH.
    rewrite <- (active_term a b (Z.of_nat j) (Z.of_nat m) (value e) Hab Hm).
    ring.
Qed.

(** C3 (evaluation at a failing input).  Two events with onset 0,
    durations 1 and 2 and amplitude 1, on the frame times [0, 1] with
    oversampling 1 and [min_onset = 0]: the grid is [0, 1, 2], both onset
    indices are 0, and [regressor[t_onset] += values] writes the onset
    sample once (the gathered value 0 plus 1, twice), so the sampler returns
    [1, 0, -1]; the prefix sum of the accumulated deltas, which is the sum of
    the amplitudes of the active events, is [2, 1, 0]. *)
Theorem repeated_onset_index_drops_amplitude :
  let evs := [mk_event (qz 0) (qz 1) (qz 1); mk_event (qz 0) (qz 2) (qz 1)] in
  let frame_times := [qz 0; qz 1] in
  exists r hr,
    _sample_condition evs frame_times 1 (qz 0) = Ok (r, hr) /\
    hr = [qz 0; qz 1; qz 2] /\
    t_onset hr evs = [0; 0]%Z /\ t_offset hr evs = [1; 2]%Z /\
    r = [qz 1; qz 0; qz (-1)] /\
    regressor_spec hr evs = [qz 2; qz 1; qz 0] /\
    map (active_sum hr evs) (seq 0 (length hr)) = [qz 2; qz 1; qz 0] /\
    r <> regressor_spec hr evs.
Proof.
  intros evs frame_times. eexists. eexists.
  split; [vm_compute; reflexivity|].
  split; [apply vec_eqb_eq; vm_compute; reflexivity|].
  split; [vm_compute; reflexivity|].
  split; [vm_compute; reflexivity|].
  split; [apply vec_eqb_eq; vm_compute; reflexivity|].
  split; [apply vec_eqb_eq; vm_compute; reflexivity|].
  split; [apply vec_eqb_eq; vm_compute; reflexivity|].
  intros E. apply (f_equal (fun l => Qc_eq_bool (hd 0 l) (qz 1))) in E.
  vm_compute in E. discriminate.
Qed.

(** ** The error monad *)

Lemma bind_ok {A B : Type} (m : result A) (f : A -> result B) (b : B) :
  bind m f = Ok b -> exists a, m = Ok a /\ f a = Ok b.
Proof.
  destruct m as [a|e]; simpl; [|discriminate]. intros H. now exists a.
Qed.

Tactic Notation "bind_inv" hyp(H) "as" ident(x) ident(Hx) :=
  apply bind_ok in H as [x [Hx H]].

Lemma mapM_length {A B : Type} (f : A -> result B) (l : list A) (l' : list B) :
  mapM f l = Ok l' -> length l' = length l.
Proof.
  revert l'; induction l as [|a l IH]; intros l' H; simpl in H.
  - injection H as <-. reflexivity.
  - bind_inv H as b Hb. bind_inv H as bs Hbs.
    injection H as <-. simpl. f_equal. now apply IH.
Qed.


(** ** C10 and C8: identifiers outside the six supported models *)

Lemma unknown_model_eqb (m : string) :
  ~ In m hrf_models ->
  String.eqb m "spm" = false /\ String.eqb m "spm_time" = false /\
  String.eqb m "spm_time_dispersion" = false /\ String.eqb m "canonical" = false /\
  String.eqb m "canonical with derivative" = false /\ String.eqb m "fir" = false.
Proof.
  intros H. unfold hrf_models in H.
  repeat split; apply String.eqb_neq; intros ->; apply H; simpl; tauto.
Qed.

Lemma hrf_kernel_unknown (gamma_pdf : Qc -> Qc -> Qc -> Qc) (m : string) (tr : Qc)
    (oversampling : Z) (fir_delays : option (list Z)) :
  ~ In m hrf_models ->
  _hrf_kernel gamma_pdf m tr oversampling fir_delays = Err (ValueError "Unknown hrf model").
Proof.
  intros H. destruct (unknown_model_eqb m H) as [H1 [H2 [H3 [H4 [H5 H6]]]]].
  unfold _hrf_kernel. now rewrite H1, H2, H3, H4, H5, H6.
Qed.

(** C10.  Called on its own with an identifier outside the six supported
    models, [_regressor_names] raises nothing: it falls off the end of its
    [if]/[elif] chain and returns [None] (no name list), whereas the kernel
    selector raises [ValueError('Unknown hrf model')] for the same
    identifier. *)
Theorem regressor_names_none_for_unknown_model
    (gamma_pdf : Qc -> Qc -> Qc -> Qc) (m con_name : string)
    (fir_delays : option (list Z)) (tr : Qc) (oversampling : Z) :
  ~ In m hrf_models ->
  _regressor_names con_name m fir_delays = Ok None /\
  _hrf_kernel gamma_pdf m tr oversampling fir_delays
    = Err (ValueError "Unknown hrf model").
Proof.
  intros H. split; [|now apply hrf_kernel_unknown].
  destruct (unknown_model_eqb m H) as [H1 [H2 [H3 [H4 [H5 H6]]]]].
  unfold _regressor_names. now rewrite H1, H2, H3, H4, H5, H6.
Qed.

Lemma regressor_names_none_for_unknown_model_witness :
  _regressor_names "cond" "glover" (Some [0; 1]%Z) = Ok None /\
  _hrf_kernel (fun _ _ _ => 0) "glover" (qz 2) 16 (Some [0; 1]%Z)
    = Err (ValueError "Unknown hrf model").
Proof.
  apply (regressor_names_none_for_unknown_model (fun _ _ _ => 0) "glover" "cond").
  unfold hrf_models. simpl. intros H.
  repeat (destruct H as [H|H]; [discriminate|]). exact H.
Defined.

Lemma tr_defined (frame_times : vec) :
  (2 <= length frame_times)%nat ->
  exists fmax, Np.max frame_times = Ok fmax /\
    py_div fmax (Z2Qc (Z.of_nat (length frame_times) - 1))
      = Ok (fmax / Z2Qc (Z.of_nat (length frame_times) - 1)).
Proof.
  intros H. destruct frame_times as [|x l]; [simpl in H; lia|].
  eexists. split; [reflexivity|]. unfold py_div.
  destruct (Qc_eq_dec _ 0) as [E|E]; [|reflexivity].
  exfalso. revert E. apply Z2Qc_neq0. simpl length in *. lia.
Qed.

(** C8 (amended).  For every identifier outside the six supported models,
    [compute_regressor] never returns a (matrix, names) pair, whatever the
    other arguments are: the kernel selector raises
    [ValueError('Unknown hrf model')] on every call, and that is the error
    the caller receives whenever the two steps that precede kernel selection
    (the repetition interval, the event sampler) have succeeded. *)
Theorem unknown_model_rejected
    (gamma_pdf : Qc -> Qc -> Qc -> Qc) (pinv : matrix -> matrix)
    (exp_condition : list event) (m : string) (frame_times : vec) (con_id : string)
    (oversampling : Z) (fir_delays : option (list Z)) (min_onset : Qc) :
  ~ In m hrf_models ->
  (forall tr os ds, _hrf_kernel gamma_pdf m tr os ds = Err (ValueError "Unknown hrf model")) /\
  (exists e, compute_regressor gamma_pdf pinv exp_condition m frame_times con_id
               oversampling fir_delays min_onset = Err e) /\
  (forall r, (2 <= length frame_times)%nat ->
     _sample_condition exp_condition frame_times oversampling min_onset = Ok r ->
     compute_regressor gamma_pdf pinv exp_condition m frame_times con_id
       oversampling fir_delays min_onset = Err (ValueError "Unknown hrf model")).
Proof.
  intros H. split; [|split].
  - intros tr os ds. now apply hrf_kernel_unknown.
  - unfold compute_regressor.
    destruct (Np.max frame_times) as [fmax|e]; simpl; [|now exists e].
    destruct (py_div fmax _) as [tr|e]; simpl; [|now exists e].
    destruct (_sample_condition _ _ _ _) as [[r hr]|e]; simpl; [|now exists e].
    rewrite hrf_kernel_unknown by exact H. simpl. eexists; reflexivity.
  - intros r Hlen Hs. unfold compute_regressor.
    destruct (tr_defined frame_times Hlen) as [fmax [Hmax Htr]].
    rewrite Hmax. simpl bind. rewrite Htr. simpl bind. rewrite Hs.
    destruct r as [hr_reg hr]. simpl bind.
    rewrite hrf_kernel_unknown by exact H. reflexivity.
Qed.

Lemma unknown_model_rejected_witness :
  compute_regressor (fun _ _ _ => 0) (fun A => A)
    [mk_event (qz 0) (qz 1) (qz 1)] "glover" [qz 0; qz 1; qz 2] "cond" 2 None (qz (-1))
  = Err (ValueError "Unknown hrf model").
Proof.
  assert (Hm : ~ In "glover"%string hrf_models).
  { unfold hrf_models. simpl. intros H.
    repeat (destruct H as [H|H]; [discriminate|]). exact H. }
  destruct (unknown_model_rejected (fun _ _ _ => 0) (fun A => A)
              [mk_event (qz 0) (qz 1) (qz 1)] "glover" [qz 0; qz 1; qz 2] "cond" 2
              None (qz (-1)) Hm) as [_ [_ Hc]].
  destruct (_sample_condition [mk_event (qz 0) (qz 1) (qz 1)] [qz 0; qz 1; qz 2] 2 (qz (-1)))
    as [r|e] eqn:Hs.
  - apply (Hc r); [simpl; lia | reflexivity].
  - vm_compute in Hs. discriminate.
Defined.

(** ** C5: as many names as columns *)

Lemma isub_col_shape (X : matrix) (i : nat) (w : vec) (X' : matrix) (k : nat) :
  Np.isub_col X i w = Ok X' ->
  length X' = length X /\
  (Forall (fun r => length r = k) X -> Forall (fun r => length r = k) X').
Proof.
  unfold Np.isub_col, Np.shape0.
  destruct (length w =? length X)%nat eqn:E1.
  - apply Nat.eqb_eq in E1. intros H. injection H as <-. unfold Np.sub_col. split.
    + rewrite length_map, length_combine. lia.
    + intros F. apply Forall_forall. intros r Hr.
      apply in_map_iff in Hr as [[r0 x] [<- Hin]]. simpl.
      rewrite upd_length. apply in_combine_l in Hin.
      exact (proj1 (Forall_forall _ _) F _ Hin).
  - destruct (length w =? 1)%nat; [|discriminate].
    intros H. injection H as <-. split.
    + now rewrite length_map.
    + intros F. apply Forall_forall. intros r Hr.
      apply in_map_iff in Hr as [r0 [<- Hin]].
      rewrite upd_length. exact (proj1 (Forall_forall _ _) F _ Hin).
Qed.

Lemma orth_step_shape (pinv : matrix -> matrix) (i : nat) (X X' : matrix) (k : nat) :
  orth_step pinv i X = Ok X' ->
  length X' = length X /\
  (Forall (fun r => length r = k) X -> Forall (fun r => length r = k) X').
Proof.
  unfold orth_step. intros H. bind_inv H as P HP. bind_inv H as w Hw.
  now apply isub_col_shape with (i := i) (w := w).
Qed.

Lemma orth_loop_shape (pinv : matrix -> matrix) (range : list nat) (X X' : matrix)
    (k : nat) :
  orth_loop pinv range X = Ok X' ->
  length X' = length X /\
  (Forall (fun r => length r = k) X -> Forall (fun r => length r = k) X').
Proof.
  revert X; induction range as [|i range IH]; intros X H; simpl in H.
  - injection H as <-. tauto.
  - bind_inv H as Y HY. destruct (orth_step_shape pinv i X Y k HY) as [L1 F1].
    destruct (IH Y H) as [L2 F2]. split; [congruence|auto].
Qed.

Lemma orthogonalize_shape (pinv : matrix -> matrix) (X X' : matrix) (k : nat) :
  _orthogonalize pinv X = Ok X' ->
  length X' = length X /\
  (Forall (fun r => length r = k) X -> Forall (fun r => length r = k) X').
Proof.
  unfold _orthogonalize. destruct (Np.size X =? Np.shape0 X)%nat.
  - intros H. injection H as <-. tauto.
  - apply orth_loop_shape.
Qed.

Lemma transpose_shape (n : nat) (M : matrix) :
  length (Np.transpose n M) = n /\
  Forall (fun r => length r = length M) (Np.transpose n M).
Proof.
  unfold Np.transpose. split.
  - now rewrite length_map, length_seq.
  - apply Forall_forall. intros r Hr. apply in_map_iff in Hr as [j [<- _]].
    unfold Np.col. now rewrite length_map.
Qed.

Lemma hrf_kernel_count (gamma_pdf : Qc -> Qc -> Qc -> Qc) (m : string) (tr : Qc)
    (oversampling : Z) (fir_delays : option (list Z)) (ks : list vec) :
  _hrf_kernel gamma_pdf m tr oversampling fir_delays = Ok ks ->
  In m hrf_models /\ length ks = expected_columns m fir_delays.
Proof.
  unfold _hrf_kernel, expected_columns, hrf_models.
  destruct (String.eqb m "spm") eqn:E1.
  { apply String.eqb_eq in E1; subst m. intros H. bind_inv H as h Hh. injection H as <-.
    simpl; tauto. }
  destruct (String.eqb m "spm_time") eqn:E2.
  { apply String.eqb_eq in E2; subst m. intros H. bind_inv H as h Hh.
    bind_inv H as d Hd. injection H as <-. simpl; tauto. }
  destruct (String.eqb m "spm_time_dispersion") eqn:E3.
  { apply String.eqb_eq in E3; subst m. intros H. bind_inv H as h Hh.
    bind_inv H as d Hd. bind_inv H as s Hs. injection H as <-. simpl; tauto. }
  destruct (String.eqb m "canonical") eqn:E4.
  { apply String.eqb_eq in E4; subst m. intros H. bind_inv H as h Hh. injection H as <-.
    simpl; tauto. }
  destruct (String.eqb m "canonical with derivative") eqn:E5.
  { apply String.eqb_eq in E5; subst m. intros H. bind_inv H as h Hh.
    bind_inv H as d Hd. injection H as <-. simpl; tauto. }
  destruct (String.eqb m "fir") eqn:E6; [|discriminate].
  apply String.eqb_eq in E6; subst m.
  destruct fir_delays as [ds|]; [|discriminate].
  intros H. apply mapM_length in H. simpl; tauto.
Qed.


Lemma interp1d_init_rows (x : vec) (y : matrix) (xs : vec) (ys : matrix) :
  Scipy.interp1d_init x y = Ok (xs, ys) ->
  length ys = length y /\ (2 <= length x)%nat /\ xs = Scipy.take (Scipy.argsort x) x.
Proof.
  unfold Scipy.interp1d_init. intros H.
  assert (G : (if negb (length x =? match y with [] => 0 | r :: _ => length r end)%nat
               then Err (ValueError "x and y arrays must be equal in length along interpolation axis.")
               else if (length x <? 2)%nat
                    then Err (ValueError "x and y arrays must have at least 2 entries")
                    else Ok (Scipy.take (Scipy.argsort x) x,
                             map (Scipy.take (Scipy.argsort x)) y)) = Ok (xs, ys)).
  { destruct y as [|r y]; destruct (Scipy.argsort x); try exact H; discriminate. }
  clear H. destruct (negb _); [discriminate|].
  destruct (length x <? 2)%nat eqn:E; [discriminate|].
  apply Nat.ltb_ge in E. injection G as <- <-.
  split; [now rewrite length_map|]. split; [exact E|reflexivity].
Qed.


(** ** Vectors and matrices *)

Lemma mat_eqb_eq (A B : matrix) : mat_eqb A B = true -> A = B.
Proof.
  revert B; induction A as [|r A IH]; intros [|s B]; simpl; try discriminate; auto.
  intros H. apply andb_true_iff in H as [Hr HA].
  apply vec_eqb_eq in Hr. f_equal; auto.
Qed.

Lemma vadd_length (u v : vec) :
  length (Np.vadd u v) = Nat.min (length u) (length v).
Proof. unfold Np.vadd. now rewrite length_map, length_combine. Qed.

Lemma vsub_length (u v : vec) :
  length (Np.vsub u v) = Nat.min (length u) (length v).
Proof. unfold Np.vsub. now rewrite length_map, length_combine. Qed.

Lemma scale_length (a : Qc) (v : vec) : length (Np.scale a v) = length v.
Proof. unfold Np.scale. now rewrite length_map. Qed.

Lemma nth_vadd (u v : vec) (j : nat) :
  length u = length v -> nth j (Np.vadd u v) 0 = nth j u 0 + nth j v 0.
Proof.
  revert v j; induction u as [|a u IH]; intros [|b v] j Hl; simpl in Hl;
    try discriminate.
  - destruct j; simpl; ring.
  - destruct j as [|j]; [reflexivity|]. apply (IH v j). lia.
Qed.

Lemma nth_vsub (u v : vec) (j : nat) :
  length u = length v -> nth j (Np.vsub u v) 0 = nth j u 0 - nth j v 0.
Proof.
  revert v j; induction u as [|a u IH]; intros [|b v] j Hl; simpl in Hl;
    try discriminate.
  - destruct j; simpl; ring.
  - destruct j as [|j]; [reflexivity|]. apply (IH v j). lia.
Qed.

Lemma nth_scale (a : Qc) (v : vec) (j : nat) :
  nth j (Np.scale a v) 0 = a * nth j v 0.
Proof.
  revert j; induction v as [|b v IH]; intros [|j]; simpl; try ring; auto.
Qed.

Lemma lincomb_length (m : nat) (v : vec) (M : matrix) :
  Forall (fun r => length r = m) M -> length (Np.lincomb m v M) = m.
Proof.
  intros F. revert v. induction F as [|r M Hr _ IH]; intros [|a v]; simpl;
    try apply zeros_length.
  rewrite vadd_length, scale_length, Hr, IH. apply Nat.min_id.
Qed.

Lemma col_cons (j : nat) (r : vec) (M : matrix) :
  Np.col j (r :: M) = nth j r 0 :: Np.col j M.
Proof. reflexivity. Qed.

(** Entry [j] of [v^T M] is the dot product of [v] with column [j] of [M]. *)
Lemma nth_lincomb (m : nat) (v : vec) (M : matrix) (j : nat) :
  Forall (fun r => length r = m) M ->
  nth j (Np.lincomb m v M) 0 = dotv v (Np.col j M).
Proof.
  intros F. revert v. induction F as [|r M Hr F IH]; intros [|a v];
    try (now (change (nth j (Np.zeros m) 0 = 0); apply nth_zeros)).
  change (Np.lincomb m (a :: v) (r :: M))
    with (Np.vadd (Np.scale a r) (Np.lincomb m v M)).
  rewrite nth_vadd by (now rewrite scale_length, lincomb_length).
  rewrite nth_scale, IH, col_cons. reflexivity.
Qed.

Lemma dotv_nil_r (u : vec) : dotv u [] = 0.
Proof. destruct u; reflexivity. Qed.

Lemma dotv_comm (u v : vec) : dotv u v = dotv v u.
Proof.
  revert v; induction u as [|a u IH]; intros [|b v]; simpl; auto.
  rewrite IH. ring.
Qed.

Lemma dotv_zeros (k : nat) (c : vec) : dotv (Np.zeros k) c = 0.
Proof.
  revert c; induction k as [|k IH]; intros [|b c]; simpl; auto.
  change (repeat 0 k) with (Np.zeros k). rewrite IH. ring.
Qed.

Lemma dotv_vadd (u w c : vec) :
  length u = length w -> dotv (Np.vadd u w) c = dotv u c + dotv w c.
Proof.
  revert w c; induction u as [|a u IH]; intros [|b w] c Hl; simpl in Hl;
    try discriminate.
  - simpl. ring.
  - destruct c as [|x c]; [simpl; ring|].
    change (Np.vadd (a :: u) (b :: w)) with ((a + b) :: Np.vadd u w).
    simpl dotv. rewrite IH by lia. ring.
Qed.

Lemma dotv_vsub (u w c : vec) :
  length u = length w -> dotv (Np.vsub u w) c = dotv u c - dotv w c.
Proof.
  revert w c; induction u as [|a u IH]; intros [|b w] c Hl; simpl in Hl;
    try discriminate.
  - simpl. ring.
  - destruct c as [|x c]; [simpl; ring|].
    change (Np.vsub (a :: u) (b :: w)) with ((a - b) :: Np.vsub u w).
    simpl dotv. rewrite IH by lia. ring.
Qed.

Lemma dotv_scale (a : Qc) (u c : vec) : dotv (Np.scale a u) c = a * dotv u c.
Proof.
  revert c; induction u as [|b u IH]; intros [|x c]; simpl; try ring.
  change (map (Qcmult a) u) with (Np.scale a u). rewrite IH. ring.
Qed.

(** [(v^T A) . c = v . (A c)] *)
Lemma dotv_lincomb (m : nat) (v : vec) (A : matrix) (c : vec) :
  Forall (fun r => length r = m) A ->
  dotv (Np.lincomb m v A) c = dotv v (matvec A c).
Proof.
  intros F. revert v. induction F as [|r A Hr F IH]; intros [|a v].
  - change (Np.lincomb m [] []) with (Np.zeros m). now rewrite dotv_zeros.
  - change (Np.lincomb m (a :: v) []) with (Np.zeros m). now rewrite dotv_zeros.
  - change (Np.lincomb m [] (r :: A)) with (Np.zeros m). now rewrite dotv_zeros.
  - change (Np.lincomb m (a :: v) (r :: A))
      with (Np.vadd (Np.scale a r) (Np.lincomb m v A)).
    rewrite dotv_vadd by (now rewrite scale_length, lincomb_length).
    rewrite dotv_scale, IH. reflexivity.
Qed.

Lemma matmul_rows (A B : matrix) :
  Forall (fun r => length r = Np.shape1 B) B ->
  Forall (fun r => length r = Np.shape1 B) (matmul A B).
Proof.
  intros F. unfold matmul. apply Forall_forall. intros r Hr.
  apply in_map_iff in Hr as [r0 [<- _]]. now apply lincomb_length.
Qed.

Lemma col_matmul (A B : matrix) (j : nat) :
  Forall (fun r => length r = Np.shape1 B) B ->
  Np.col j (matmul A B) = matvec A (Np.col j B).
Proof.
  intros F. unfold matmul, Np.col, matvec. rewrite map_map.
  apply map_ext. intros r. now apply nth_lincomb.
Qed.

(** [(v^T A) B = v^T (A B)] *)
Lemma lincomb_assoc (m1 : nat) (v : vec) (A B : matrix) :
  Forall (fun r => length r = m1) A ->
  Forall (fun r => length r = Np.shape1 B) B ->
  Np.lincomb (Np.shape1 B) (Np.lincomb m1 v A) B
  = Np.lincomb (Np.shape1 B) v (matmul A B).
Proof.
  intros FA FB. apply vec_ext.
  - rewrite !lincomb_length; auto. now apply matmul_rows.
  - intros j. rewrite !nth_lincomb; auto; [|now apply matmul_rows].
    rewrite col_matmul by exact FB. now apply dotv_lincomb.
Qed.

Lemma lincomb_zeros (m k : nat) (M : matrix) :
  Forall (fun r => length r = m) M -> Np.lincomb m (Np.zeros k) M = Np.zeros m.
Proof.
  intros F. apply vec_ext.
  - now rewrite lincomb_length, zeros_length.
  - intros j. rewrite nth_lincomb by exact F. now rewrite dotv_zeros, nth_zeros.
Qed.

Lemma lincomb_vsub (m : nat) (u w : vec) (M : matrix) :
  Forall (fun r => length r = m) M -> length u = length w ->
  Np.lincomb m (Np.vsub u w) M = Np.vsub (Np.lincomb m u M) (Np.lincomb m w M).
Proof.
  intros F Hl. apply vec_ext.
  - rewrite vsub_length, !lincomb_length by exact F. now rewrite Nat.min_id.
  - intros j. rewrite nth_vsub by (now rewrite !lincomb_length).
    rewrite !nth_lincomb by exact F. now apply dotv_vsub.
Qed.

Lemma vsub_self (u : vec) : Np.vsub u u = Np.zeros (length u).
Proof.
  apply vec_ext.
  - now rewrite vsub_length, zeros_length, Nat.min_id.
  - intros j. rewrite nth_vsub by reflexivity. rewrite nth_zeros. ring.
Qed.

(** ** One pass of the orthogonalisation loop *)

Lemma firstn_upd (r : vec) (i j : nat) (v : Qc) :
  (j <= i)%nat -> firstn j (Np.upd r i v) = firstn j r.
Proof.
  revert i j; induction r as [|y r IH]; intros [|i] [|j] H; simpl; auto; try lia.
  f_equal. apply IH. lia.
Qed.

Lemma upd_same (r : vec) (i : nat) : Np.upd r i (nth i r 0) = r.
Proof.
  revert i; induction r as [|y r IH]; intros [|i]; simpl; auto.
  f_equal. apply IH.
Qed.

Lemma nth_upd_other (r : vec) (i j : nat) (v : Qc) :
  j <> i -> nth j (Np.upd r i v) 0 = nth j r 0.
Proof.
  revert i j; induction r as [|y r IH]; intros [|i] [|j] H; simpl; auto; try lia.
Qed.

Lemma sub_col_cons (r : vec) (X : matrix) (i : nat) (a : Qc) (w : vec) :
  Np.sub_col (r :: X) i (a :: w) = Np.upd r i (nth i r 0 - a) :: Np.sub_col X i w.
Proof. reflexivity. Qed.

Lemma sub_col_rect (n p : nat) (X : matrix) (i : nat) (w : vec) :
  rect n p X -> length w = n -> rect n p (Np.sub_col X i w).
Proof.
  intros [Hn F] Hw. subst n. revert w Hw.
  induction F as [|r X Hr F IH]; intros [|a w] Hw; simpl in Hw; try discriminate.
  - split; [reflexivity|constructor].
  - rewrite sub_col_cons. destruct (IH w) as [L F']; [lia|]. split.
    + simpl. now rewrite L.
    + constructor; [now rewrite upd_length | exact F'].
Qed.

Lemma col_sub_col_other (X : matrix) (i j : nat) (w : vec) :
  j <> i -> length w = length X -> Np.col j (Np.sub_col X i w) = Np.col j X.
Proof.
  intros Hj. revert w; induction X as [|r X IH]; intros [|a w] Hw; simpl in Hw;
    try discriminate; auto.
  rewrite sub_col_cons, !col_cons. rewrite nth_upd_other by exact Hj.
  f_equal. apply IH. lia.
Qed.

Lemma col_sub_col_same (p : nat) (X : matrix) (i : nat) (w : vec) :
  Forall (fun r => length r = p) X -> (i < p)%nat -> length w = length X ->
  Np.col i (Np.sub_col X i w) = Np.vsub (Np.col i X) w.
Proof.
  intros F Hi. revert w; induction F as [|r X Hr F IH]; intros [|a w] Hw;
    simpl in Hw; try discriminate; auto.
  rewrite sub_col_cons, !col_cons.
  change (Np.vsub (nth i r 0 :: Np.col i X) (a :: w))
    with ((nth i r 0 - a) :: Np.vsub (Np.col i X) w).
  rewrite nth_upd by lia. rewrite Nat.eqb_refl. f_equal. apply IH. lia.
Qed.

Lemma cols_before_sub_col (X : matrix) (i j : nat) (w : vec) :
  (j <= i)%nat -> length w = length X ->
  Np.cols_before j (Np.sub_col X i w) = Np.cols_before j X.
Proof.
  intros Hj. revert w; induction X as [|r X IH]; intros [|a w] Hw; simpl in Hw;
    try discriminate; auto.
  rewrite sub_col_cons. unfold Np.cols_before in *. simpl map.
  rewrite firstn_upd by exact Hj. f_equal. apply IH. lia.
Qed.

Lemma sub_col_zeros (X : matrix) (i : nat) :
  Np.sub_col X i (Np.zeros (length X)) = X.
Proof.
  induction X as [|r X IH]; [reflexivity|].
  change (Np.zeros (length (r :: X))) with (0 :: Np.zeros (length X)).
  rewrite sub_col_cons, IH. f_equal.
  replace (nth i r 0 - 0) with (nth i r 0) by ring. apply upd_same.
Qed.

Lemma cols_before_rect (n p : nat) (X : matrix) (i : nat) :
  rect n p X -> (i <= p)%nat -> rect n i (Np.cols_before i X).
Proof.
  intros [Hn F] Hi. unfold Np.cols_before. split.
  - now rewrite length_map.
  - apply Forall_forall. intros r Hr. apply in_map_iff in Hr as [r0 [<- Hin]].
    rewrite length_firstn. rewrite (proj1 (Forall_forall _ _) F _ Hin). lia.
Qed.

Lemma rect_shape1 (n p : nat) (X : matrix) :
  rect n p X -> (1 <= n)%nat -> Np.shape1 X = p.
Proof.
  intros [Hn F] H1. unfold Np.shape1. destruct X as [|r X]; [simpl in Hn; lia|].
  simpl. now inversion F.
Qed.

Lemma col_length (j : nat) (X : matrix) : length (Np.col j X) = length X.
Proof. unfold Np.col. now rewrite length_map. Qed.

Section OrthStep.

Variable pinv : matrix -> matrix.
Variables n p : nat.
Variable X : matrix.
Variable i : nat.
Hypothesis HX : rect n p X.
Hypothesis Hn : (1 <= n)%nat.
Hypothesis Hi1 : (1 <= i)%nat.
Hypothesis Hip : (i < p)%nat.

Let A := Np.cols_before i X.
Let x := Np.col i X.

Hypothesis HP : pinv_shape A (pinv A).

Lemma step_A_rect : rect n i A.
Proof. apply cols_before_rect with (p := p); [exact HX | lia]. Qed.

Lemma step_A_shape1 : Np.shape1 A = i.
Proof. apply rect_shape1 with (n := n); [apply step_A_rect | exact Hn]. Qed.

Lemma step_P_rect : rect i n (pinv A).
Proof.
  unfold pinv_shape in HP. rewrite step_A_shape1 in HP.
  unfold Np.shape0 in HP. now rewrite (proj1 step_A_rect) in HP.
Qed.

Lemma step_P_shape1 : Np.shape1 (pinv A) = n.
Proof. apply rect_shape1 with (n := i); [apply step_P_rect | exact Hi1]. Qed.

Lemma step_AP_rect : rect n n (matmul A (pinv A)).
Proof.
  split.
  - unfold matmul. rewrite length_map. apply step_A_rect.
  - pose proof (matmul_rows A (pinv A)) as F.
    rewrite step_P_shape1 in F. apply F. apply step_P_rect.
Qed.

Lemma orth_step_eval :
  orth_step pinv i X
  = Ok (Np.sub_col X i (Np.lincomb n x (matmul A (pinv A)))).
Proof.
  unfold orth_step. fold A. fold x. unfold Np.dot_mm.
  rewrite step_A_shape1. unfold Np.shape0 at 1.
  rewrite (proj1 step_P_rect), Nat.eqb_refl. simpl bind.
  change (map (fun r => Np.lincomb (Np.shape1 (pinv A)) r (pinv A)) A)
    with (matmul A (pinv A)).
  unfold Np.dot_vm. unfold Np.shape0.
  rewrite (proj1 step_AP_rect). unfold x at 1. rewrite col_length, (proj1 HX).
  rewrite Nat.eqb_refl. simpl bind.
  rewrite (rect_shape1 n n _ step_AP_rect Hn).
  unfold Np.isub_col. unfold Np.shape0.
  rewrite lincomb_length by apply step_AP_rect.
  rewrite (proj1 HX), Nat.eqb_refl. reflexivity.
Qed.

(** Under [A P A = A] the updated column is orthogonal to the columns
    before it. *)
Lemma orth_step_ortho :
  matmul (matmul A (pinv A)) A = A ->
  ortho (Np.sub_col X i (Np.lincomb n x (matmul A (pinv A)))) i.
Proof.
  intros H1. unfold ortho.
  set (w := Np.lincomb n x (matmul A (pinv A))).
  assert (Lw : length w = length X).
  { unfold w. rewrite lincomb_length by apply step_AP_rect. symmetry. apply HX. }
  rewrite cols_before_sub_col by (auto; lia).
  rewrite (col_sub_col_same p) by (auto; apply HX). fold A. fold x.
  rewrite lincomb_vsub; [|apply step_A_rect | unfold x; now rewrite col_length].
  assert (E : Np.lincomb i w A = Np.lincomb i x A).
  { assert (FA : Forall (fun r => length r = Np.shape1 A) A)
      by (rewrite step_A_shape1; apply step_A_rect).
    pose proof (lincomb_assoc n x (matmul A (pinv A)) A (proj2 step_AP_rect) FA) as E0.
    rewrite step_A_shape1, H1 in E0. exact E0. }
  rewrite E, vsub_self. now rewrite lincomb_length by apply step_A_rect.
Qed.

(** A column that is already orthogonal to the columns before it is left
    unchanged. *)
Lemma orth_step_noop : ortho X i -> orth_step pinv i X = Ok X.
Proof.
  intros Ho. rewrite orth_step_eval. f_equal.
  assert (E : Np.lincomb n x (matmul A (pinv A)) = Np.zeros n).
  { assert (FP : Forall (fun r => length r = Np.shape1 (pinv A)) (pinv A))
      by (rewrite step_P_shape1; apply step_P_rect).
    pose proof (lincomb_assoc i x A (pinv A) (proj2 step_A_rect) FP) as E0.
    rewrite step_P_shape1 in E0. rewrite <- E0.
    unfold ortho in Ho. fold A in Ho. fold x in Ho. rewrite Ho.
    apply lincomb_zeros. apply step_P_rect. }
  rewrite E. rewrite <- (proj1 HX). apply sub_col_zeros.
Qed.

End OrthStep.

(** ** C6: orthogonalising twice *)

Lemma settled_sub_col (pinv : matrix -> matrix) (X : matrix) (i j : nat) (w : vec) :
  (j < i)%nat -> length w = length X ->
  settled pinv X j -> settled pinv (Np.sub_col X i w) j.
Proof.
  intros Hj Hw [Ho Hs]. unfold settled, ortho in *.
  rewrite cols_before_sub_col by (auto; lia).
  rewrite col_sub_col_other by (auto; lia). now split.
Qed.

Lemma orth_loop_orthogonalizes (pinv : matrix -> matrix) (n p : nat) :
  (1 <= n)%nat ->
  forall (len a : nat) (X : matrix),
    (1 <= a)%nat -> (a + len <= p)%nat -> rect n p X ->
    Forall (fun A => penrose1 A (pinv A)) (pinv_calls pinv (seq a len) X) ->
    (forall j, (1 <= j < a)%nat -> settled pinv X j) ->
    exists Y, orth_loop pinv (seq a len) X = Ok Y /\ rect n p Y /\
              forall j, (1 <= j < a + len)%nat -> settled pinv Y j.
Proof.
  intros Hn. induction len as [|len IH]; intros a X Ha Hp HX Hcalls Hinv.
  - exists X. simpl. split; [reflexivity|]. split; [exact HX|].
    intros j Hj. apply Hinv. lia.
  - simpl seq in *. simpl pinv_calls in Hcalls.
    inversion Hcalls as [|A0 rest [Hshape H1] Hrest]; subst.
    assert (Hstep := orth_step_eval pinv n p X a HX Hn Ha ltac:(lia) Hshape).
    rewrite Hstep in Hrest. simpl orth_loop. rewrite Hstep. simpl bind.
    set (w := Np.lincomb n (Np.col a X)
                (matmul (Np.cols_before a X) (pinv (Np.cols_before a X)))) in *.
    assert (Lw : length w = n).
    { unfold w. apply lincomb_length.
      apply (step_AP_rect pinv n p X a HX Hn Ha ltac:(lia) Hshape). }
    assert (Lw' : length w = length X) by (rewrite Lw; symmetry; apply HX).
    destruct (IH (S a) (Np.sub_col X a w)) as [Y [HY [RY SY]]].
    + lia.
    + lia.
    + now apply sub_col_rect.
    + exact Hrest.
    + intros j Hj. destruct (Nat.eq_dec j a) as [->|Hne].
      * split.
        -- apply (orth_step_ortho pinv n p X a HX Hn Ha ltac:(lia) Hshape H1).
        -- rewrite cols_before_sub_col by (auto; lia). exact Hshape.
      * apply settled_sub_col; [lia | exact Lw' | apply Hinv; lia].
    + exists Y. split; [exact HY|]. split; [exact RY|].
      intros j Hj. apply SY. lia.
Qed.

Lemma orth_loop_noop (pinv : matrix -> matrix) (n p : nat) (Y : matrix)
    (range : list nat) :
  rect n p Y -> (1 <= n)%nat ->
  (forall i, In i range -> (1 <= i < p)%nat /\ settled pinv Y i) ->
  orth_loop pinv range Y = Ok Y.
Proof.
  intros HY Hn. induction range as [|i range IH]; intros H; [reflexivity|].
  destruct (H i (or_introl eq_refl)) as [[Hi1 Hip] [Ho Hs]].
  simpl. rewrite (orth_step_noop pinv n p Y i HY Hn Hi1 Hip Hs Ho). simpl.
  apply IH. intros j Hj. apply H. now right.
Qed.

Lemma early_return_iff (n p : nat) (X : matrix) :
  rect n p X -> (1 <= n)%nat ->
  (Np.size X =? Np.shape0 X)%nat = (p =? 1)%nat.
Proof.
  intros HX Hn. unfold Np.size. rewrite (rect_shape1 n p X HX Hn).
  unfold Np.shape0. rewrite (proj1 HX).
  destruct (p =? 1)%nat eqn:E.
  - apply Nat.eqb_eq in E. subst p. apply Nat.eqb_eq. lia.
  - apply Nat.eqb_neq in E. apply Nat.eqb_neq. nia.
Qed.

(** C6.  [_orthogonalize] is idempotent in exact arithmetic: for every
    2-D array [X], if each array [A] handed to [pinv] during the run comes
    back with the transposed shape and with [A pinv(A) A = A], then the
    run returns some [Y], and running [_orthogonalize] again on [Y]
    returns [Y] itself, entry for entry. *)
Theorem orthogonalize_idempotent (pinv : matrix -> matrix) (X : matrix) :
  rectangular X ->
  Forall (fun A => penrose1 A (pinv A))
         (pinv_calls pinv (seq 1 (Np.shape1 X - 1)) X) ->
  exists Y, _orthogonalize pinv X = Ok Y /\ _orthogonalize pinv Y = Ok Y.
Proof.
  intros HX Hcalls. unfold rectangular in HX.
  set (n := Np.shape0 X) in *. set (p := Np.shape1 X) in *.
  destruct (Nat.eq_dec n 0) as [Hn0|Hn0].
  { exists X. assert (E : _orthogonalize pinv X = Ok X).
    { unfold _orthogonalize, Np.size. fold n. rewrite Hn0. reflexivity. }
    now split. }
  assert (Hn : (1 <= n)%nat) by lia.
  destruct (Nat.eq_dec p 1) as [Hp1|Hp1].
  { exists X. assert (E : _orthogonalize pinv X = Ok X).
    { unfold _orthogonalize. rewrite (early_return_iff n p X HX Hn).
      now rewrite (proj2 (Nat.eqb_eq p 1) Hp1). }
    now split. }
  destruct (Nat.eq_dec p 0) as [Hp0|Hp0].
  { exists X. assert (E : _orthogonalize pinv X = Ok X).
    { unfold _orthogonalize. fold p. rewrite Hp0.
      destruct (Np.size X =? Np.shape0 X)%nat; reflexivity. }
    now split. }
  destruct (orth_loop_orthogonalizes pinv n p Hn (p - 1) 1 X) as [Y [HY [RY SY]]].
  { lia. }
  { lia. }
  { exact HX. }
  { exact Hcalls. }
  { intros j Hj. lia. }
  exists Y. split.
  - unfold _orthogonalize. rewrite (early_return_iff n p X HX Hn).
    rewrite (proj2 (Nat.eqb_neq p 1) Hp1). exact HY.
  - unfold _orthogonalize. rewrite (early_return_iff n p Y RY Hn).
    rewrite (proj2 (Nat.eqb_neq p 1) Hp1).
    rewrite (rect_shape1 n p Y RY Hn).
    apply (orth_loop_noop pinv n p); auto.
    intros i Hi. apply in_seq in Hi. split; [lia|]. apply SY. lia.
Qed.

Lemma orthogonalize_idempotent_witness :
  let X := [[qz 1; qz 1]; [qz 1; qz 2]] in
  exists Y, _orthogonalize pinv_column X = Ok Y /\ _orthogonalize pinv_column Y = Ok Y.
Proof.
  intros X. apply (orthogonalize_idempotent pinv_column X).
  - split; [reflexivity|]. repeat constructor.
  - apply Forall_cons.
    + split.
      * split; [reflexivity|]. repeat constructor.
      * apply mat_eqb_eq. vm_compute. reflexivity.
    + destruct (orth_step pinv_column 1 X); constructor.
Defined.

(** ** C1: each pass removes the least-squares projection *)

Lemma nth_transpose (n : nat) (M : matrix) (k : nat) :
  (k < n)%nat -> nth k (Np.transpose n M) [] = Np.col k M.
Proof.
  intros H. unfold Np.transpose.
  rewrite nth_map_lt with (d' := 0%nat) by (now rewrite length_seq).
  now rewrite seq_nth.
Qed.

(** With [A P] symmetric, the row vector [x^T (A P)] computed by the source
    is the projection [A (P x)] of the specification. *)
Lemma row_times_projector (n i : nat) (A P : matrix) (x : vec) :
  rect n i A -> rect i n P -> (1 <= i)%nat -> length x = n ->
  Np.transpose (length A) (matmul A P) = matmul A P ->
  Np.lincomb n x (matmul A P) = matvec A (matvec P x).
Proof.
  intros [LA FA] [LP FP] Hi Lx Hsym.
  assert (S1 : Np.shape1 P = n) by (apply rect_shape1 with (n := i); [now split | exact Hi]).
  assert (FAP : Forall (fun r => length r = n) (matmul A P)).
  { pose proof (matmul_rows A P) as F. rewrite S1 in F. now apply F. }
  apply vec_ext_lt.
  - rewrite lincomb_length by exact FAP. unfold matvec. now rewrite length_map.
  - intros k Hk. rewrite lincomb_length in Hk by exact FAP.
    rewrite nth_lincomb by exact FAP.
    rewrite <- (nth_transpose (length A)) by lia. rewrite Hsym.
    unfold matmul.
    rewrite (nth_map_lt (fun r : vec => Np.lincomb (Np.shape1 P) r P) A k [] [])
      by lia.
    rewrite S1, dotv_comm, dotv_lincomb by exact FP.
    unfold matvec at 2.
    now rewrite (nth_map_lt (fun r : vec => dotv r (matvec P x)) A k 0 []) by lia.
Qed.

Lemma orth_step_lsq (pinv : matrix -> matrix) (n p : nat) (X : matrix) (i : nat) :
  rect n p X -> (1 <= n)%nat -> (1 <= i)%nat -> (i < p)%nat ->
  penrose3 (Np.cols_before i X) (pinv (Np.cols_before i X)) ->
  orth_step pinv i X = Ok (lsq_step pinv X i).
Proof.
  intros HX Hn Hi1 Hip [Hshape Hsym].
  rewrite (orth_step_eval pinv n p X i HX Hn Hi1 Hip Hshape).
  unfold lsq_step, lsq_projection, lstsq_fit. do 2 f_equal.
  apply row_times_projector with (i := i).
  - apply (step_A_rect n p X i HX Hn Hi1 Hip).
  - apply (step_P_rect pinv n p X i HX Hn Hi1 Hip Hshape).
  - exact Hi1.
  - rewrite col_length. apply HX.
  - exact Hsym.
Qed.

Lemma lsq_step_rect (pinv : matrix -> matrix) (n p : nat) (X : matrix) (i : nat) :
  rect n p X -> rect n p (lsq_step pinv X i).
Proof.
  intros HX. unfold lsq_step. apply sub_col_rect; [exact HX|].
  unfold lsq_projection, matvec. rewrite length_map.
  unfold Np.cols_before. rewrite length_map. apply HX.
Qed.

Lemma orth_loop_lsq (pinv : matrix -> matrix) (n p : nat) :
  (1 <= n)%nat ->
  forall (range : list nat) (X : matrix),
    (forall i, In i range -> (1 <= i < p)%nat) -> rect n p X ->
    Forall (fun A => penrose3 A (pinv A)) (pinv_calls pinv range X) ->
    orth_loop pinv range X = Ok (fold_left (lsq_step pinv) range X).
Proof.
  intros Hn. induction range as [|i range IH]; intros X Hr HX Hcalls; [reflexivity|].
  simpl pinv_calls in Hcalls. inversion Hcalls as [|A0 rest H3 Hrest]; subst.
  destruct (Hr i (or_introl eq_refl)) as [Hi1 Hip].
  assert (Hstep := orth_step_lsq pinv n p X i HX Hn Hi1 Hip H3).
  rewrite Hstep in Hrest. simpl. rewrite Hstep. simpl.
  apply IH.
  - intros j Hj. apply Hr. now right.
  - now apply lsq_step_rect.
  - exact Hrest.
Qed.

(** C1.  For every 2-D array with at least two columns, provided each
    array [A] handed to [pinv] comes back with the transposed shape and
    with [A pinv(A)] symmetric, [_orthogonalize] returns the array obtained
    by replacing, for i = 1, 2, ... in increasing order, column i by column
    i minus [A (pinv(A) x)], the least-squares projection of that column
    [x] onto the columns [A = X[:, :i]] as they stand at that point; nothing
    else is changed, so no column is rescaled.  A single-column array is
    returned unchanged. *)
Theorem orthogonalize_least_squares (pinv : matrix -> matrix) (X : matrix) :
  rectangular X ->
  Forall (fun A => penrose3 A (pinv A))
         (pinv_calls pinv (seq 1 (Np.shape1 X - 1)) X) ->
  ((2 <= Np.shape1 X)%nat ->
     _orthogonalize pinv X = Ok (orthogonalize_spec pinv X)) /\
  (Np.shape1 X = 1%nat -> _orthogonalize pinv X = Ok X).
Proof.
  intros HX Hcalls. unfold rectangular in HX.
  set (n := Np.shape0 X) in *. set (p := Np.shape1 X) in *.
  assert (Hn : (1 <= p)%nat -> (1 <= n)%nat).
  { unfold p, n, Np.shape1, Np.shape0. destruct X; simpl; lia. }
  split.
  - intros Hp. unfold _orthogonalize, orthogonalize_spec. fold p.
    rewrite (early_return_iff n p X HX) by (apply Hn; lia).
    replace (p =? 1)%nat with false by (symmetry; apply Nat.eqb_neq; lia).
    apply (orth_loop_lsq pinv n p); auto.
    + apply Hn; lia.
    + intros i Hi. apply in_seq in Hi. lia.
  - intros Hp. unfold _orthogonalize.
    rewrite (early_return_iff n p X HX) by (apply Hn; lia).
    now rewrite Hp.
Qed.

Lemma orthogonalize_least_squares_witness :
  let X := [[qz 1; qz 1]; [qz 1; qz 2]] in
  _orthogonalize pinv_column X = Ok (orthogonalize_spec pinv_column X) /\
  orthogonalize_spec pinv_column X = [[qz 1; qf (-1) 2]; [qz 1; qf 1 2]].
Proof.
  intros X. split.
  - apply (orthogonalize_least_squares pinv_column X).
    + split; [reflexivity|]. repeat constructor.
    + apply Forall_cons.
      * split.
        -- split; [reflexivity|]. repeat constructor.
        -- apply mat_eqb_eq. vm_compute. reflexivity.
      * destruct (orth_step pinv_column 1 X); constructor.
    + unfold X, Np.shape1. simpl. lia.
  - apply mat_eqb_eq. vm_compute. reflexivity.
Defined.

(** ** Signs in [Qc] *)

Lemma Qc_opp_pos (x : Qc) : x < 0 -> 0 < - x.
Proof.
  intros H. apply Qclt_minus_iff in H. now replace (0 + - x) with (- x) in H by ring.
Qed.

Lemma Qc_opp_neg (x : Qc) : 0 < x -> - x < 0.
Proof.
  intros H. apply Qclt_minus_iff. now replace (0 + - - x) with x by ring.
Qed.

Lemma Qc_mul_pos (a b : Qc) : 0 < a -> 0 < b -> 0 < a * b.
Proof.
  intros Ha Hb. replace 0 with (0 * b) by ring. now apply Qcmult_lt_compat_r.
Qed.

Lemma Qc_inv_pos (b : Qc) : 0 < b -> 0 < / b.
Proof.
  intros Hb. destruct (Qclt_le_dec 0 (/ b)) as [H|H]; [exact H|exfalso].
  assert (Hne : b <> 0) by (intros E; rewrite E in Hb; exact (Qclt_not_le _ _ Hb (Qcle_refl _))).
  pose proof (Qcmult_le_compat_r (/ b) 0 b H (Qclt_le_weak _ _ Hb)) as H1.
  rewrite Qcmult_inv_l in H1 by exact Hne. rewrite Qcmult_0_l in H1.
  revert H1. apply Qclt_not_le. reflexivity.
Qed.

Lemma Qc_div_pos (a b : Qc) : 0 < a -> 0 < b -> 0 < a / b.
Proof. intros Ha Hb. apply Qc_mul_pos; [exact Ha | now apply Qc_inv_pos]. Qed.

Lemma Qc_div_nonneg (a b : Qc) : 0 <= a -> 0 < b -> 0 <= a / b.
Proof.
  intros Ha Hb. replace 0 with (0 * / b) by ring.
  apply Qcmult_le_compat_r; [exact Ha|]. apply Qclt_le_weak. now apply Qc_inv_pos.
Qed.

Lemma Qc_neg_neq0 (b : Qc) : b < 0 -> b <> 0.
Proof. intros H E. rewrite E in H. exact (Qclt_not_le _ _ H (Qcle_refl _)). Qed.

Lemma Qc_pos_neq0 (b : Qc) : 0 < b -> b <> 0.
Proof. intros H E. rewrite E in H. exact (Qclt_not_le _ _ H (Qcle_refl _)). Qed.

Lemma Qc_div_pos_neg (a b : Qc) : 0 < a -> b < 0 -> a / b < 0.
Proof.
  intros Ha Hb. pose proof (Qc_neg_neq0 b Hb) as Hne.
  assert (Hne' : - b <> 0) by (apply Qc_pos_neq0; now apply Qc_opp_pos).
  replace (a / b) with (- (a / - b)) by (field; now split).
  apply Qc_opp_neg. apply Qc_div_pos; [exact Ha | now apply Qc_opp_pos].
Qed.

Lemma Qc_shrink_neg (a b : Qc) : a < 0 -> 0 < b -> a * (1 + b) < a.
Proof.
  intros Ha Hb. apply Qclt_minus_iff.
  replace (a + - (a * (1 + b))) with (- a * b) by ring.
  apply Qc_mul_pos; [now apply Qc_opp_pos | exact Hb].
Qed.

Lemma Z2Qc_pos (z : Z) : (0 < z)%Z -> 0 < Z2Qc z.
Proof.
  intros H. unfold Qclt, Z2Qc, Q2Qc. cbn [this]. rewrite !Qred_correct.
  unfold Qlt. simpl. lia.
Qed.

Lemma Z2Qc_neg (z : Z) : (z < 0)%Z -> Z2Qc z < 0.
Proof.
  intros H. unfold Qclt, Z2Qc, Q2Qc. cbn [this]. rewrite !Qred_correct.
  unfold Qlt. simpl. lia.
Qed.

Lemma py_int_neg (x : Qc) : x < 0 -> (py_int x <= 0)%Z.
Proof.
  intros H. unfold py_int. unfold Qclt, Qlt in H. simpl in H.
  assert (Hn : (Qnum x <= 0)%Z) by lia.
  pose proof (Z.quot_le_mono (Qnum x) 0 (Zpos (Qden x)) ltac:(lia) Hn) as Hq.
  rewrite Z.quot_0_l in Hq by lia. exact Hq.
Qed.

Lemma py_div_ok (a b c : Qc) : py_div a b = Ok c -> b <> 0 /\ c = a / b.
Proof.
  unfold py_div. destruct (Qc_eq_dec b 0); [discriminate|].
  intros H. injection H as <-. now split.
Qed.

(** ** C9: non-positive oversampling, fewer than two frame times *)

Lemma amax_from_in (m : Qc) (l : vec) : In (Np.amax_from m l) (m :: l).
Proof.
  revert m; induction l as [|x l IH]; intros m; simpl; [now left|].
  destruct (IH (if Qc_ltb m x then x else m)) as [E|Hin].
  - destruct (Qc_ltb m x); rewrite <- E; auto.
  - now right; right.
Qed.

Lemma amax_from_ge (m : Qc) (l : vec) :
  m <= Np.amax_from m l /\ Forall (fun t => t <= Np.amax_from m l) l.
Proof.
  revert m; induction l as [|x l IH]; intros m; simpl.
  - split; [apply Qcle_refl | constructor].
  - destruct (IH (if Qc_ltb m x then x else m)) as [H1 H2].
    destruct (Qc_ltb m x) eqn:E.
    + apply Qc_ltb_lt in E. split.
      * eapply Qcle_trans; [apply Qclt_le_weak; exact E | exact H1].
      * constructor; assumption.
    + apply Qc_ltb_ge in E. split; [exact H1|].
      constructor; [|exact H2]. eapply Qcle_trans; eassumption.
Qed.

Lemma max_ge (l : vec) (m t : Qc) : Np.max l = Ok m -> In t l -> t <= m.
Proof.
  destruct l as [|x l]; [discriminate|]. intros H Hin. injection H as <-.
  destruct (amax_from_ge x l) as [H1 H2]. destruct Hin as [<-|Hin]; [exact H1|].
  exact (proj1 (Forall_forall _ _) H2 _ Hin).
Qed.

Lemma gamma_kernel_empty (gamma_pdf : Qc -> Qc -> Qc -> Qc) (tr : Qc) (oversampling : Z)
    (time_length onset delay undershoot dispersion u_dispersion ratio : Qc) (h : vec) :
  _gamma_difference_hrf gamma_pdf tr oversampling time_length onset delay undershoot
    dispersion u_dispersion ratio = Ok h ->
  oversampling = 0%Z \/ ((oversampling < 0)%Z /\ 0 <= tr) -> 0 < time_length ->
  h = [].
Proof.
  unfold _gamma_difference_hrf. intros H Hos Htl. cbv zeta in H.
  bind_inv H as dt Hdt. apply py_div_ok in Hdt as [Ho ->].
  bind_inv H as num Hnum. apply py_div_ok in Hnum as [Hdt0 ->].
  destruct Hos as [E|[Hos' Htr]].
  { exfalso. apply Ho. rewrite E. apply Z2Qc_0. }
  assert (Htr' : 0 < tr).
  { destruct (Qcle_lt_or_eq _ _ Htr) as [Hlt|E]; [exact Hlt|].
    exfalso. apply Hdt0. rewrite <- E. unfold Qcdiv. ring. }
  assert (Hdt : tr / Z2Qc oversampling < 0)
    by (apply Qc_div_pos_neg; [exact Htr' | now apply Z2Qc_neg]).
  assert (Hnum : time_length / (tr / Z2Qc oversampling) < 0)
    by (now apply Qc_div_pos_neg).
  assert (E : Np.linspace 0 time_length (time_length / (tr / Z2Qc oversampling)) = []).
  { unfold Np.linspace.
    replace (py_int (time_length / (tr / Z2Qc oversampling)) <=? 0)%Z with true;
      [reflexivity|].
    symmetry. apply Z.leb_le. now apply py_int_neg. }
  rewrite E in H.
  bind_inv H as shift Hshift. bind_inv H as a1 Ha1. bind_inv H as l1 Hl1.
  bind_inv H as a2 Ha2. bind_inv H as l2 Hl2.
  injection H as <-. reflexivity.
Qed.

Lemma time_length0_pos : 0 < time_length0.
Proof. reflexivity. Qed.

Lemma hrf_kernel_gamma_empty (gamma_pdf : Qc -> Qc -> Qc -> Qc) (m : string) (tr : Qc)
    (oversampling : Z) (fir_delays : option (list Z)) (ks : list vec) :
  _hrf_kernel gamma_pdf m tr oversampling fir_delays = Ok ks ->
  String.eqb m "fir" = false ->
  oversampling = 0%Z \/ ((oversampling < 0)%Z /\ 0 <= tr) ->
  exists rest, ks = [] :: rest.
Proof.
  unfold _hrf_kernel. intros H Hfir Hos. rewrite Hfir in H.
  destruct (String.eqb m "spm").
  { bind_inv H as h Hh. injection H as <-.
    apply gamma_kernel_empty in Hh; auto using time_length0_pos. subst h. eauto. }
  destruct (String.eqb m "spm_time").
  { bind_inv H as h Hh. bind_inv H as d Hd. injection H as <-.
    apply gamma_kernel_empty in Hh; auto using time_length0_pos. subst h. eauto. }
  destruct (String.eqb m "spm_time_dispersion").
  { bind_inv H as h Hh. bind_inv H as d Hd. bind_inv H as s Hs. injection H as <-.
    apply gamma_kernel_empty in Hh; auto using time_length0_pos. subst h. eauto. }
  destruct (String.eqb m "canonical").
  { bind_inv H as h Hh. injection H as <-.
    apply gamma_kernel_empty in Hh; auto using time_length0_pos. subst h. eauto. }
  destruct (String.eqb m "canonical with derivative").
  { bind_inv H as h Hh. bind_inv H as d Hd. injection H as <-.
    apply gamma_kernel_empty in Hh; auto using time_length0_pos. subst h. eauto. }
  discriminate.
Qed.

Lemma fir_kernel_empty (oversampling f : Z) (k : vec) :
  fir_kernel oversampling f = Ok k -> (oversampling <= 0)%Z -> k = [].
Proof.
  unfold fir_kernel. intros H Hos. bind_inv H as z Hz. bind_inv H as o Ho.
  injection H as <-. unfold Np.onesZ in Ho. unfold Np.zerosZ in Hz.
  destruct (oversampling <? 0)%Z eqn:E; [discriminate|].
  apply Z.ltb_ge in E. assert (E0 : oversampling = 0%Z) by lia. subst oversampling.
  rewrite Z.mul_0_r in Hz. simpl in Hz, Ho.
  injection Hz as <-. injection Ho as <-. reflexivity.
Qed.

Lemma hrf_kernel_fir_empty (gamma_pdf : Qc -> Qc -> Qc -> Qc) (m : string) (tr : Qc)
    (oversampling : Z) (fir_delays : option (list Z)) (ks : list vec) :
  _hrf_kernel gamma_pdf m tr oversampling fir_delays = Ok ks ->
  String.eqb m "fir" = true -> (oversampling <= 0)%Z ->
  ks = [] \/ exists rest, ks = [] :: rest.
Proof.
  intros H Hfir Hos. apply String.eqb_eq in Hfir. subst m.
  unfold _hrf_kernel in H.
  change (String.eqb "fir" "spm") with false in H.
  change (String.eqb "fir" "spm_time") with false in H.
  change (String.eqb "fir" "spm_time_dispersion") with false in H.
  change (String.eqb "fir" "canonical") with false in H.
  change (String.eqb "fir" "canonical with derivative") with false in H.
  change (String.eqb "fir" "fir") with true in H. cbv iota in H.
  destruct fir_delays as [ds|]; [|discriminate].
  destruct ds as [|f ds]; simpl in H.
  - injection H as <-. now left.
  - bind_inv H as k Hk. bind_inv H as rest Hrest. injection H as <-.
    apply fir_kernel_empty in Hk; [|exact Hos]. subst k. right. eauto.
Qed.

Lemma conv_empty_kernel (reg : vec) (rest : list vec) :
  exists e, mapM (fun h => c <- Np.convolve reg h ;; Ok (firstn (length reg) c))
                 ([] :: rest) = Err e.
Proof. destruct reg; simpl; eexists; reflexivity. Qed.

Lemma resample_no_kernel (hr frame_times : vec) :
  exists e, _resample_regressor (@nil (list Qc)) hr frame_times = Err e.
Proof.
  unfold _resample_regressor, Scipy.interp1d, Scipy.interp1d_init.
  destruct (Scipy.argsort hr); [|simpl; eauto].
  destruct hr as [|a hr]; simpl; eauto.
Qed.

(** C9 (amended).  [compute_regressor] raises, and returns no (matrix,
    names) pair, on every call with fewer than two frame times, on every
    call with [oversampling = 0], and on every call with
    [oversampling < 0] in which some frame time is not negative.  The source
    has no test of these arguments: the exception is the one of the first
    operation that cannot cope (the maximum of an empty array, the division
    by [n - 1 = 0] or by [oversampling = 0], [np.ones] of a negative size,
    the convolution with an empty kernel, the interpolation of an empty
    array). *)
Theorem invalid_arguments_fail
    (gamma_pdf : Qc -> Qc -> Qc -> Qc) (pinv : matrix -> matrix)
    (exp_condition : list event) (m : string) (frame_times : vec) (con_id : string)
    (oversampling : Z) (fir_delays : option (list Z)) (min_onset : Qc) :
  (length frame_times < 2)%nat \/ oversampling = 0%Z \/
  ((oversampling < 0)%Z /\ exists t, In t frame_times /\ 0 <= t) ->
  exists e, compute_regressor gamma_pdf pinv exp_condition m frame_times con_id
              oversampling fir_delays min_onset = Err e.
Proof.
  intros Hbad. unfold compute_regressor.
  destruct (Np.max frame_times) as [fmax|e] eqn:Hmax; [|simpl; eauto]. simpl bind.
  destruct (py_div fmax (Z2Qc (Z.of_nat (length frame_times) - 1))) as [tr|e] eqn:Htr;
    [|simpl; eauto].
  simpl bind. apply py_div_ok in Htr as [Hn1 ->].
  assert (Hlen : (2 <= length frame_times)%nat).
  { destruct frame_times as [|a [|b l]]; simpl; try lia.
    - discriminate.
    - exfalso. apply Hn1. apply Z2Qc_0. }
  destruct Hbad as [Hshort|Hos]; [lia|].
  assert (Hden : 0 < Z2Qc (Z.of_nat (length frame_times) - 1)) by (apply Z2Qc_pos; lia).
  assert (Hos' : oversampling = 0%Z \/
                 ((oversampling < 0)%Z /\
                  0 <= fmax / Z2Qc (Z.of_nat (length frame_times) - 1))).
  { destruct Hos as [E|[Hneg [t [Hin Ht]]]]; [now left|]. right. split; [exact Hneg|].
    apply Qc_div_nonneg; [|exact Hden].
    eapply Qcle_trans; [exact Ht|]. now apply (max_ge frame_times). }
  assert (Hle : (oversampling <= 0)%Z) by (destruct Hos' as [E|[Hneg _]]; lia).
  destruct (_sample_condition exp_condition frame_times oversampling min_onset)
    as [[reg hr]|e] eqn:Hs; [|simpl; eauto].
  simpl bind.
  destruct (_hrf_kernel gamma_pdf m (fmax / _) oversampling fir_delays)
    as [ks|e] eqn:Hk; [|simpl; eauto].
  simpl bind.
  assert (Hshape : ks = [] \/ exists rest, ks = [] :: rest).
  { destruct (String.eqb m "fir") eqn:Hfir.
    - exact (hrf_kernel_fir_empty _ _ _ _ _ _ Hk Hfir Hle).
    - right. exact (hrf_kernel_gamma_empty _ _ _ _ _ _ Hk Hfir Hos'). }
  destruct Hshape as [->|[rest ->]].
  - simpl mapM. simpl bind.
    destruct (resample_no_kernel hr frame_times) as [e He]. rewrite He.
    simpl. eauto.
  - destruct (conv_empty_kernel reg rest) as [e He]. rewrite He. simpl. eauto.
Qed.

Lemma invalid_arguments_fail_witness :
  (exists e, compute_regressor (fun _ _ _ => 0) (fun A => A)
               [mk_event (qz 0) (qz 1) (qz 1)] "spm" [qz 0; qz 1; qz 2] "cond" 0
               None (qz (-1)) = Err e) /\
  (exists e, compute_regressor (fun _ _ _ => 0) (fun A => A)
               [mk_event (qz 0) (qz 1) (qz 1)] "fir" [qz 0; qz 1; qz 2] "cond" (-2)
               (Some [0; 1]%Z) (qz (-1)) = Err e) /\
  (exists e, compute_regressor (fun _ _ _ => 0) (fun A => A)
               [mk_event (qz 0) (qz 1) (qz 1)] "spm" [qz 3] "cond" 16
               None (qz (-1)) = Err e).
Proof.
  split; [|split]; apply invalid_arguments_fail.
  - right. left. reflexivity.
  - right. right. split; [lia|]. exists (qz 0). split; [now left|]. apply Qcle_refl.
  - left. simpl. lia.
Defined.

(** *** A call with a negative oversampling factor that returns *)

Lemma bind_Ok {A B : Type} (a : A) (f : A -> result B) : bind (Ok a) f = f a.
Proof. reflexivity. Qed.

Lemma py_div_nonzero (a b : Qc) : b <> 0 -> py_div a b = Ok (a / b).
Proof. intros H. unfold py_div. destruct (Qc_eq_dec b 0); [contradiction|reflexivity]. Qed.

Lemma scale_0 (v : vec) : Np.scale 0 v = Np.zeros (length v).
Proof.
  induction v as [|x v IH]; [reflexivity|].
  change (Np.scale 0 (x :: v)) with (0 * x :: Np.scale 0 v).
  rewrite IH. change (Np.zeros (length (x :: v))) with (0 :: Np.zeros (length v)).
  f_equal. ring.
Qed.

Lemma padd_zeros (a b : nat) :
  Np.padd (Np.zeros a) (Np.zeros b) = Np.zeros (Nat.max a b).
Proof.
  revert b; induction a as [|a IH]; intros [|b]; try reflexivity.
  change (Np.padd (Np.zeros (S a)) (Np.zeros (S b)))
    with ((0 + 0) :: Np.padd (Np.zeros a) (Np.zeros b)).
  rewrite IH. change (Np.zeros (Nat.max (S a) (S b))) with (0 :: Np.zeros (Nat.max a b)).
  f_equal; try ring.
Qed.

Lemma conv_full_zeros (m : nat) (v : vec) :
  v <> [] -> Np.conv_full (Np.zeros (S m)) v = Np.zeros (S m + length v - 1).
Proof.
  intros Hv. assert (Hl : (1 <= length v)%nat) by (destruct v; [congruence|simpl; lia]).
  induction m as [|m IH].
  - change (Np.conv_full (Np.zeros 1) v) with (Np.padd (Np.scale 0 v) (Np.zeros 1)).
    rewrite scale_0, padd_zeros. f_equal. lia.
  - change (Np.conv_full (Np.zeros (S (S m))) v)
      with (Np.padd (Np.scale 0 v) (0 :: Np.conv_full (Np.zeros (S m)) v)).
    rewrite IH, scale_0.
    change (0 :: Np.zeros (S m + length v - 1)) with (Np.zeros (S (S m + length v - 1))).
    rewrite padd_zeros. f_equal. lia.
Qed.

Lemma firstn_zeros (a b : nat) : firstn a (Np.zeros b) = Np.zeros (Nat.min a b).
Proof.
  revert b; induction a as [|a IH]; intros [|b]; try reflexivity.
  change (firstn (S a) (Np.zeros (S b))) with (0 :: firstn a (Np.zeros b)).
  now rewrite IH.
Qed.

Lemma conv_zero_regressor (m : nat) (h : vec) :
  h <> [] ->
  mapM (fun k => c <- Np.convolve (Np.zeros (S m)) k ;;
                 Ok (firstn (length (Np.zeros (S m))) c)) [h]
  = Ok [Np.zeros (S m)].
Proof.
  intros Hh. cbn [mapM].
  assert (E : Np.convolve (Np.zeros (S m)) h = Ok (Np.conv_full (Np.zeros (S m)) h)).
  { destruct h; [congruence|reflexivity]. }
  rewrite E, !bind_Ok. rewrite conv_full_zeros by exact Hh.
  rewrite zeros_length, firstn_zeros. do 3 f_equal.
  assert (Hl : (1 <= length h)%nat) by (destruct h; [congruence|simpl; lia]). lia.
Qed.

Lemma sampled_eq (r : result (vec * vec)) (a b : vec) :
  match r with
  | Ok (a', b') => vec_eqb a' a && vec_eqb b' b
  | Err _ => false
  end = true ->
  r = Ok (a, b).
Proof.
  destruct r as [[a' b']|e]; [|discriminate]. intros H.
  apply andb_true_iff in H as [Ha Hb].
  apply vec_eqb_eq in Ha. apply vec_eqb_eq in Hb. now subst.
Qed.

Lemma spm_kernel_nonempty (gamma_pdf : Qc -> Qc -> Qc -> Qc) :
  exists h, _hrf_kernel gamma_pdf "spm" (qz (-1)) (-16) None = Ok [h] /\ h <> [].
Proof.
  unfold _hrf_kernel. change (String.eqb "spm" "spm") with true. cbv iota.
  unfold spm_hrf, _gamma_difference_hrf.
  repeat (rewrite py_div_nonzero by (apply Qc_neq_by_bool; vm_compute; reflexivity);
          rewrite ?bind_Ok; cbv zeta).
  eexists. split; [reflexivity|].
  intros E. apply (f_equal (@length Qc)) in E. rewrite !length_map in E.
  assert (L : length (Np.linspace 0 time_length0
                        (time_length0 / (qz (-1) / Z2Qc (-16)))) = 512%nat)
    by (vm_compute; reflexivity).
  rewrite L in E. discriminate.
Qed.

(** C9 as stated fails: with the frame times [-2, -1], no event, the "spm"
    model, [min_onset = 1] and [oversampling = -16], the grid is the 17
    samples from -1 down to -2, the repetition interval is -1, the kernel
    step [dt = tr / oversampling = 1/16] is positive and the kernel has 512
    samples, [interp1d] sorts the grid, both frame times lie on it, and the
    call returns a 2 x 1 matrix of zeros with the name "cond", whatever
    [gamma.pdf] and [pinv] compute. *)
Lemma negative_oversampling_returns :
  (-16 <= 0)%Z /\
  forall (gamma_pdf : Qc -> Qc -> Qc -> Qc) (pinv : matrix -> matrix),
    compute_regressor gamma_pdf pinv [] "spm" [qz (-2); qz (-1)] "cond" (-16)
      None (qz 1)
    = Ok ([[0]; [0]], Some ["cond"%string]).
Proof.
  split; [lia|].
  intros gamma_pdf pinv. unfold compute_regressor.
  assert (E1 : Np.max [qz (-2); qz (-1)] = Ok (qz (-1))) by reflexivity.
  rewrite E1, bind_Ok.
  assert (E2 : py_div (qz (-1)) (Z2Qc (Z.of_nat (length [qz (-2); qz (-1)]) - 1))
               = Ok (qz (-1))).
  { rewrite py_div_nonzero by (apply Qc_neq_by_bool; vm_compute; reflexivity).
    f_equal; try (apply Qc_is_canon; vm_compute; reflexivity). }
  rewrite E2, bind_Ok.
  set (grid := map (fun j => Q2Qc ((-16 - Z.of_nat j) # 16)) (seq 0 17)).
  assert (Es : _sample_condition [] [qz (-2); qz (-1)] (-16) (qz 1)
               = Ok (Np.zeros 17, grid)).
  { apply sampled_eq. vm_compute. reflexivity. }
  rewrite Es, bind_Ok. cbv iota.
  destruct (spm_kernel_nonempty gamma_pdf) as [h [Hk Hne]].
  rewrite Hk, bind_Ok.
  rewrite (conv_zero_regressor 16 h Hne), bind_Ok.
  vm_compute. do 2 f_equal.
Qed.
(** * Further properties *)

(** ** Linear arithmetic on [Qc] *)

Lemma Qc_this_eq (x y : Qc) : x = y -> (this x == this y)%Q.
Proof. intros ->. reflexivity. Qed.

Ltac qc_unfold :=
  unfold Qclt, Qcle, Qcminus, Qcdiv in *;
  repeat match goal with
  | H : @eq Qc _ _ |- _ => apply Qc_this_eq in H
  | |- @eq Qc _ _ => apply Qc_is_canon
  end;
  cbn [this Qcplus Qcmult Qcopp Qcinv Q2Qc] in *;
  rewrite ?Qred_correct in *.

Ltac qc_lra := qc_unfold; lra.


(** ** The sample count when no operation rounds *)


Lemma float64_list (l : list Qc) :
  forallb (fun x => Qc_eq_bool (round64 x) x) l = true -> Forall is_float64 l.
Proof.
  intros H. apply Forall_forall. intros x Hx.
  apply (proj1 (forallb_forall _ _) H) in Hx. apply Qc_eq_bool_correct. exact Hx.
Qed.

Lemma result_Qc_by_bool (r : result Qc) (a : Qc) :
  match r with Ok v => Qc_eq_bool v a | Err _ => false end = true -> r = Ok a.
Proof.
  destruct r as [v|e]; [|discriminate].
  intros H. f_equal. apply Qc_eq_bool_correct. exact H.
Qed.

Lemma arange_length (k : nat) : length (Np.arange k) = k.
Proof. unfold Np.arange. rewrite length_map, length_seq. reflexivity. Qed.

Lemma linspace_length (start stop num : Qc) :
  length (Np.linspace start stop num) = Z.to_nat (py_int num).
Proof.
  unfold Np.linspace.
  destruct (Z.leb_spec (py_int num) 0); [cbn [length]; lia|].
  destruct (Z.eqb_spec (py_int num) 1) as [E|E]; [rewrite E; reflexivity|].
  rewrite set_last_length, length_map, arange_length. reflexivity.
Qed.
(** * Further properties of the event sampler *)

Lemma regressor_spec_length (hr : vec) (evs : list event) :
  length (regressor_spec hr evs) = length hr.
Proof.
  unfold regressor_spec, Np.cumsum, delta_spec.
  rewrite cumsum_from_length, length_map, length_seq. reflexivity.
Qed.


Lemma hr_regressor_no_event (hr : vec) : hr_regressor hr [] = Ok (Np.cumsum (Np.zeros (length hr))).
Proof. reflexivity. Qed.

(** X2 ([_sample_condition], lines 182-216).  Whenever the sampler
    returns, the regressor and the grid it returns have the same number of
    samples, and with at least one event the grid is not empty. *)
Theorem sample_condition_same_length (exp_condition : list event) (frame_times : vec)
    (oversampling : Z) (min_onset : Qc) (regressor hr : vec) :
  _sample_condition exp_condition frame_times oversampling min_onset = Ok (regressor, hr) ->
  length regressor = length hr /\ (exp_condition <> [] -> hr <> []).
Proof.
  unfold _sample_condition. intros H.
  bind_inv H as g Hg. bind_inv H as r Hr. injection H as -> ->.
  destruct hr as [|h0 hr'].
  - destruct exp_condition as [|e evs].
    + rewrite hr_regressor_no_event in Hr. injection Hr as <-. split; [reflexivity|].
      intros C. exfalso. apply C. reflexivity.
    + rewrite hr_regressor_empty_grid in Hr. discriminate.
  - destruct (hr_regressor_ok (h0 :: hr') exp_condition) as [r' [E L]]; [discriminate|].
    rewrite E in Hr. injection Hr as <-. split; [exact L|]. intros _. discriminate.
Qed.

Lemma sample_condition_same_length_witness :
  exists regressor hr,
    _sample_condition [mk_event (qz 0) (qz 1) (qz 1)] [qz 0; qz 1; qz 2] 2 (qz (-1))
      = Ok (regressor, hr) /\
    length regressor = 9%nat /\ length hr = 9%nat.
Proof.
  destruct (_sample_condition [mk_event (qz 0) (qz 1) (qz 1)] [qz 0; qz 1; qz 2] 2 (qz (-1)))
    as [[r hr]|e] eqn:E; [|vm_compute in E; discriminate].
  exists r, hr. split; [reflexivity|].
  destruct (sample_condition_same_length _ _ _ _ _ _ E) as [L _].
  assert (Lh : length hr = 9%nat).
  { assert (E' := f_equal (fun x => match x with Ok (_, h) => length h | Err _ => 0%nat end) E).
    vm_compute in E'. symmetry. exact E'. }
  split; [rewrite L; exact Lh | exact Lh].
Defined.

Lemma active_sum_single (hr : vec) (e : event) (j : nat) :
  active_sum hr [e] j =
  if ((nth 0 (t_onset hr [e]) 0%Z <=? Z.of_nat j)%Z
      && (Z.of_nat j <? nth 0 (t_offset hr [e]) 0%Z)%Z)%bool
  then value e else 0.
Proof.
  unfold active_sum, amplitude_sum, t_offset, t_offset0, t_onset, onsets,
    Np.minimum, Np.searchsorted, Np.sum.
  cbn [map combine bump fold_right fst snd nth].
  destruct (_ && _)%bool; ring.
Qed.

Lemma single_event_regressor (hr : vec) (e : event) :
  hr <> [] -> 0 <= duration e ->
  hr_regressor hr [e] = Ok (regressor_spec hr [e]) /\
  forall j, (j < length hr)%nat ->
    nth j (regressor_spec hr [e]) 0 =
    if ((nth 0 (t_onset hr [e]) 0%Z <=? Z.of_nat j)%Z
        && (Z.of_nat j <? nth 0 (t_offset hr [e]) 0%Z)%Z)%bool
    then value e else 0.
Proof.
  intros Hhr Hd. split.
  - apply hr_regressor_distinct_indices; [assumption| |].
    + unfold t_onset, onsets, Np.minimum, Np.searchsorted. cbn [map].
      constructor; [intros []|constructor].
    + unfold t_offset, t_offset0, t_onset, onsets, Np.minimum, Np.searchsorted.
      cbn [map bump]. constructor; [intros []|constructor].
  - intros j Hj. rewrite regressor_spec_active_sum; [|assumption| |assumption].
    + apply active_sum_single.
    + constructor; [assumption|constructor].
Qed.



Lemma searchsorted1_all_below (a : vec) (v : Qc) :
  Forall (fun t => t < v) a -> Np.searchsorted1 a v = length a.
Proof.
  induction 1 as [|x a Hx _ IH]; [reflexivity|].
  cbn [Np.searchsorted1 length].
  assert (B : Qc_ltb x v = true) by (apply Qc_ltb_lt; exact Hx).
  rewrite B, IH. reflexivity.
Qed.

Lemma searchsorted1_app_ge (a b : vec) (v : Qc) :
  Forall (fun t => t < v) a -> (length a <= Np.searchsorted1 (a ++ b) v)%nat.
Proof.
  induction 1 as [|x a Hx _ IH]; [cbn [length]; lia|].
  cbn [Np.searchsorted1 length app].
  assert (B : Qc_ltb x v = true) by (apply Qc_ltb_lt; exact Hx).
  rewrite B. lia.
Qed.

(** X4 ([_sample_condition], lines 203-214).  An event that starts after
    every grid sample but possibly the last one is dropped: its onset and
    offset indices are both [tmax - 1], the offset is not moved, and the
    regressor is 0 everywhere. *)
Theorem late_event_dropped (hr : vec) (e : event) :
  hr <> [] -> 0 <= duration e ->
  Forall (fun t => t < onset e) (removelast hr) ->
  hr_regressor hr [e] = Ok (Np.zeros (length hr)).
Proof.
  intros Hhr Hd Hlate.
  destruct (single_event_regressor hr e Hhr Hd) as [E N].
  rewrite E. f_equal.
  assert (Llast : (length (removelast hr) = length hr - 1)%nat).
  { destruct (exists_last Hhr) as [l [x ->]].
    rewrite removelast_last, length_app. cbn [length]. lia. }
  assert (Hge : forall v, onset e <= v ->
                 (length hr - 1 <= Np.searchsorted1 hr v)%nat).
  { intros v Hv. rewrite <- Llast.
    rewrite (app_removelast_last 0 Hhr) at 2.
    apply searchsorted1_app_ge.
    eapply Forall_impl; [|exact Hlate]. cbn beta. intros t Ht. qc_lra. }
  assert (Hlen : (1 <= length hr)%nat) by (destruct hr; [congruence|cbn [length]; lia]).
  assert (Ton : nth 0 (t_onset hr [e]) 0%Z = (Z.of_nat (length hr) - 1)%Z).
  { unfold t_onset, onsets, Np.minimum, Np.searchsorted. cbn [map nth].
    assert (G := Hge (onset e) (Qcle_refl _)). lia. }
  assert (Tof : nth 0 (t_offset hr [e]) 0%Z = (Z.of_nat (length hr) - 1)%Z).
  { unfold t_offset, t_offset0, t_onset, onsets, Np.minimum, Np.searchsorted.
    cbn [map nth bump].
    assert (G := Hge (onset e) (Qcle_refl _)).
    assert (G' : (length hr - 1 <= Np.searchsorted1 hr (onset e + duration e))%nat)
      by (apply Hge; qc_lra).
    replace (Z.min (Z.of_nat (Np.searchsorted1 hr (onset e + duration e)))
               (Z.of_nat (length hr) - 1))%Z with (Z.of_nat (length hr) - 1)%Z by lia.
    rewrite Z.ltb_irrefl. reflexivity. }
  apply vec_ext_lt.
  - rewrite regressor_spec_length, zeros_length. reflexivity.
  - intros j Hj. rewrite regressor_spec_length in Hj.
    rewrite (N j Hj), Ton, Tof, nth_zeros.
    destruct (Z.leb_spec (Z.of_nat (length hr) - 1) (Z.of_nat j));
      destruct (Z.ltb_spec (Z.of_nat j) (Z.of_nat (length hr) - 1)); try reflexivity; lia.
Qed.

Lemma late_event_dropped_witness :
  hr_regressor [qz 0; qz 1; qz 2] [mk_event (qf 3 2) (qz 4) (qz 7)] = Ok [0; 0; 0].
Proof.
  apply (late_event_dropped [qz 0; qz 1; qz 2] (mk_event (qf 3 2) (qz 4) (qz 7))).
  - discriminate.
  - vm_compute; discriminate.
  - repeat constructor.
Defined.
(** ** The oversampled grid on regular inputs *)









(** ** The kernels *)

Lemma sum_scale (c : Qc) (v : vec) : Np.sum (Np.scale c v) = c * Np.sum v.
Proof.
  induction v as [|x v IH]; [cbn; ring|].
  unfold Np.scale, Np.sum in *. cbn [map fold_right]. rewrite IH. ring.
Qed.

Lemma sum_vsub (u v : vec) :
  length u = length v -> Np.sum (Np.vsub u v) = Np.sum u - Np.sum v.
Proof.
  revert v. induction u as [|x u IH]; intros [|y v] L; try discriminate L.
  - cbn. ring.
  - injection L as L. unfold Np.vsub, Np.sum in *.
    cbn [combine map fold_right fst snd]. rewrite (IH v L). ring.
Qed.

Lemma sum_normalised (raw : vec) :
  Np.sum raw <> 0 -> Np.sum (map (fun h => h / Np.sum raw) raw) = 1.
Proof.
  intros H.
  assert (E : map (fun h => h / Np.sum raw) raw = Np.scale (/ Np.sum raw) raw).
  { unfold Np.scale. apply map_ext. intros a. unfold Qcdiv. ring. }
  rewrite E, sum_scale. field. exact H.
Qed.

Lemma gamma_difference_hrf_samples (gamma_pdf : Qc -> Qc -> Qc -> Qc)
    (tr : Qc) (oversampling : Z)
    (time_length onset delay undershoot dispersion u_dispersion ratio : Qc) :
  _gamma_difference_hrf gamma_pdf tr oversampling time_length onset
    delay undershoot dispersion u_dispersion ratio
  = (raw <- gamma_difference_samples gamma_pdf tr oversampling time_length onset
             delay undershoot dispersion u_dispersion ratio ;;
     Ok (map (fun h => h / Np.sum raw) raw)).
Proof.
  unfold _gamma_difference_hrf, gamma_difference_samples.
  destruct (py_div tr (Z2Qc oversampling)) as [dt|]; [|reflexivity]. cbn [bind].
  destruct (py_div time_length dt) as [num|]; [|reflexivity]. cbn [bind].
  destruct (py_div onset dt) as [shift|]; [|reflexivity]. cbn [bind].
  destruct (py_div delay dispersion) as [a1|]; [|reflexivity]. cbn [bind].
  destruct (py_div dt dispersion) as [l1|]; [|reflexivity]. cbn [bind].
  destruct (py_div undershoot u_dispersion) as [a2|]; [|reflexivity]. cbn [bind].
  destruct (py_div dt u_dispersion) as [l2|]; reflexivity.
Qed.

Lemma gamma_difference_samples_length (gamma_pdf : Qc -> Qc -> Qc -> Qc)
    (tr : Qc) (oversampling : Z)
    (time_length onset delay undershoot dispersion u_dispersion ratio : Qc) (raw : vec) :
  gamma_difference_samples gamma_pdf tr oversampling time_length onset
    delay undershoot dispersion u_dispersion ratio = Ok raw ->
  length raw = Z.to_nat (py_int (time_length / (tr / Z2Qc oversampling))).
Proof.
  unfold gamma_difference_samples. intros H.
  bind_inv H as dt Hdt. bind_inv H as num Hnum. bind_inv H as shift Hshift.
  bind_inv H as a1 Ha1. bind_inv H as l1 Hl1. bind_inv H as a2 Ha2. bind_inv H as l2 Hl2.
  injection H as <-.
  apply py_div_ok in Hdt, Hnum. destruct Hdt as [_ ->]. destruct Hnum as [_ ->].
  rewrite !length_map, linspace_length. reflexivity.
Qed.

Lemma gamma_difference_hrf_length (gamma_pdf : Qc -> Qc -> Qc -> Qc)
    (tr : Qc) (oversampling : Z)
    (time_length onset delay undershoot dispersion u_dispersion ratio : Qc) (h : vec) :
  _gamma_difference_hrf gamma_pdf tr oversampling time_length onset
    delay undershoot dispersion u_dispersion ratio = Ok h ->
  length h = Z.to_nat (py_int (time_length / (tr / Z2Qc oversampling))).
Proof.
  rewrite gamma_difference_hrf_samples. intros H. bind_inv H as raw Hraw.
  injection H as <-. rewrite length_map.
  exact (gamma_difference_samples_length _ _ _ _ _ _ _ _ _ _ _ Hraw).
Qed.

(** X6 ([_gamma_difference_hrf], lines 31-38; [spm_hrf], [glover_hrf]).
    A response kernel has as many samples as the un-normalised difference
    of the two gamma densities, and when the sum of these is not zero
    the kernel sums to 1. *)
Theorem response_kernel_sums_to_one (gamma_pdf : Qc -> Qc -> Qc -> Qc)
    (tr : Qc) (oversampling : Z)
    (time_length onset delay undershoot dispersion u_dispersion ratio : Qc) (h : vec) :
  _gamma_difference_hrf gamma_pdf tr oversampling time_length onset
    delay undershoot dispersion u_dispersion ratio = Ok h ->
  exists raw,
    gamma_difference_samples gamma_pdf tr oversampling time_length onset
      delay undershoot dispersion u_dispersion ratio = Ok raw /\
    length h = length raw /\
    (Np.sum raw <> 0 -> Np.sum h = 1).
Proof.
  rewrite gamma_difference_hrf_samples. intros H. bind_inv H as raw Hraw.
  injection H as <-. exists raw. split; [exact Hraw|]. split.
  - apply length_map.
  - apply sum_normalised.
Qed.

Lemma response_kernel_sums_to_one_witness :
  exists h, spm_hrf (fun t a l => t + a + l) (qz 2) 4 (qz 32) (qz 0) = Ok h /\
    length h = 64%nat /\ Np.sum h = 1.
Proof.
  set (g := fun t a l : Qc => t + a + l).
  destruct (spm_hrf g (qz 2) 4 (qz 32) (qz 0)) as [h|e] eqn:E;
    [|vm_compute in E; discriminate].
  exists h. split; [reflexivity|].
  destruct (response_kernel_sums_to_one g _ _ _ _ _ _ _ _ _ h E) as [raw [R [L S]]].
  split.
  - rewrite L.
    assert (R' := f_equal (fun x => match x with Ok v => length v | Err _ => 0%nat end) R).
    vm_compute in R'. symmetry. exact R'.
  - apply S.
    assert (R' := f_equal (fun x => match x with
                                    | Ok v => Qc_eq_bool (Np.sum v) 0
                                    | Err _ => true end) R).
    cbv beta iota in R'.
    apply Qc_neq_by_bool. rewrite <- R'. vm_compute. reflexivity.
Defined.

Lemma time_derivative_sum (c : Qc) (h1 h0 : vec) :
  length h1 = length h0 -> Np.sum h1 = 1 -> Np.sum h0 = 1 ->
  Np.sum (Np.scale c (Np.vsub h1 h0)) = 0.
Proof.
  intros L S1 S0. rewrite sum_scale, (sum_vsub _ _ L), S1, S0. ring.
Qed.

Lemma nonzero_mass_kernel (gamma_pdf : Qc -> Qc -> Qc -> Qc)
    (tr : Qc) (oversampling : Z)
    (time_length onset delay undershoot dispersion u_dispersion ratio : Qc) :
  nonzero_mass gamma_pdf tr oversampling time_length onset
    delay undershoot dispersion u_dispersion ratio ->
  exists h,
    _gamma_difference_hrf gamma_pdf tr oversampling time_length onset
      delay undershoot dispersion u_dispersion ratio = Ok h /\
    length h = Z.to_nat (py_int (time_length / (tr / Z2Qc oversampling))) /\
    Np.sum h = 1.
Proof.
  intros [raw [R S]]. rewrite gamma_difference_hrf_samples, R. cbn [bind].
  eexists. split; [reflexivity|]. split.
  - rewrite length_map. exact (gamma_difference_samples_length _ _ _ _ _ _ _ _ _ _ _ R).
  - apply sum_normalised. exact S.
Qed.

(** X7 ([spm_time_derivative], [glover_time_derivative],
    [spm_dispersion_derivative], lines 83-156).  A derivative kernel is a
    scaled difference of two response kernels and is not normalised again:
    when the two response kernels have non-zero mass before normalisation,
    the derivative kernel exists, has as many samples as they have, and
    sums to 0. *)
Theorem derivative_kernels_sum_to_zero (gamma_pdf : Qc -> Qc -> Qc -> Qc)
    (tr : Qc) (oversampling : Z) (time_length onset : Qc) :
  let len := Z.to_nat (py_int (time_length / (tr / Z2Qc oversampling))) in
  (nonzero_mass gamma_pdf tr oversampling time_length (onset + qf 1 10)
     (qz 6) (qz 16) (qz 1) (qz 1) (qf 167 1000) ->
   nonzero_mass gamma_pdf tr oversampling time_length onset
     (qz 6) (qz 16) (qz 1) (qz 1) (qf 167 1000) ->
   exists d, spm_time_derivative gamma_pdf tr oversampling time_length onset = Ok d /\
     length d = len /\ Np.sum d = 0) /\
  (nonzero_mass gamma_pdf tr oversampling time_length (onset + qf 1 10)
     (qz 6) (qz 12) (qf 9 10) (qf 9 10) (qf 35 100) ->
   nonzero_mass gamma_pdf tr oversampling time_length onset
     (qz 6) (qz 12) (qf 9 10) (qf 9 10) (qf 35 100) ->
   exists d, glover_time_derivative gamma_pdf tr oversampling time_length onset = Ok d /\
     length d = len /\ Np.sum d = 0) /\
  (nonzero_mass gamma_pdf tr oversampling time_length onset
     (qz 6) (qz 16) (1 + qf 1 100) (qz 1) (qf 167 1000) ->
   nonzero_mass gamma_pdf tr oversampling time_length onset
     (qz 6) (qz 16) (qz 1) (qz 1) (qf 167 1000) ->
   exists d, spm_dispersion_derivative gamma_pdf tr oversampling time_length onset = Ok d /\
     length d = len /\ Np.sum d = 0).
Proof.
  intros len.
  assert (K : forall h1 h0 c, length h1 = len -> length h0 = len ->
            Np.sum h1 = 1 -> Np.sum h0 = 1 ->
            length (Np.scale c (Np.vsub h1 h0)) = len /\
            Np.sum (Np.scale c (Np.vsub h1 h0)) = 0).
  { intros h1 h0 c L1 L0 S1 S0. split.
    - rewrite scale_length, vsub_length, L1, L0. apply Nat.min_id.
    - apply time_derivative_sum; [rewrite L1, L0; reflexivity|assumption|assumption]. }
  split; [|split]; intros M1 M0;
    destruct (nonzero_mass_kernel _ _ _ _ _ _ _ _ _ _ M1) as [h1 [E1 [L1 S1]]];
    destruct (nonzero_mass_kernel _ _ _ _ _ _ _ _ _ _ M0) as [h0 [E0 [L0 S0]]].
  - unfold spm_time_derivative, spm_hrf. rewrite E1, E0. cbn [bind].
    eexists. split; [reflexivity|]. apply K; assumption.
  - unfold glover_time_derivative, glover_hrf. rewrite E1, E0. cbn [bind].
    eexists. split; [reflexivity|]. apply K; assumption.
  - unfold spm_dispersion_derivative, spm_hrf. rewrite E1, E0. cbn [bind].
    eexists. split; [reflexivity|]. apply K; assumption.
Qed.
Lemma derivative_kernels_sum_to_zero_witness :
  exists d, spm_time_derivative (fun t a l => t + a + l) (qz 4) 1 (qz 32) (qz 0) = Ok d /\
    length d = 8%nat /\ Np.sum d = 0.
Proof.
  set (g := fun t a l : Qc => t + a + l).
  assert (M : forall onset, In onset [qz 0 + qf 1 10; qz 0] ->
            nonzero_mass g (qz 4) 1 (qz 32) onset (qz 6) (qz 16) (qz 1) (qz 1) (qf 167 1000)).
  { intros onset Hin. unfold nonzero_mass.
    destruct (gamma_difference_samples g (qz 4) 1 (qz 32) onset (qz 6) (qz 16) (qz 1) (qz 1)
                (qf 167 1000)) as [raw|e] eqn:R.
    - exists raw. split; [reflexivity|].
      assert (R' := f_equal (fun x => match x with
                                      | Ok v => Qc_eq_bool (Np.sum v) 0
                                      | Err _ => true end) R).
      cbv beta iota in R'. apply Qc_neq_by_bool. rewrite <- R'.
      destruct Hin as [<-|[<-|[]]]; vm_compute; reflexivity.
    - exfalso. destruct Hin as [<-|[<-|[]]]; vm_compute in R; discriminate. }
  exact (proj1 (derivative_kernels_sum_to_zero g (qz 4) 1 (qz 32) (qz 0))
           (M _ (or_introl eq_refl)) (M _ (or_intror (or_introl eq_refl)))).
Defined.

Lemma time_derivative_length (c : Qc) (h1 h0 : vec) (len : nat) :
  length h1 = len -> length h0 = len -> length (Np.scale c (Np.vsub h1 h0)) = len.
Proof.
  intros L1 L0. rewrite scale_length, vsub_length, L1, L0. apply Nat.min_id.
Qed.

(** X8 ([_hrf_kernel], lines 316-329, with the kernel builders).  For the
    five gamma models every kernel of the list has the same number of
    samples, [int(32 / (tr / oversampling))] (none when that is negative),
    so that the response kernel and its derivatives are sampled alike. *)
Theorem hrf_kernel_same_length (gamma_pdf : Qc -> Qc -> Qc -> Qc) (m : string) (tr : Qc)
    (oversampling : Z) (fir_delays : option (list Z)) (ks : list vec) :
  _hrf_kernel gamma_pdf m tr oversampling fir_delays = Ok ks ->
  m <> "fir"%string ->
  Forall (fun k => length k = Z.to_nat (py_int (qz 32 / (tr / Z2Qc oversampling)))) ks.
Proof.
  intros H Hfir. apply String.eqb_neq in Hfir. unfold _hrf_kernel in H.
  rewrite Hfir in H. change time_length0 with (qz 32) in H.
  assert (G := gamma_difference_hrf_length gamma_pdf tr oversampling (qz 32)).
  assert (T : forall onset d,
            spm_time_derivative gamma_pdf tr oversampling (qz 32) onset = Ok d ->
            length d = Z.to_nat (py_int (qz 32 / (tr / Z2Qc oversampling)))).
  { unfold spm_time_derivative, spm_hrf. intros onset d Hd.
    bind_inv Hd as h1 H1. bind_inv Hd as h0 H0. injection Hd as <-.
    apply time_derivative_length; eapply G; eassumption. }
  assert (T' : forall onset d,
            glover_time_derivative gamma_pdf tr oversampling (qz 32) onset = Ok d ->
            length d = Z.to_nat (py_int (qz 32 / (tr / Z2Qc oversampling)))).
  { unfold glover_time_derivative, glover_hrf. intros onset d Hd.
    bind_inv Hd as h1 H1. bind_inv Hd as h0 H0. injection Hd as <-.
    apply time_derivative_length; eapply G; eassumption. }
  assert (D : forall onset d,
            spm_dispersion_derivative gamma_pdf tr oversampling (qz 32) onset = Ok d ->
            length d = Z.to_nat (py_int (qz 32 / (tr / Z2Qc oversampling)))).
  { unfold spm_dispersion_derivative, spm_hrf. intros onset d Hd.
    bind_inv Hd as h1 H1. bind_inv Hd as h0 H0. injection Hd as <-.
    apply time_derivative_length; eapply G; eassumption. }
  unfold spm_hrf, glover_hrf in H.
  destruct (String.eqb m "spm").
  { bind_inv H as h Hh. injection H as <-. repeat constructor. eapply G; eassumption. }
  destruct (String.eqb m "spm_time").
  { bind_inv H as h Hh. bind_inv H as d Hd. injection H as <-.
    repeat constructor; [eapply G|eapply T]; eassumption. }
  destruct (String.eqb m "spm_time_dispersion").
  { bind_inv H as h Hh. bind_inv H as d Hd. bind_inv H as s Hs. injection H as <-.
    repeat constructor; [eapply G|eapply T|eapply D]; eassumption. }
  destruct (String.eqb m "canonical").
  { bind_inv H as h Hh. injection H as <-. repeat constructor. eapply G; eassumption. }
  destruct (String.eqb m "canonical with derivative").
  { bind_inv H as h Hh. bind_inv H as d Hd. injection H as <-.
    repeat constructor; [eapply G|eapply T']; eassumption. }
  discriminate.
Qed.

Lemma hrf_kernel_same_length_witness :
  exists ks, _hrf_kernel (fun t a l => t + a + l) "spm_time_dispersion" (qz 4) 1 None = Ok ks /\
    length ks = 3%nat /\ Forall (fun k => length k = 8%nat) ks.
Proof.
  set (g := fun t a l : Qc => t + a + l).
  destruct (_hrf_kernel g "spm_time_dispersion" (qz 4) 1 None) as [ks|e] eqn:E;
    [|vm_compute in E; discriminate].
  exists ks. split; [reflexivity|]. split.
  - assert (E' := f_equal (fun x => match x with Ok v => length v | Err _ => 0%nat end) E).
    vm_compute in E'. symmetry. exact E'.
  - assert (H := hrf_kernel_same_length g _ _ _ _ _ E).
    assert (L : Z.to_nat (py_int (qz 32 / (qz 4 / Z2Qc 1))) = 8%nat) by (vm_compute; reflexivity).
    rewrite L in H. apply H. discriminate.
Defined.

Lemma nth_ones (n j : nat) : nth j (Np.ones n) 0 = if (j <? n)%nat then 1 else 0.
Proof.
  unfold Np.ones. revert j. induction n as [|n IH]; intros [|j]; cbn [repeat nth]; try reflexivity.
  rewrite IH. reflexivity.
Qed.

Lemma ones_length (n : nat) : length (Np.ones n) = n.
Proof. apply repeat_length. Qed.

Lemma fir_kernel_eval (oversampling f : Z) :
  (1 <= oversampling)%Z -> (0 <= f)%Z ->
  fir_kernel oversampling f
  = Ok (Np.zeros (Z.to_nat (f * oversampling)) ++ Np.ones (Z.to_nat oversampling)).
Proof.
  intros Hos Hf. unfold fir_kernel, Np.zerosZ, Np.onesZ.
  replace (f * oversampling <? 0)%Z with false by (symmetry; apply Z.ltb_ge; nia).
  replace (oversampling <? 0)%Z with false by (symmetry; apply Z.ltb_ge; lia).
  reflexivity.
Qed.

Lemma fir_kernel_negative (oversampling f : Z) :
  (1 <= oversampling)%Z -> (f < 0)%Z ->
  fir_kernel oversampling f = Err (ValueError "negative dimensions are not allowed").
Proof.
  intros Hos Hf. unfold fir_kernel, Np.zerosZ.
  replace (f * oversampling <? 0)%Z with true by (symmetry; apply Z.ltb_lt; nia).
  reflexivity.
Qed.

(** X9 ([_hrf_kernel], lines 330-333).  With an oversampling factor of at
    least 1, the FIR kernel of a non-negative delay [f] has
    [(f + 1) * oversampling] samples and is 1 exactly on the indices from
    [f * oversampling] on; a negative delay anywhere in [fir_delays] makes
    the selector raise [ValueError]. *)
Theorem fir_kernels (gamma_pdf : Qc -> Qc -> Qc -> Qc) (tr : Qc) (oversampling : Z)
    (ds : list Z) :
  (1 <= oversampling)%Z ->
  (Forall (fun f => (0 <= f)%Z) ds ->
   exists ks, _hrf_kernel gamma_pdf "fir" tr oversampling (Some ds) = Ok ks /\
     length ks = length ds /\
     forall i, (i < length ds)%nat ->
       let f := nth i ds 0%Z in
       let k := nth i ks [] in
       Z.of_nat (length k) = ((f + 1) * oversampling)%Z /\
       forall j, nth j k 0 =
         if ((f * oversampling <=? Z.of_nat j) && (Z.of_nat j <? (f + 1) * oversampling))%Z
         then 1 else 0) /\
  (Exists (fun f => (f < 0)%Z) ds ->
   _hrf_kernel gamma_pdf "fir" tr oversampling (Some ds)
   = Err (ValueError "negative dimensions are not allowed")).
Proof.
  intros Hos. change (_hrf_kernel gamma_pdf "fir" tr oversampling (Some ds))
    with (mapM (fir_kernel oversampling) ds).
  split.
  - intros Hds.
    exists (map (fun f => Np.zeros (Z.to_nat (f * oversampling))
                          ++ Np.ones (Z.to_nat oversampling)) ds).
    split; [|split].
    + induction Hds as [|f ds Hf _ IH]; [reflexivity|].
      cbn [mapM map]. rewrite (fir_kernel_eval _ _ Hos Hf), IH. reflexivity.
    + apply length_map.
    + intros i Hi f k.
      assert (Hf : (0 <= f)%Z).
      { exact (proj1 (Forall_forall _ _) Hds f (nth_In ds 0%Z Hi)). }
      assert (Ek : k = Np.zeros (Z.to_nat (f * oversampling))
                       ++ Np.ones (Z.to_nat oversampling)).
      { unfold k, f.
        exact (nth_map_lt _ ds i _ 0%Z Hi). }
      rewrite Ek. split.
      * rewrite length_app, zeros_length, ones_length. nia.
      * intros j.
        destruct (Nat.lt_ge_cases j (Z.to_nat (f * oversampling))) as [Hj|Hj].
        -- rewrite app_nth1 by (rewrite zeros_length; exact Hj).
           rewrite nth_zeros.
           replace (f * oversampling <=? Z.of_nat j)%Z with false
             by (symmetry; apply Z.leb_gt; nia).
           reflexivity.
        -- rewrite app_nth2 by (rewrite zeros_length; exact Hj).
           rewrite zeros_length, nth_ones.
           replace (f * oversampling <=? Z.of_nat j)%Z with true
             by (symmetry; apply Z.leb_le; nia).
           cbn [andb].
           destruct (Nat.ltb_spec (j - Z.to_nat (f * oversampling)) (Z.to_nat oversampling));
             destruct (Z.ltb_spec (Z.of_nat j) ((f + 1) * oversampling)); try reflexivity; nia.
  - induction 1 as [f ds Hf|f ds Hex IH].
    + cbn [mapM]. rewrite (fir_kernel_negative _ _ Hos Hf). reflexivity.
    + cbn [mapM]. destruct (Z.lt_ge_cases f 0) as [Hf|Hf].
      * rewrite (fir_kernel_negative _ _ Hos Hf). reflexivity.
      * rewrite (fir_kernel_eval _ _ Hos (proj1 (Z.ge_le_iff _ _) (Z.le_ge _ _ Hf))), IH.
        reflexivity.
Qed.

Lemma fir_kernels_witness :
  _hrf_kernel (fun _ _ _ => 0) "fir" (qz 2) 2 (Some [0; 2]%Z)
    = Ok [[1; 1]; [0; 0; 0; 0; 1; 1]] /\
  _hrf_kernel (fun _ _ _ => 0) "fir" (qz 2) 2 (Some [0; -1]%Z)
    = Err (ValueError "negative dimensions are not allowed").
Proof.
  destruct (fir_kernels (fun _ _ _ => 0) (qz 2) 2 [0; 2]%Z) as [[ks [E _]] _];
    [lia|repeat constructor; lia|].
  split.
  - reflexivity.
  - apply (fir_kernels (fun _ _ _ => 0) (qz 2) 2 [0; -1]%Z); [lia|].
    apply Exists_cons_tl. apply Exists_cons_hd. lia.
Defined.
(** ** Regressor names *)

Lemma append_inj_l (s a b : string) : (s ++ a = s ++ b)%string -> a = b.
Proof.
  induction s as [|c s IH]; cbn [append]; intros H; [exact H|].
  injection H as H. exact (IH H).
Qed.

Lemma append_neq_self (s a : string) : a <> ""%string -> s <> (s ++ a)%string.
Proof.
  intros Ha. induction s as [|c s IH]; cbn [append]; intros H.
  - apply Ha. symmetry. exact H.
  - injection H as H. exact (IH H).
Qed.

(** ["%d" % i] determines [i]. *)
Lemma format_d_inj (a b : Z) : format_d a = format_d b -> a = b.
Proof.
  unfold format_d. intros H. apply DecimalZ.to_int_inj.
  assert (N : forall z, Z.to_int z <> Decimal.Pos Decimal.Nil /\
                        Z.to_int z <> Decimal.Neg Decimal.Nil).
  { intros z. destruct z as [|p|p]; cbn [Z.to_int]; split; try discriminate;
      intros E; injection E as E;
      exact (DecimalPos.Unsigned.to_uint_nonnil p E). }
  assert (Sa := NilZero.isi (Z.to_int a) (proj1 (N a)) (proj2 (N a))).
  assert (Sb := NilZero.isi (Z.to_int b) (proj1 (N b)) (proj2 (N b))).
  rewrite H in Sa. rewrite Sa in Sb. injection Sb as Sb. exact Sb.
Qed.

Lemma NoDup_map_inj {A B : Type} (f : A -> B) (l : list A) :
  (forall x y, f x = f y -> x = y) -> NoDup l -> NoDup (map f l).
Proof.
  intros Hf. induction 1 as [|x l Hx _ IH]; cbn [map]; constructor; [|exact IH].
  intros Hin. apply in_map_iff in Hin. destruct Hin as [y [E Hy]].
  apply Hf in E. subst y. exact (Hx Hy).
Qed.

(** X10 ([_regressor_names], lines 283-294).  The names returned for a
    condition are pairwise distinct: always for the five gamma models, and
    for ['fir'] as soon as the delays are pairwise distinct. *)
Theorem regressor_names_distinct (con_name m : string) (fir_delays : option (list Z))
    (names : list string) :
  _regressor_names con_name m fir_delays = Ok (Some names) ->
  (forall ds, fir_delays = Some ds -> NoDup ds) ->
  NoDup names.
Proof.
  unfold _regressor_names. intros H Hds.
  assert (N1 : NoDup [con_name]) by (constructor; [intros []|constructor]).
  assert (D1 : con_name <> (con_name ++ "_derivative")%string)
    by (apply append_neq_self; discriminate).
  assert (D2 : con_name <> (con_name ++ "_dispersion")%string)
    by (apply append_neq_self; discriminate).
  assert (D3 : (con_name ++ "_derivative")%string <> (con_name ++ "_dispersion")%string).
  { intros E. apply append_inj_l in E. discriminate. }
  assert (N2 : NoDup [con_name; (con_name ++ "_derivative")%string]).
  { constructor; [|constructor; [intros []|constructor]].
    intros [E|[]]. exact (D1 (eq_sym E)). }
  destruct (String.eqb m "canonical"); [injection H as <-; exact N1|].
  destruct (String.eqb m "canonical with derivative"); [injection H as <-; exact N2|].
  destruct (String.eqb m "spm"); [injection H as <-; exact N1|].
  destruct (String.eqb m "spm_time"); [injection H as <-; exact N2|].
  destruct (String.eqb m "spm_time_dispersion").
  { injection H as <-. constructor; [|constructor; [|constructor; [intros []|constructor]]].
    - intros [E|[E|[]]]; [exact (D1 (eq_sym E))|exact (D2 (eq_sym E))].
    - intros [E|[]]. exact (D3 (eq_sym E)). }
  destruct (String.eqb m "fir"); [|discriminate].
  destruct fir_delays as [ds|]; [|discriminate].
  injection H as <-. apply NoDup_map_inj; [|apply Hds; reflexivity].
  intros x y E. apply append_inj_l in E. apply (append_inj_l "_delay_") in E.
  exact (format_d_inj _ _ E).
Qed.

Lemma regressor_names_distinct_witness :
  _regressor_names "cond" "fir" (Some [0; 1; 12; -3]%Z)
    = Ok (Some ["cond_delay_0"; "cond_delay_1"; "cond_delay_12"; "cond_delay_-3"]%string) /\
  NoDup ["cond_delay_0"; "cond_delay_1"; "cond_delay_12"; "cond_delay_-3"]%string.
Proof.
  split; [reflexivity|].
  apply (regressor_names_distinct "cond" "fir" (Some [0; 1; 12; -3]%Z)); [reflexivity|].
  intros ds E. injection E as <-.
  repeat constructor; cbn [In]; intuition discriminate.
Defined.
(** ** The orthogonaliser *)

Lemma isub_col_other (X : matrix) (i j : nat) (w : vec) (X' : matrix) :
  Np.isub_col X i w = Ok X' -> j <> i -> Np.col j X' = Np.col j X.
Proof.
  unfold Np.isub_col, Np.shape0. intros H Hj.
  destruct (length w =? length X)%nat eqn:E1.
  - apply Nat.eqb_eq in E1. injection H as <-.
    apply col_sub_col_other; assumption.
  - destruct (length w =? 1)%nat; [|discriminate].
    injection H as <-. unfold Np.col. rewrite map_map. apply map_ext.
    intros r. apply nth_upd_other. exact Hj.
Qed.

Lemma orth_step_other (pinv : matrix -> matrix) (i j : nat) (X X' : matrix) :
  orth_step pinv i X = Ok X' -> j <> i -> Np.col j X' = Np.col j X.
Proof.
  unfold orth_step. intros H Hj. bind_inv H as P HP. bind_inv H as w Hw.
  exact (isub_col_other X i j w X' H Hj).
Qed.

Lemma orth_loop_other (pinv : matrix -> matrix) (range : list nat) (j : nat) :
  ~ In j range ->
  forall X X', orth_loop pinv range X = Ok X' -> Np.col j X' = Np.col j X.
Proof.
  induction range as [|i range IH]; intros Hj X X' H.
  - injection H as <-. reflexivity.
  - cbn [orth_loop] in H. bind_inv H as X1 H1.
    rewrite (IH (fun C => Hj (or_intror C)) X1 X' H).
    apply (orth_step_other pinv i j X X1 H1).
    intros E. apply Hj. left. symmetry. exact E.
Qed.

(** X11 ([_orthogonalize], lines 260-265).  Whatever [pinv] returns, when
    the orthogonaliser returns at all it returns an array with as many rows
    as its argument, rows of the same lengths, and the same first column:
    the first regressor of a condition is never altered. *)
Theorem orthogonalize_keeps_first_column (pinv : matrix -> matrix) (X Y : matrix) :
  _orthogonalize pinv X = Ok Y ->
  length Y = length X /\
  (forall k, Forall (fun r => length r = k) X -> Forall (fun r => length r = k) Y) /\
  Np.col 0 Y = Np.col 0 X.
Proof.
  intros H. split; [|split].
  - exact (proj1 (orthogonalize_shape pinv X Y 0 H)).
  - intros k. exact (proj2 (orthogonalize_shape pinv X Y k H)).
  - unfold _orthogonalize in H. destruct (Np.size X =? Np.shape0 X)%nat.
    + injection H as <-. reflexivity.
    + apply (orth_loop_other pinv (seq 1 (Np.shape1 X - 1)) 0); [|exact H].
      intros C. apply in_seq in C. lia.
Qed.

Lemma orthogonalize_keeps_first_column_witness :
  exists Y, _orthogonalize (fun A => Np.transpose (Np.shape1 A) A)
              [[qz 1; qz 1]; [qz 1; qz 2]] = Ok Y /\
    length Y = 2%nat /\ Np.col 0 Y = [qz 1; qz 1].
Proof.
  set (pinv := fun A : matrix => Np.transpose (Np.shape1 A) A).
  set (X := [[qz 1; qz 1]; [qz 1; qz 2]]).
  destruct (_orthogonalize pinv X) as [Y|e] eqn:E; [|vm_compute in E; discriminate].
  exists Y. split; [reflexivity|].
  destruct (orthogonalize_keeps_first_column pinv X Y E) as [L [_ C]].
  split; [exact L|exact C].
Defined.

Lemma col_cols_before (X : matrix) (j k : nat) :
  (k < j)%nat -> Np.col k (Np.cols_before j X) = Np.col k X.
Proof.
  intros Hk. unfold Np.col, Np.cols_before. rewrite map_map. apply map_ext.
  intros r. rewrite nth_firstn.
  replace (k <? j)%nat with true by (symmetry; apply Nat.ltb_lt; exact Hk).
  reflexivity.
Qed.

Lemma ortho_dot (n p : nat) (Y : matrix) (j k : nat) :
  rect n p Y -> (j <= p)%nat -> (k < j)%nat -> ortho Y j ->
  dotv (Np.col j Y) (Np.col k Y) = 0.
Proof.
  intros RY Hj Hk HO. unfold ortho in HO.
  assert (E := f_equal (fun v => nth k v 0) HO). cbv beta in E.
  rewrite nth_zeros in E.
  rewrite nth_lincomb in E by (exact (proj2 (cols_before_rect n p Y j RY Hj))).
  rewrite col_cols_before in E by exact Hk. exact E.
Qed.

(** X12 ([_orthogonalize], lines 260-265).  On a 2-D array, when every
    array returned by [pinv] during the loop has the transposed shape of
    its argument and satisfies [A P A = A], the orthogonaliser returns an
    array of the same shape in which every column is orthogonal to every
    column before it. *)
Theorem orthogonalize_columns_orthogonal (pinv : matrix -> matrix) (X : matrix) :
  rectangular X ->
  Forall (fun A => penrose1 A (pinv A))
         (pinv_calls pinv (seq 1 (Np.shape1 X - 1)) X) ->
  exists Y, _orthogonalize pinv X = Ok Y /\
    rect (Np.shape0 X) (Np.shape1 X) Y /\
    forall j k, (k < j < Np.shape1 X)%nat -> dotv (Np.col j Y) (Np.col k Y) = 0.
Proof.
  intros HX Hcalls. unfold rectangular in HX.
  set (n := Np.shape0 X) in *. set (p := Np.shape1 X) in *.
  destruct (Nat.eq_dec n 0) as [Hn0|Hn0].
  { exists X. split; [|split; [exact HX|]].
    - unfold _orthogonalize, Np.size. fold n. rewrite Hn0. reflexivity.
    - intros j k _. unfold n, Np.shape0 in Hn0.
      destruct X; [reflexivity|discriminate]. }
  assert (Hn : (1 <= n)%nat) by lia.
  destruct (Nat.eq_dec p 1) as [Hp1|Hp1].
  { exists X. split; [|split; [exact HX|]].
    - unfold _orthogonalize. rewrite (early_return_iff n p X HX Hn).
      now rewrite (proj2 (Nat.eqb_eq p 1) Hp1).
    - intros j k Hjk. lia. }
  destruct (Nat.eq_dec p 0) as [Hp0|Hp0].
  { exists X. split; [|split; [exact HX|]].
    - unfold _orthogonalize. fold p. rewrite Hp0.
      destruct (Np.size X =? Np.shape0 X)%nat; reflexivity.
    - intros j k Hjk. lia. }
  destruct (orth_loop_orthogonalizes pinv n p Hn (p - 1) 1 X) as [Y [HY [RY SY]]].
  { lia. }
  { lia. }
  { exact HX. }
  { exact Hcalls. }
  { intros j Hj. lia. }
  exists Y. split; [|split; [exact RY|]].
  - unfold _orthogonalize. rewrite (early_return_iff n p X HX Hn).
    rewrite (proj2 (Nat.eqb_neq p 1) Hp1). exact HY.
  - intros j k Hjk. apply (ortho_dot n p Y j k RY); [lia|lia|].
    apply (SY j). lia.
Qed.

Lemma orthogonalize_columns_orthogonal_witness :
  let X := [[qz 1; qz 1]; [qz 1; qz 2]] in
  exists Y, _orthogonalize pinv_column X = Ok Y /\
    dotv (Np.col 1 Y) (Np.col 0 Y) = 0.
Proof.
  intros X.
  destruct (orthogonalize_columns_orthogonal pinv_column X) as [Y [E [_ O]]].
  - unfold rectangular, rect. split; [reflexivity|]. repeat constructor.
  - cbn [Np.shape1 hd length Nat.sub seq pinv_calls].
    constructor; [|destruct (orth_step pinv_column 1 X); constructor].
    unfold penrose1, pinv_shape, rect. split; [split; [reflexivity|repeat constructor]|].
    apply mat_eqb_eq. vm_compute. reflexivity.
  - exists Y. split; [exact E|]. apply O. cbn. lia.
Defined.
(** ** The resampler *)

Lemma in_insert_by (p q : Qc * nat) (l : list (Qc * nat)) :
  In p (Scipy.insert_by q l) <-> p = q \/ In p l.
Proof.
  induction l as [|r l IH]; cbn [Scipy.insert_by].
  - cbn [In]. intuition congruence.
  - destruct (Qc_ltb (fst r) (fst q)); cbn [In]; rewrite ?IH; intuition congruence.
Qed.

Lemma in_sorted (p : Qc * nat) (l : list (Qc * nat)) :
  In p (fold_right Scipy.insert_by [] l) <-> In p l.
Proof.
  induction l as [|q l IH]; cbn [fold_right]; [tauto|].
  rewrite in_insert_by, IH. cbn [In]. intuition congruence.
Qed.

Lemma in_combine_seq (x : vec) (s : nat) (v : Qc) (j : nat) :
  In (v, j) (combine x (seq s (length x))) -> (s <= j)%nat /\ nth (j - s) x 0 = v /\
  (j - s < length x)%nat.
Proof.
  revert s. induction x as [|a x IH]; intros s; cbn [length seq combine In]; [tauto|].
  intros [E|H].
  - injection E as <- <-. rewrite Nat.sub_diag. cbn [nth]. repeat split; lia.
  - destruct (IH (S s) H) as [H1 [H2 H3]].
    replace (j - s)%nat with (S (j - S s)) by lia. cbn [nth]. repeat split; try lia.
    exact H2.
Qed.

(** The sorted abscissae are samples of the grid. *)
Lemma take_argsort_in (x : vec) (v : Qc) :
  In v (Scipy.take (Scipy.argsort x) x) -> In v x.
Proof.
  unfold Scipy.take, Scipy.argsort. rewrite map_map. intros H.
  apply in_map_iff in H. destruct H as [[w j] [E H]]. cbn [snd] in E.
  apply (proj1 (in_sorted _ _)) in H. apply in_combine_seq in H. destruct H as [_ [_ H]].
  rewrite Nat.sub_0_r in H. subst v. apply nth_In. exact H.
Qed.

Lemma insert_by_length (p : Qc * nat) (l : list (Qc * nat)) :
  length (Scipy.insert_by p l) = S (length l).
Proof.
  induction l as [|q l IH]; cbn [Scipy.insert_by]; [reflexivity|].
  destruct (Qc_ltb (fst q) (fst p)); cbn [length]; rewrite ?IH; reflexivity.
Qed.

Lemma take_argsort_length (x : vec) : length (Scipy.take (Scipy.argsort x) x) = length x.
Proof.
  unfold Scipy.take, Scipy.argsort. rewrite !length_map.
  assert (L : forall l, length (fold_right Scipy.insert_by [] l) = length l).
  { induction l as [|q l IH]; cbn [fold_right]; [reflexivity|].
    rewrite insert_by_length, IH. reflexivity. }
  rewrite L, length_combine, length_seq. apply Nat.min_id.
Qed.

Lemma existsb_in {A : Type} (f : A -> bool) (l : list A) (a : A) :
  In a l -> f a = true -> existsb f l = true.
Proof.
  intros Hin Hf. apply existsb_exists. exists a. split; assumption.
Qed.

(** X13 ([_resample_regressor], lines 238-240).  When some frame time is
    smaller than every grid sample, or larger than every grid sample, the
    resampler raises: [interp1d] is built with its default
    [bounds_error] and nothing is extrapolated. *)
Theorem resample_out_of_range (rows : matrix) (hr frame_times : vec) :
  (exists t, In t frame_times /\
     ((forall x, In x hr -> t < x) \/ (forall x, In x hr -> x < t))) ->
  exists e, _resample_regressor rows hr frame_times = Err e.
Proof.
  intros [t [Ht Hout]]. unfold _resample_regressor, Scipy.interp1d.
  destruct (Scipy.interp1d_init hr rows) as [[xs ys]|e] eqn:E; [|eexists; reflexivity].
  destruct (interp1d_init_rows hr rows xs ys E) as [_ [L ->]]. cbn [bind].
  set (xs := Scipy.take (Scipy.argsort hr) hr).
  assert (Lx : length xs = length hr) by apply take_argsort_length.
  assert (Hne : xs <> []) by (intros C; rewrite C in Lx; cbn [length] in Lx; lia).
  assert (Hhd : In (hd 0 xs) hr).
  { apply take_argsort_in. fold xs. destruct xs; [congruence|left; reflexivity]. }
  assert (Hla : In (last xs 0) hr).
  { apply take_argsort_in. fold xs.
    destruct (exists_last Hne) as [l [a El]]. rewrite El, last_last.
    apply in_or_app. right. left. reflexivity. }
  unfold Scipy.check_bounds.
  destruct (existsb (fun t0 => Qc_ltb t0 (hd 0 xs)) frame_times) eqn:B1;
    [eexists; reflexivity|].
  destruct Hout as [Hlow|Hhigh].
  - assert (C : existsb (fun t0 => Qc_ltb t0 (hd 0 xs)) frame_times = true).
    { apply (existsb_in _ _ t Ht). apply Qc_ltb_lt. apply Hlow. exact Hhd. }
    rewrite C in B1. discriminate.
  - assert (C : existsb (fun t0 => Qc_ltb (last xs 0) t0) frame_times = true).
    { apply (existsb_in _ _ t Ht). apply Qc_ltb_lt. apply Hhigh. exact Hla. }
    rewrite C. eexists. reflexivity.
Qed.

Lemma resample_out_of_range_witness :
  exists e, _resample_regressor [[qz 0; qz 1; qz 0]] [qz 0; qz 1; qz 2] [qz 1; qz 3] = Err e.
Proof.
  apply resample_out_of_range. exists (qz 3). split.
  - right. left. reflexivity.
  - right. intros x [<-|[<-|[<-|[]]]]; vm_compute; reflexivity.
Defined.

Lemma sorted_increasing (x : vec) (s : nat) :
  increasing x ->
  fold_right Scipy.insert_by [] (combine x (seq s (length x)))
  = combine x (seq s (length x)).
Proof.
  revert s. induction x as [|a x IH]; intros s Hinc; [reflexivity|].
  cbn [length seq combine fold_right].
  rewrite (IH (S s) (increasing_tail a x Hinc)).
  destruct x as [|b x]; [reflexivity|].
  cbn [length seq combine Scipy.insert_by fst].
  destruct Hinc as [Hab _].
  assert (B : Qc_ltb b a = false) by (apply Qc_ltb_ge; apply Qclt_le_weak; exact Hab).
  rewrite B. reflexivity.
Qed.

Lemma snd_combine_seq (x : vec) (s : nat) :
  map snd (combine x (seq s (length x))) = seq s (length x).
Proof.
  revert s. induction x as [|a x IH]; intros s; [reflexivity|].
  cbn [length seq combine map snd]. rewrite IH. reflexivity.
Qed.

Lemma argsort_increasing (x : vec) : increasing x -> Scipy.argsort x = seq 0 (length x).
Proof.
  intros H. unfold Scipy.argsort. rewrite (sorted_increasing x 0 H). apply snd_combine_seq.
Qed.

Lemma take_seq (r : vec) : Scipy.take (seq 0 (length r)) r = r.
Proof.
  unfold Scipy.take. apply vec_ext_lt.
  - rewrite length_map, length_seq. reflexivity.
  - intros j Hj. rewrite length_map, length_seq in Hj.
    rewrite (nth_map_lt _ _ j 0 0%nat) by (rewrite length_seq; exact Hj).
    rewrite seq_nth by exact Hj. reflexivity.
Qed.

Lemma increasing_nth_lt (x : vec) (k j : nat) :
  increasing x -> (k < j)%nat -> (j < length x)%nat -> nth k x 0 < nth j x 0.
Proof.
  revert k j. induction x as [|a x IH]; intros k j Hinc Hkj Hj; [cbn [length] in Hj; lia|].
  destruct j as [|j]; [lia|]. cbn [length] in Hj.
  assert (Ha := increasing_above a x Hinc).
  destruct k as [|k].
  - cbn [nth]. apply (proj1 (Forall_forall _ _) Ha). apply nth_In. lia.
  - cbn [nth]. apply IH; [exact (increasing_tail a x Hinc)|lia|lia].
Qed.

(** [searchsorted] returns the first index whose sample is not below [t]. *)
Lemma searchsorted1_char (a : vec) (t : Qc) (i : nat) :
  (i <= length a)%nat ->
  (forall k, (k < i)%nat -> nth k a 0 < t) ->
  ((i < length a)%nat -> t <= nth i a 0) ->
  Np.searchsorted1 a t = i.
Proof.
  revert i. induction a as [|x a IH]; intros i Hi Hlt Hge.
  - cbn [length] in Hi. cbn [Np.searchsorted1]. lia.
  - cbn [Np.searchsorted1]. destruct i as [|i].
    + assert (B : Qc_ltb x t = false).
      { apply Qc_ltb_ge. apply Hge. cbn [length]. lia. }
      rewrite B. reflexivity.
    + assert (B : Qc_ltb x t = true).
      { apply Qc_ltb_lt. apply (Hlt 0%nat). lia. }
      rewrite B. f_equal. apply IH.
      * cbn [length] in Hi. lia.
      * intros k Hk. apply (Hlt (S k)). lia.
      * intros Hi'. apply Hge. cbn [length]. lia.
Qed.

Lemma nth_col (i k : nat) (M : matrix) : nth k (Np.col i M) 0 = nth i (nth k M []) 0.
Proof.
  unfold Np.col. revert k. induction M as [|r M IH]; intros [|k]; cbn [map nth];
    try reflexivity; try (destruct i; reflexivity). apply IH.
Qed.

Lemma interp_linear_between (x y : vec) (t : Qc) (j : nat) :
  increasing x -> (S j < length x)%nat ->
  nth j x 0 <= t -> t <= nth (S j) x 0 ->
  Scipy.interp_linear x y t
  = nth j y 0 + (nth (S j) y 0 - nth j y 0) / (nth (S j) x 0 - nth j x 0) * (t - nth j x 0).
Proof.
  intros Hinc Hj Hlo Hhi.
  assert (Hstep : forall k, (S k < length x)%nat -> nth (S k) x 0 - nth k x 0 <> 0).
  { intros k Hk. assert (Hlt := increasing_nth_lt x k (S k) Hinc (Nat.lt_succ_diag_r k) Hk).
    apply Qc_pos_neq0. qc_lra. }
  unfold Scipy.interp_linear, Np.clip.
  destruct (Qc_eq_dec (nth j x 0) t) as [Heq|Hne].
  - (* [t] is the grid sample [j] *)
    assert (S1 : Np.searchsorted1 x t = j).
    { apply searchsorted1_char; [lia| |].
      - intros k Hk. rewrite <- Heq. apply increasing_nth_lt; [exact Hinc|exact Hk|lia].
      - intros _. rewrite <- Heq. apply Qcle_refl. }
    rewrite S1. destruct j as [|j].
    + replace (Z.to_nat (Z.min (Z.max (Z.of_nat 0) 1) (Z.of_nat (length x) - 1)))
        with 1%nat by lia.
      cbn [Nat.sub]. ring.
    + replace (Z.to_nat (Z.min (Z.max (Z.of_nat (S j)) 1) (Z.of_nat (length x) - 1)))
        with (S j) by lia.
      replace (S j - 1)%nat with j by lia.
      rewrite <- Heq. field. split; apply Hstep; lia.
  - assert (Hlt : nth j x 0 < t).
    { destruct (Qclt_le_dec (nth j x 0) t) as [L|G]; [exact L|].
      exfalso. apply Hne. apply Qcle_antisym; assumption. }
    assert (S1 : Np.searchsorted1 x t = S j).
    { apply searchsorted1_char; [lia| |].
      - intros k Hk. destruct (Nat.eq_dec k j) as [->|Hkj]; [exact Hlt|].
        apply Qclt_trans with (nth j x 0); [|exact Hlt].
        apply increasing_nth_lt; [exact Hinc|lia|lia].
      - intros _. exact Hhi. }
    rewrite S1.
    replace (Z.to_nat (Z.min (Z.max (Z.of_nat (S j)) 1) (Z.of_nat (length x) - 1)))
      with (S j) by lia.
    replace (S j - 1)%nat with j by lia. ring.
Qed.

Lemma interp1d_increasing (rows : matrix) (hr : vec) :
  increasing hr -> (2 <= length hr)%nat -> rows <> [] ->
  Forall (fun r => length r = length hr) rows ->
  Scipy.interp1d_init hr rows = Ok (hr, rows).
Proof.
  intros Hinc Hlen Hrows Hshape. unfold Scipy.interp1d_init.
  rewrite (argsort_increasing hr Hinc).
  destruct rows as [|r rows]; [congruence|].
  assert (Hr : length r = length hr) by (inversion Hshape; assumption).
  rewrite Hr, Nat.eqb_refl. cbn [negb].
  replace (length hr <? 2)%nat with false by (symmetry; apply Nat.ltb_ge; exact Hlen).
  destruct (seq 0 (length hr)) eqn:Es; [destruct hr; cbn in *; [lia|discriminate]|].
  rewrite <- Es. f_equal. f_equal; [apply take_seq|].
  rewrite <- (map_id (r :: rows)) at 2. apply map_ext_in.
  intros a Ha. rewrite <- (proj1 (Forall_forall _ _) Hshape a Ha). apply take_seq.
Qed.

Lemma check_bounds_ok (xs frame_times : vec) :
  Forall (fun t => hd 0 xs <= t /\ t <= last xs 0) frame_times ->
  Scipy.check_bounds xs frame_times = Ok tt.
Proof.
  intros H. unfold Scipy.check_bounds.
  destruct (existsb (fun t => Qc_ltb t (hd 0 xs)) frame_times) eqn:B1.
  { apply existsb_exists in B1. destruct B1 as [t [Ht B]].
    apply Qc_ltb_lt in B. destruct (proj1 (Forall_forall _ _) H t Ht) as [L _].
    exfalso. exact (Qclt_not_le _ _ B L). }
  destruct (existsb (fun t => Qc_ltb (last xs 0) t) frame_times) eqn:B2.
  { apply existsb_exists in B2. destruct B2 as [t [Ht B]].
    apply Qc_ltb_lt in B. destruct (proj1 (Forall_forall _ _) H t Ht) as [_ L].
    exfalso. exact (Qclt_not_le _ _ B L). }
  reflexivity.
Qed.

Lemma resample_increasing (rows : matrix) (hr frame_times : vec) :
  increasing hr -> (2 <= length hr)%nat -> rows <> [] ->
  Forall (fun r => length r = length hr) rows ->
  Forall (fun t => hd 0 hr <= t /\ t <= last hr 0) frame_times ->
  _resample_regressor rows hr frame_times
  = Ok (Np.transpose (length frame_times)
          (map (fun row => map (Scipy.interp_linear hr row) frame_times) rows)).
Proof.
  intros Hinc Hlen Hrows Hshape Hin. unfold _resample_regressor, Scipy.interp1d.
  rewrite (interp1d_increasing rows hr Hinc Hlen Hrows Hshape). cbn [bind].
  rewrite (check_bounds_ok hr frame_times Hin). reflexivity.
Qed.

Lemma nth_map_rows (f : vec -> Qc -> Qc) (rows : matrix) (ft : vec) (i k : nat) :
  (k < length rows)%nat -> (i < length ft)%nat ->
  nth i (nth k (map (fun row => map (f row) ft) rows) []) 0
  = f (nth k rows []) (nth i ft 0).
Proof.
  revert k. induction rows as [|r rows IH]; intros k Hk Hi; [cbn [length] in Hk; lia|].
  destruct k as [|k]; cbn [map nth].
  - apply nth_map_lt. exact Hi.
  - apply IH; [cbn [length] in Hk; lia|exact Hi].
Qed.

(** X14 ([_resample_regressor], lines 238-240).  On a strictly increasing
    grid of at least two samples, with rows as long as the grid and frame
    times inside the grid's range, the resampler returns an array with
    one row per frame time and one column per row, whose entries are the
    linear interpolation between the two neighbouring grid samples; a frame
    time that is a grid sample gets the row's value at that sample. *)
Theorem resample_interpolates (rows : matrix) (hr frame_times : vec) :
  increasing hr -> (2 <= length hr)%nat -> rows <> [] ->
  Forall (fun r => length r = length hr) rows ->
  Forall (fun t => hd 0 hr <= t /\ t <= last hr 0) frame_times ->
  exists creg, _resample_regressor rows hr frame_times = Ok creg /\
    length creg = length frame_times /\
    Forall (fun row => length row = length rows) creg /\
    forall i k j, (i < length frame_times)%nat -> (k < length rows)%nat ->
      (j < length hr)%nat ->
      let t := nth i frame_times 0 in
      let y := nth k rows [] in
      (t = nth j hr 0 -> nth k (nth i creg []) 0 = nth j y 0) /\
      ((S j < length hr)%nat -> nth j hr 0 <= t -> t <= nth (S j) hr 0 ->
       nth k (nth i creg []) 0
       = nth j y 0 + (nth (S j) y 0 - nth j y 0) / (nth (S j) hr 0 - nth j hr 0)
                     * (t - nth j hr 0)).
Proof.
  intros Hinc Hlen Hrows Hshape Hin.
  rewrite (resample_increasing rows hr frame_times Hinc Hlen Hrows Hshape Hin).
  eexists. split; [reflexivity|].
  set (ys := map (fun row => map (Scipy.interp_linear hr row) frame_times) rows).
  destruct (transpose_shape (length frame_times) ys) as [L F].
  split; [exact L|]. split.
  { unfold ys in F. rewrite length_map in F. exact F. }
  intros i k j Hi Hk Hj t y.
  assert (E : nth k (nth i (Np.transpose (length frame_times) ys) []) 0
              = Scipy.interp_linear hr y t).
  { rewrite (nth_transpose _ _ _ Hi), nth_col.
    exact (nth_map_rows (Scipy.interp_linear hr) rows frame_times i k Hk Hi). }
  rewrite E. split.
  - intros Ht.
    destruct (Nat.lt_ge_cases (S j) (length hr)) as [Hj'|Hj'].
    + rewrite (interp_linear_between hr y t j Hinc Hj').
      * rewrite Ht. ring.
      * rewrite Ht. apply Qcle_refl.
      * rewrite Ht. apply Qclt_le_weak.
        apply increasing_nth_lt; [exact Hinc|lia|exact Hj'].
    + destruct j as [|j]; [lia|].
      rewrite (interp_linear_between hr y t j Hinc Hj).
      * rewrite Ht. field.
        assert (Hlt := increasing_nth_lt hr j (S j) Hinc (Nat.lt_succ_diag_r j) Hj).
        apply Qc_pos_neq0. qc_lra.
      * rewrite Ht. apply Qclt_le_weak.
        apply increasing_nth_lt; [exact Hinc|lia|exact Hj].
      * rewrite Ht. apply Qcle_refl.
  - intros Hj' Hlo Hhi. apply interp_linear_between; assumption.
Qed.

Lemma resample_interpolates_witness :
  exists creg,
    _resample_regressor [[qz 0; qz 4; qz 2]] [qz 0; qz 1; qz 2] [qz 1; qf 3 2] = Ok creg /\
    nth 0 (nth 0 creg []) 0 = qz 4 /\ nth 0 (nth 1 creg []) 0 = qz 3.
Proof.
  set (rows := [[qz 0; qz 4; qz 2]]). set (hr := [qz 0; qz 1; qz 2]).
  set (ft := [qz 1; qf 3 2]).
  destruct (resample_interpolates rows hr ft) as [creg [E [_ [_ V]]]].
  - cbn [increasing hr]. repeat split.
  - cbn [length hr]. lia.
  - discriminate.
  - repeat constructor.
  - repeat constructor; vm_compute; discriminate.
  - exists creg. split; [exact E|]. split.
    + apply (proj1 (V 0%nat 0%nat 1%nat ltac:(cbn; lia) ltac:(cbn; lia) ltac:(cbn; lia))).
      reflexivity.
    + rewrite (proj2 (V 1%nat 0%nat 1%nat ltac:(cbn; lia) ltac:(cbn; lia) ltac:(cbn; lia)));
        [apply Qc_is_canon; reflexivity|cbn; lia|vm_compute; discriminate
        |vm_compute; discriminate].
Defined.
(** ** The whole pipeline *)








(** ** A condition without events *)

Lemma all0_nth (v : vec) (j : nat) : Forall (fun x => x = 0) v -> nth j v 0 = 0.
Proof.
  intros H. revert j. induction H as [|x v Hx _ IH]; intros [|j]; cbn [nth];
    try reflexivity; [exact Hx|apply IH].
Qed.

Lemma all0_zeros (n : nat) : Forall (fun x => x = 0) (Np.zeros n).
Proof.
  unfold Np.zeros. apply Forall_forall. intros x Hx. exact (repeat_spec _ _ _ Hx).
Qed.

Lemma all0_map_nth {A : Type} (f : A -> nat) (v : vec) (l : list A) :
  Forall (fun x => x = 0) v -> Forall (fun x => x = 0) (map (fun a => nth (f a) v 0) l).
Proof.
  intros H. apply Forall_forall. intros x Hx. apply in_map_iff in Hx.
  destruct Hx as [a [<- _]]. apply all0_nth. exact H.
Qed.

Lemma all0_upd (r : vec) (i : nat) :
  Forall (fun x => x = 0) r -> Forall (fun x => x = 0) (Np.upd r i 0).
Proof.
  intros H. revert i. induction H as [|x r Hx Hr IH]; intros i; [constructor|].
  destruct i; cbn [Np.upd]; constructor; auto.
Qed.

Lemma all0_vadd (u v : vec) :
  Forall (fun x => x = 0) u -> Forall (fun x => x = 0) v ->
  Forall (fun x => x = 0) (Np.vadd u v).
Proof.
  intros Hu. revert v. induction Hu as [|x u Hx _ IH]; intros v Hv; [constructor|].
  destruct Hv as [|y v Hy Hv]; [constructor|].
  unfold Np.vadd in *. cbn [combine map fst snd]. constructor; [|apply IH; exact Hv].
  rewrite Hx, Hy. ring.
Qed.

Lemma all0_lincomb (m : nat) (v : vec) (M : matrix) :
  Forall (fun x => x = 0) v -> Forall (fun x => x = 0) (Np.lincomb m v M).
Proof.
  intros Hv. revert M. induction Hv as [|a v Ha _ IH]; intros M; cbn [Np.lincomb];
    [apply all0_zeros|].
  destruct M as [|r M]; [apply all0_zeros|].
  apply all0_vadd; [|apply IH]. rewrite Ha, scale_0. apply all0_zeros.
Qed.

Lemma cumsum_zeros (n : nat) : Np.cumsum (Np.zeros n) = Np.zeros n.
Proof.
  unfold Np.cumsum, Np.zeros. induction n as [|n IH]; [reflexivity|].
  cbn [repeat Np.cumsum_from]. replace (0 + 0) with 0 by ring. rewrite IH. reflexivity.
Qed.

Lemma all0_conv_full (a v : vec) :
  Forall (fun x => x = 0) a -> Forall (fun x => x = 0) (Np.conv_full a v).
Proof.
  induction 1 as [|x a Hx _ IH]; cbn [Np.conv_full]; [constructor|].
  rewrite Hx, scale_0.
  assert (P : forall u w, Forall (fun x => x = 0) u -> Forall (fun x => x = 0) w ->
              Forall (fun x => x = 0) (Np.padd u w)).
  { intros u w Hu. revert w. induction Hu as [|y u Hy Hu IHu]; intros w Hw; [exact Hw|].
    destruct Hw as [|z w Hz Hw]; cbn [Np.padd]; [constructor; assumption|].
    constructor; [rewrite Hy, Hz; ring|apply IHu; exact Hw]. }
  apply P; [apply all0_zeros|constructor; [reflexivity|exact IH]].
Qed.

Lemma all0_firstn (k : nat) (v : vec) :
  Forall (fun x => x = 0) v -> Forall (fun x => x = 0) (firstn k v).
Proof.
  intros H. revert k. induction H as [|x v Hx Hv IH]; intros [|k]; cbn [firstn];
    constructor; auto.
Qed.

Lemma all0_isub_col (X : matrix) (i : nat) (w : vec) (X' : matrix) :
  Np.isub_col X i w = Ok X' ->
  Forall (Forall (fun x => x = 0)) X -> Forall (fun x => x = 0) w ->
  Forall (Forall (fun x => x = 0)) X'.
Proof.
  unfold Np.isub_col. intros H HX Hw.
  destruct (length w =? Np.shape0 X)%nat.
  - injection H as <-. unfold Np.sub_col. apply Forall_forall. intros r Hr.
    apply in_map_iff in Hr. destruct Hr as [[r0 a] [<- Hin]]. cbn [fst snd].
    assert (H0 : Forall (fun x => x = 0) r0)
      by exact (proj1 (Forall_forall _ _) HX r0 (in_combine_l _ _ _ _ Hin)).
    assert (Ha : a = 0)
      by exact (proj1 (Forall_forall _ _) Hw a (in_combine_r _ _ _ _ Hin)).
    rewrite Ha, (all0_nth r0 i H0). replace (0 - 0) with 0 by ring.
    apply all0_upd. exact H0.
  - destruct (length w =? 1)%nat; [|discriminate]. injection H as <-.
    apply Forall_forall. intros r Hr. apply in_map_iff in Hr. destruct Hr as [r0 [<- Hin]].
    assert (H0 : Forall (fun x => x = 0) r0) by exact (proj1 (Forall_forall _ _) HX r0 Hin).
    assert (Ha : hd 0 w = 0) by (destruct Hw; [reflexivity|assumption]).
    rewrite Ha, (all0_nth r0 i H0). replace (0 - 0) with 0 by ring.
    apply all0_upd. exact H0.
Qed.

Lemma all0_col (i : nat) (X : matrix) :
  Forall (Forall (fun x => x = 0)) X -> Forall (fun x => x = 0) (Np.col i X).
Proof.
  intros H. unfold Np.col. apply Forall_forall. intros x Hx.
  apply in_map_iff in Hx. destruct Hx as [r [<- Hr]].
  apply all0_nth. exact (proj1 (Forall_forall _ _) H r Hr).
Qed.

Lemma all0_orth_loop (pinv : matrix -> matrix) (range : list nat) :
  forall X Y, orth_loop pinv range X = Ok Y ->
    Forall (Forall (fun x => x = 0)) X -> Forall (Forall (fun x => x = 0)) Y.
Proof.
  induction range as [|i range IH]; intros X Y H HX.
  - injection H as <-. exact HX.
  - cbn [orth_loop] in H. bind_inv H as X1 H1. apply (IH X1 Y H).
    unfold orth_step in H1. bind_inv H1 as P HP. bind_inv H1 as w Hw.
    apply (all0_isub_col X i w X1 H1 HX).
    unfold Np.dot_vm in Hw. destruct (_ =? _)%nat; [|discriminate].
    injection Hw as <-. apply all0_lincomb. apply all0_col. exact HX.
Qed.

Lemma convolve_ok (a v c : vec) : Np.convolve a v = Ok c -> c = Np.conv_full a v.
Proof.
  unfold Np.convolve. destruct a; [discriminate|]. destruct v; [discriminate|].
  intros H. injection H as <-. reflexivity.
Qed.

Lemma all0_mapM_conv (r : vec) (ks : list vec) (rows : matrix) :
  Forall (fun x => x = 0) r ->
  mapM (fun h => c <- Np.convolve r h ;; Ok (firstn (length r) c)) ks = Ok rows ->
  Forall (Forall (fun x => x = 0)) rows.
Proof.
  intros Hr. revert rows. induction ks as [|k ks IH]; intros rows H.
  - injection H as <-. constructor.
  - cbn [mapM] in H. bind_inv H as row Hrow. bind_inv H as rest Hrest.
    injection H as <-. constructor; [|apply IH; exact Hrest].
    bind_inv Hrow as c Hc. injection Hrow as <-. apply all0_firstn.
    rewrite (convolve_ok _ _ _ Hc). apply all0_conv_full. exact Hr.
Qed.

Lemma all0_take_rows (ind : list nat) (rows : matrix) :
  Forall (Forall (fun x => x = 0)) rows ->
  Forall (Forall (fun x => x = 0)) (map (Scipy.take ind) rows).
Proof.
  intros Hrows. apply Forall_forall. intros r Hr. apply in_map_iff in Hr.
  destruct Hr as [r1 [<- Hin]]. unfold Scipy.take.
  apply (all0_map_nth (fun j => j)). exact (proj1 (Forall_forall _ _) Hrows r1 Hin).
Qed.

Lemma all0_resample (rows : matrix) (hr frame_times : vec) (creg : matrix) :
  _resample_regressor rows hr frame_times = Ok creg ->
  Forall (Forall (fun x => x = 0)) rows ->
  Forall (Forall (fun x => x = 0)) creg.
Proof.
  unfold _resample_regressor, Scipy.interp1d. intros H Hrows.
  bind_inv H as y Hy. injection H as <-.
  destruct (Scipy.interp1d_init hr rows) as [[xs ys]|e] eqn:E; [|discriminate].
  cbn [bind] in Hy. bind_inv Hy as u Hu. injection Hy as <-.
  assert (Hys : Forall (Forall (fun x => x = 0)) ys).
  { unfold Scipy.interp1d_init in E.
    destruct rows as [|r0 rows0]; [destruct (Scipy.argsort hr); [|discriminate]|];
      destruct (negb _); try discriminate; destruct (_ <? _)%nat; try discriminate;
      injection E as _ <-; [constructor|].
    exact (all0_take_rows _ (r0 :: rows0) Hrows). }
  unfold Np.transpose. apply Forall_forall. intros row Hrow.
  apply in_map_iff in Hrow. destruct Hrow as [j [<- _]].
  apply all0_col. apply Forall_forall. intros r Hr.
  apply in_map_iff in Hr. destruct Hr as [r1 [<- Hin]].
  apply Forall_forall. intros v Hv. apply in_map_iff in Hv. destruct Hv as [t [<- _]].
  assert (H1 : Forall (fun x => x = 0) r1) by exact (proj1 (Forall_forall _ _) Hys r1 Hin).
  unfold Scipy.interp_linear. rewrite !(all0_nth r1 _ H1). unfold Qcdiv. ring.
Qed.

(** X16 ([compute_regressor], lines 386-401, with [_sample_condition]).
    A condition without events gives, whenever the pipeline returns, an
    array whose entries are all 0, with every model and whatever [pinv]
    returns, provided the kernels of the model are defined: every response
    kernel has a non-zero sum before line 37 divides by it.  (A kernel
    whose samples sum to zero is an array of [nan] in the program, and so
    is its regressor; the frame times [0, 20, 40] with oversampling 1 and
    the "spm" model give one.) *)
Theorem no_event_zero_regressor (gamma_pdf : Qc -> Qc -> Qc -> Qc)
    (pinv : matrix -> matrix) (m : string) (frame_times : vec) (con_id : string)
    (oversampling : Z) (fir_delays : option (list Z)) (min_onset : Qc)
    (creg : matrix) (reg_names : option (list string)) :
  (forall fmax tr,
     Np.max frame_times = Ok fmax ->
     py_div fmax (Z2Qc (Z.of_nat (length frame_times) - 1)) = Ok tr ->
     defined_kernels gamma_pdf m tr oversampling) ->
  compute_regressor gamma_pdf pinv [] m frame_times con_id oversampling fir_delays min_onset
    = Ok (creg, reg_names) ->
  Forall (Forall (fun x => x = 0)) creg.
Proof.
  unfold compute_regressor. intros _ H.
  bind_inv H as fmax Hmax. bind_inv H as tr Htr. bind_inv H as sampled Hs.
  destruct sampled as [r hr].
  bind_inv H as ks Hk. bind_inv H as rows Hrows. bind_inv H as c0 Hc0.
  bind_inv H as c1 Hc1. bind_inv H as names Hn. injection H as <- _.
  unfold _sample_condition in Hs. bind_inv Hs as g Hg. bind_inv Hs as r' Hr'.
  injection Hs as -> ->.
  rewrite hr_regressor_no_event, cumsum_zeros in Hr'. injection Hr' as <-.
  assert (R : Forall (Forall (fun x => x = 0)) rows)
    by exact (all0_mapM_conv _ ks rows (all0_zeros _) Hrows).
  assert (C0 : Forall (Forall (fun x => x = 0)) c0)
    by exact (all0_resample rows hr frame_times c0 Hc0 R).
  destruct (negb (String.eqb m "fir")).
  - unfold _orthogonalize in Hc1. destruct (_ =? _)%nat.
    + injection Hc1 as <-. exact C0.
    + exact (all0_orth_loop pinv _ c0 c1 Hc1 C0).
  - injection Hc1 as <-. exact C0.
Qed.

Lemma no_event_zero_regressor_witness :
  exists creg names,
    compute_regressor (fun t a l => t + a + l) (fun A => A) [] "spm"
      [qz 0; qz 8; qz 16] "cond" 1 None (qz (-8)) = Ok (creg, names) /\
    length creg = 3%nat /\
    Forall (Forall (fun x => x = 0)) creg.
Proof.
  destruct (compute_regressor (fun t a l => t + a + l) (fun A => A) [] "spm"
              [qz 0; qz 8; qz 16] "cond" 1 None (qz (-8))) as [[creg names]|e] eqn:E;
    [|vm_compute in E; discriminate].
  exists creg, names. split; [reflexivity|]. split.
  - assert (E' := f_equal (fun x => match x with Ok (c, _) => length c | Err _ => 0%nat end) E).
    vm_compute in E'. symmetry. exact E'.
  - refine (no_event_zero_regressor _ _ _ _ _ _ _ _ _ _ _ E).
    intros fmax tr Hmax Htr.
    apply (f_equal (fun x => match x with Ok v => v | Err _ => 0 end)) in Hmax.
    cbv beta iota in Hmax. subst fmax.
    apply (f_equal (fun x => match x with Ok v => v | Err _ => 0 end)) in Htr.
    cbv beta iota in Htr. subst tr.
    unfold defined_kernels. cbv zeta.
    change (String.eqb "spm" "spm") with true. cbv iota.
    unfold nonzero_mass. eexists. split; [reflexivity|].
    apply Qc_neq_by_bool. vm_compute. reflexivity.
Defined.
(** ** A repetition time beyond the kernel length *)

Lemma py_int_small (x : Qc) : 0 <= x -> x < 1 -> py_int x = 0%Z.
Proof.
  intros H0 H1. unfold py_int. qc_unfold. unfold Qle, Qlt in *. cbn in H0, H1.
  apply Z.quot_small. lia.
Qed.

Lemma Qc_div_lt_1 (a b : Qc) : 0 <= a -> a < b -> 0 <= a / b /\ a / b < 1.
Proof.
  intros Ha Hab. assert (Hb : 0 < b) by qc_lra. split.
  - apply Qc_div_nonneg; assumption.
  - qc_unfold. apply Qlt_shift_div_r; [exact Hb|]. lra.
Qed.

Lemma gamma_kernel_long_tr (gamma_pdf : Qc -> Qc -> Qc -> Qc) (tr : Qc) (oversampling : Z)
    (onset delay undershoot dispersion u_dispersion ratio : Qc) (h : vec) :
  _gamma_difference_hrf gamma_pdf tr oversampling time_length0 onset
    delay undershoot dispersion u_dispersion ratio = Ok h ->
  (1 <= oversampling)%Z -> Z2Qc 32 * Z2Qc oversampling < tr ->
  h = [].
Proof.
  intros H Hos Htr. apply gamma_difference_hrf_length in H.
  assert (HO : 0 < Z2Qc oversampling) by (apply Z2Qc_pos; lia).
  assert (H32 : 0 < Z2Qc 32) by (apply Z2Qc_pos; lia).
  assert (Hp : 0 < Z2Qc 32 * Z2Qc oversampling) by (apply Qc_mul_pos; assumption).
  assert (Htr0 : 0 < tr) by qc_lra.
  assert (E : time_length0 / (tr / Z2Qc oversampling) = (Z2Qc 32 * Z2Qc oversampling) / tr).
  { unfold time_length0, qz. field. split; apply Qc_pos_neq0; assumption. }
  rewrite E in H.
  destruct (Qc_div_lt_1 (Z2Qc 32 * Z2Qc oversampling) tr (Qclt_le_weak _ _ Hp) Htr) as [L0 L1].
  rewrite (py_int_small _ L0 L1) in H. destruct h; [reflexivity|discriminate].
Qed.

Lemma hrf_kernel_long_tr (gamma_pdf : Qc -> Qc -> Qc -> Qc) (m : string) (tr : Qc)
    (oversampling : Z) (fir_delays : option (list Z)) (ks : list vec) :
  _hrf_kernel gamma_pdf m tr oversampling fir_delays = Ok ks ->
  String.eqb m "fir" = false ->
  (1 <= oversampling)%Z -> Z2Qc 32 * Z2Qc oversampling < tr ->
  exists rest, ks = [] :: rest.
Proof.
  unfold _hrf_kernel, spm_hrf, glover_hrf. intros H Hfir Hos Htr. rewrite Hfir in H.
  destruct (String.eqb m "spm").
  { bind_inv H as h Hh. injection H as <-.
    rewrite (gamma_kernel_long_tr _ _ _ _ _ _ _ _ _ _ Hh Hos Htr). eauto. }
  destruct (String.eqb m "spm_time").
  { bind_inv H as h Hh. bind_inv H as d Hd. injection H as <-.
    rewrite (gamma_kernel_long_tr _ _ _ _ _ _ _ _ _ _ Hh Hos Htr). eauto. }
  destruct (String.eqb m "spm_time_dispersion").
  { bind_inv H as h Hh. bind_inv H as d Hd. bind_inv H as s Hs. injection H as <-.
    rewrite (gamma_kernel_long_tr _ _ _ _ _ _ _ _ _ _ Hh Hos Htr). eauto. }
  destruct (String.eqb m "canonical").
  { bind_inv H as h Hh. injection H as <-.
    rewrite (gamma_kernel_long_tr _ _ _ _ _ _ _ _ _ _ Hh Hos Htr). eauto. }
  destruct (String.eqb m "canonical with derivative").
  { bind_inv H as h Hh. bind_inv H as d Hd. injection H as <-.
    rewrite (gamma_kernel_long_tr _ _ _ _ _ _ _ _ _ _ Hh Hos Htr). eauto. }
  discriminate.
Qed.

(** X17 ([compute_regressor], lines 383-394, with [_gamma_difference_hrf],
    lines 31-32).  When the average repetition time
    [max(frame_times) / (n - 1)] exceeds [32 * oversampling] seconds, the
    kernels of the gamma models have [int(32 / dt) = 0] samples and the
    pipeline raises for every model but ['fir']. *)
Theorem long_tr_rejected (gamma_pdf : Qc -> Qc -> Qc -> Qc) (pinv : matrix -> matrix)
    (exp_condition : list event) (m : string) (frame_times : vec) (con_id : string)
    (oversampling : Z) (fir_delays : option (list Z)) (min_onset : Qc) (fmax : Qc) :
  (2 <= length frame_times)%nat -> Np.max frame_times = Ok fmax ->
  (1 <= oversampling)%Z -> m <> "fir"%string ->
  Z2Qc 32 * Z2Qc oversampling < fmax / Z2Qc (Z.of_nat (length frame_times) - 1) ->
  exists e, compute_regressor gamma_pdf pinv exp_condition m frame_times con_id
              oversampling fir_delays min_onset = Err e.
Proof.
  intros Hlen Hmax Hos Hfir Htr. apply String.eqb_neq in Hfir.
  unfold compute_regressor. rewrite Hmax. cbn [bind].
  rewrite py_div_nonzero by (apply Z2Qc_neq0; lia). cbn [bind].
  destruct (_sample_condition exp_condition frame_times oversampling min_onset)
    as [[reg hr]|e] eqn:Hs; [|cbn [bind]; eauto].
  cbn [bind].
  destruct (_hrf_kernel gamma_pdf m (fmax / _) oversampling fir_delays)
    as [ks|e] eqn:Hk; [|cbn [bind]; eauto].
  cbn [bind].
  destruct (hrf_kernel_long_tr _ _ _ _ _ _ Hk Hfir Hos Htr) as [rest ->].
  destruct (conv_empty_kernel reg rest) as [e He]. rewrite He. cbn [bind]. eauto.
Qed.

Lemma long_tr_rejected_witness :
  exists e, compute_regressor (fun t a l => t + a + l) (fun A => A)
              [mk_event (qz 0) (qz 1) (qz 1)] "spm" [qz 0; qz 40; qz 80] "cond" 1 None
              (qz (-24)) = Err e.
Proof.
  apply (long_tr_rejected _ _ _ _ _ _ _ _ _ (qz 80)).
  - cbn [length]. lia.
  - vm_compute. reflexivity.
  - lia.
  - discriminate.
  - vm_compute. reflexivity.
Defined.
(** ** Which grid samples an event covers *)

Lemma searchsorted1_below (a : vec) (v : Qc) (k : nat) :
  (k < Np.searchsorted1 a v)%nat -> nth k a 0 < v.
Proof.
  revert k. induction a as [|x a IH]; intros k Hk; cbn [Np.searchsorted1] in Hk; [lia|].
  destruct (Qc_ltb x v) eqn:B; [|lia].
  destruct k as [|k]; cbn [nth]; [apply Qc_ltb_lt; exact B|apply IH; lia].
Qed.

Lemma searchsorted1_at (a : vec) (v : Qc) :
  (Np.searchsorted1 a v < length a)%nat -> v <= nth (Np.searchsorted1 a v) a 0.
Proof.
  induction a as [|x a IH]; cbn [Np.searchsorted1 length]; [lia|].
  destruct (Qc_ltb x v) eqn:B; intros H.
  - cbn [nth]. apply IH. lia.
  - cbn [nth]. apply Qc_ltb_ge. exact B.
Qed.

(** On an increasing array, [searchsorted(a, v) <= j] says [v <= a[j]]. *)
Lemma searchsorted1_le_iff (a : vec) (v : Qc) (j : nat) :
  increasing a -> (j < length a)%nat ->
  ((Np.searchsorted1 a v <= j)%nat <-> v <= nth j a 0).
Proof.
  intros Hinc Hj. split.
  - intros H. destruct (Nat.eq_dec (Np.searchsorted1 a v) j) as [E|E].
    + rewrite <- E. apply searchsorted1_at. lia.
    + apply Qcle_trans with (nth (Np.searchsorted1 a v) a 0).
      * apply searchsorted1_at. lia.
      * apply Qclt_le_weak. apply increasing_nth_lt; [exact Hinc|lia|exact Hj].
  - intros H. destruct (Nat.le_gt_cases (Np.searchsorted1 a v) j) as [L|G]; [exact L|].
    exfalso. exact (Qclt_not_le _ _ (searchsorted1_below a v j G) H).
Qed.

Lemma searchsorted1_first (a : vec) (v : Qc) (j : nat) :
  (j < length a)%nat ->
  ((forall k, (k < j)%nat -> nth k a 0 < v) <-> (j <= Np.searchsorted1 a v)%nat).
Proof.
  intros Hj. split.
  - intros H. destruct (Nat.le_gt_cases j (Np.searchsorted1 a v)) as [L|G]; [exact L|].
    exfalso. apply (Qclt_not_le _ _ (H _ G)). apply searchsorted1_at. lia.
  - intros H k Hk. apply searchsorted1_below. lia.
Qed.

(** X18 ([_sample_condition], lines 203-211).  On an increasing grid, and
    away from its last sample, an event of non-negative duration is on
    (onset index reached, offset index not yet reached) exactly at the
    grid times inside [[onset, onset + duration)] and at the first grid
    time at or after its onset. *)
Theorem event_support (hr : vec) (e : event) (j : nat) :
  increasing hr -> 0 <= duration e ->
  (Z.of_nat j < Z.of_nat (length hr) - 1)%Z ->
  let ton := nth 0 (t_onset hr [e]) 0%Z in
  let toff := nth 0 (t_offset hr [e]) 0%Z in
  (ton <= Z.of_nat j < toff)%Z <->
  (onset e <= nth j hr 0 /\
   (nth j hr 0 < onset e + duration e \/ forall k, (k < j)%nat -> nth k hr 0 < onset e)).
Proof.
  intros Hinc Hd Hj.
  unfold t_offset, t_offset0, t_onset, onsets, Np.minimum, Np.searchsorted.
  cbn [map nth bump].
  set (T := Z.of_nat (length hr)) in *.
  set (s1 := Np.searchsorted1 hr (onset e)).
  set (s2 := Np.searchsorted1 hr (onset e + duration e)).
  assert (Hjl : (j < length hr)%nat) by lia.
  assert (M : (s1 <= s2)%nat) by (apply searchsorted1_mono; qc_lra).
  assert (A := searchsorted1_le_iff hr (onset e) j Hinc Hjl). fold s1 in A.
  assert (B := searchsorted1_le_iff hr (onset e + duration e) j Hinc Hjl). fold s2 in B.
  assert (C := searchsorted1_first hr (onset e) j Hjl). fold s1 in C.
  assert (NB : nth j hr 0 < onset e + duration e <-> ~ (s2 <= j)%nat).
  { split.
    - intros L G. apply B in G. exact (Qclt_not_le _ _ L G).
    - intros G. destruct (Qclt_le_dec (nth j hr 0) (onset e + duration e)) as [L|L];
        [exact L|]. exfalso. apply G. apply B. exact L. }
  rewrite <- A, NB, C.
  destruct (Z.ltb_spec (Z.min (Z.of_nat s2) (T - 1)) (T - 1));
    destruct (Z.eqb_spec (Z.min (Z.of_nat s2) (T - 1)) (Z.min (Z.of_nat s1) (T - 1)));
    cbn [andb]; lia.
Qed.

Lemma event_support_witness :
  let hr := [qz 0; qz 1; qz 2; qz 3; qz 4] in
  let e := mk_event (qf 1 2) (qz 2) (qz 1) in
  (nth 0 (t_onset hr [e]) 0 <= 2 < nth 0 (t_offset hr [e]) 0)%Z <->
  (onset e <= nth 2 hr 0 /\
   (nth 2 hr 0 < onset e + duration e \/ forall k, (k < 2)%nat -> nth k hr 0 < onset e)).
Proof.
  intros hr e. apply (event_support hr e 2).
  - cbn [increasing hr]. repeat split.
  - vm_compute. discriminate.
  - cbn [length hr]. lia.
Defined.

(** X19 ([_sample_condition], lines 203-211).  With non-negative durations
    on a non-empty grid, every event has its onset index at most its
    offset index, both inside the grid, and an event whose onset index is
    not the last grid index is on for at least one sample. *)
Theorem events_stay_visible (hr : vec) (evs : list event) :
  hr <> [] -> Forall (fun e => 0 <= duration e) evs ->
  Forall (fun p => (0 <= fst p <= snd p)%Z /\ (snd p <= Z.of_nat (length hr) - 1)%Z /\
                   ((fst p < Z.of_nat (length hr) - 1)%Z -> (fst p < snd p)%Z))
         (combine (t_onset hr evs) (t_offset hr evs)).
Proof.
  intros Hne F. unfold t_offset, t_onset, t_offset0, Np.minimum, Np.searchsorted, onsets.
  rewrite !map_map. set (tmax := Z.of_nat (length hr)).
  assert (Ht : (1 <= tmax)%Z) by (unfold tmax; destruct hr; [congruence|cbn [length]; lia]).
  induction F as [|e evs He F IH]; cbn [map bump combine]; [constructor|].
  constructor; [|exact IH]. cbn [fst snd].
  assert (Hm : (Np.searchsorted1 hr (onset e)
                <= Np.searchsorted1 hr (onset e + duration e))%nat).
  { apply searchsorted1_mono. qc_lra. }
  destruct (Z.ltb_spec (Z.min (Z.of_nat (Np.searchsorted1 hr (onset e + duration e)))
                          (tmax - 1)) (tmax - 1));
    destruct (Z.eqb_spec (Z.min (Z.of_nat (Np.searchsorted1 hr (onset e + duration e)))
                            (tmax - 1))
                         (Z.min (Z.of_nat (Np.searchsorted1 hr (onset e))) (tmax - 1)));
    cbn [andb]; lia.
Qed.

Lemma events_stay_visible_witness :
  let hr := [qz 0; qz 1; qz 2] in
  let evs := [mk_event (qz 1) (qz 0) (qz 1); mk_event (qz 5) (qz 1) (qz 1)] in
  t_onset hr evs = [1; 2]%Z /\ t_offset hr evs = [2; 2]%Z /\
  Forall (fun p => (0 <= fst p <= snd p)%Z /\ (snd p <= 2)%Z /\
                   ((fst p < 2)%Z -> (fst p < snd p)%Z))
         (combine (t_onset hr evs) (t_offset hr evs)).
Proof.
  intros hr evs. split; [vm_compute; reflexivity|]. split; [vm_compute; reflexivity|].
  apply (events_stay_visible hr evs).
  - discriminate.
  - repeat constructor; vm_compute; discriminate.
Defined.
(** ** The grid spacing and the kernel spacing *)






(** ** Models with a single kernel, and ['fir'] *)

Lemma orthogonalize_single_column (pinv : matrix -> matrix) (X : matrix) :
  Forall (fun r => length r = 1%nat) X -> _orthogonalize pinv X = Ok X.
Proof.
  intros H. unfold _orthogonalize, Np.size, Np.shape1, Np.shape0.
  destruct H as [|r X Hr _]; [reflexivity|].
  cbn [hd]. rewrite Hr, Nat.mul_1_r, Nat.eqb_refl. reflexivity.
Qed.

Lemma resample_shape (rows : matrix) (hr frame_times : vec) (creg : matrix) :
  _resample_regressor rows hr frame_times = Ok creg ->
  length creg = length frame_times /\
  Forall (fun r => length r = length rows) creg.
Proof.
  unfold _resample_regressor, Scipy.interp1d. intros H.
  bind_inv H as y Hy. injection H as <-.
  destruct (Scipy.interp1d_init hr rows) as [[xs ys]|e] eqn:E; [|discriminate].
  cbn [bind] in Hy. bind_inv Hy as u Hu. injection Hy as <-.
  destruct (interp1d_init_rows hr rows xs ys E) as [L _].
  destruct (transpose_shape (length frame_times)
              (map (fun row => map (Scipy.interp_linear xs row) frame_times) ys)) as [L1 F].
  split; [exact L1|]. rewrite length_map, L in F. exact F.
Qed.

(** X21 ([compute_regressor], lines 399-401, with [_orthogonalize], lines
    260-261).  For ['spm'] and ['canonical'] the array handed to the
    orthogonaliser has a single column and comes back as it is, and for
    ['fir'] the orthogonaliser is not called: the result of the pipeline,
    error or not, does not depend on [pinv]. *)
Theorem single_kernel_models_ignore_pinv (gamma_pdf : Qc -> Qc -> Qc -> Qc)
    (pinv pinv' : matrix -> matrix) (exp_condition : list event) (m : string)
    (frame_times : vec) (con_id : string) (oversampling : Z)
    (fir_delays : option (list Z)) (min_onset : Qc) :
  In m ["spm"; "canonical"; "fir"]%string ->
  compute_regressor gamma_pdf pinv exp_condition m frame_times con_id
    oversampling fir_delays min_onset
  = compute_regressor gamma_pdf pinv' exp_condition m frame_times con_id
      oversampling fir_delays min_onset.
Proof.
  intros Hm. unfold compute_regressor.
  destruct (Np.max frame_times) as [fmax|]; [|reflexivity]. cbn [bind].
  destruct (py_div fmax _) as [tr|]; [|reflexivity]. cbn [bind].
  destruct (_sample_condition _ _ _ _) as [[r hr]|]; [|reflexivity]. cbn [bind].
  destruct (_hrf_kernel gamma_pdf m tr oversampling fir_delays) as [ks|] eqn:Hk;
    [|reflexivity]. cbn [bind].
  destruct (mapM _ ks) as [rows|] eqn:Hrows; [|reflexivity]. cbn [bind].
  destruct (_resample_regressor rows hr frame_times) as [creg|] eqn:Hc; [|reflexivity].
  cbn [bind].
  destruct (hrf_kernel_count _ _ _ _ _ _ Hk) as [_ Lk].
  destruct (resample_shape rows hr frame_times creg Hc) as [_ F].
  assert (F1 : expected_columns m fir_delays = 1%nat ->
               Forall (fun r => length r = 1%nat) creg).
  { intros E1. eapply Forall_impl; [|exact F]. cbn beta. intros a Ha.
    etransitivity; [exact Ha|]. etransitivity; [exact (mapM_length _ _ _ Hrows)|].
    etransitivity; [exact Lk|exact E1]. }
  destruct Hm as [<-|[<-|[<-|[]]]].
  - cbn [String.eqb Ascii.eqb Bool.eqb negb andb].
    rewrite !(orthogonalize_single_column _ creg (F1 eq_refl)). reflexivity.
  - cbn [String.eqb Ascii.eqb Bool.eqb negb andb].
    rewrite !(orthogonalize_single_column _ creg (F1 eq_refl)). reflexivity.
  - reflexivity.
Qed.

Lemma single_kernel_models_ignore_pinv_witness :
  compute_regressor (fun t a l => t + a + l) (fun A => A)
    [mk_event (qz 0) (qz 1) (qz 1)] "canonical" [qz 0; qz 8; qz 16] "cond" 1 None (qz (-8))
  = compute_regressor (fun t a l => t + a + l) pinv_column
      [mk_event (qz 0) (qz 1) (qz 1)] "canonical" [qz 0; qz 8; qz 16] "cond" 1 None (qz (-8)).
Proof.
  apply single_kernel_models_ignore_pinv. right. left. reflexivity.
Defined.
(** ** Scaling the amplitudes *)

Lemma scale_amplitudes_indices (c : Qc) (hr : vec) (evs : list event) :
  t_onset hr (scale_amplitudes c evs) = t_onset hr evs /\
  t_offset hr (scale_amplitudes c evs) = t_offset hr evs /\
  values (scale_amplitudes c evs) = Np.scale c (values evs).
Proof.
  unfold t_offset, t_offset0, t_onset, onsets, values, scale_amplitudes, Np.scale.
  rewrite !map_map. cbn [onset duration value]. repeat split.
Qed.

Lemma scale_zeros (c : Qc) (n : nat) : Np.scale c (Np.zeros n) = Np.zeros n.
Proof.
  unfold Np.scale, Np.zeros. induction n as [|n IH]; [reflexivity|].
  cbn [repeat map]. rewrite IH. f_equal. ring.
Qed.

Lemma upd_scale (c : Qc) (a : vec) (k : nat) (x : Qc) :
  Np.upd (Np.scale c a) k (c * x) = Np.scale c (Np.upd a k x).
Proof.
  unfold Np.scale. revert k. induction a as [|y a IH]; intros k; [reflexivity|].
  destruct k; cbn [map Np.upd]; [reflexivity|]. rewrite IH. reflexivity.
Qed.

Lemma setitem_scale (c : Qc) (a : vec) (i : Z) (x : Qc) :
  Np.setitem (Np.scale c a) i (c * x) = (a' <- Np.setitem a i x ;; Ok (Np.scale c a')).
Proof.
  unfold Np.setitem. rewrite scale_length.
  destruct (Np.norm_index (length a) i) as [k|]; [|reflexivity].
  cbn [bind]. rewrite upd_scale. reflexivity.
Qed.

Lemma fancy_set_scale (c : Qc) (idx : list Z) :
  forall (ws a : vec),
    Np.fancy_set (Np.scale c a) idx (Np.scale c ws)
    = (a' <- Np.fancy_set a idx ws ;; Ok (Np.scale c a')).
Proof.
  induction idx as [|i idx IH]; intros ws a; [reflexivity|].
  destruct ws as [|w ws]; [reflexivity|].
  change (Np.scale c (w :: ws)) with (c * w :: Np.scale c ws).
  cbn [Np.fancy_set]. rewrite setitem_scale.
  destruct (Np.setitem a i w) as [a1|]; [|reflexivity]. cbn [bind]. apply IH.
Qed.

Lemma getitem_scale (c : Qc) (a : vec) (i : Z) :
  Np.getitem (Np.scale c a) i = (x <- Np.getitem a i ;; Ok (c * x)).
Proof.
  unfold Np.getitem. rewrite scale_length.
  destruct (Np.norm_index (length a) i) as [k|]; [|reflexivity]. cbn [bind].
  rewrite nth_scale. reflexivity.
Qed.

Lemma mapM_getitem_scale (c : Qc) (a : vec) (idx : list Z) :
  mapM (Np.getitem (Np.scale c a)) idx
  = (cur <- mapM (Np.getitem a) idx ;; Ok (Np.scale c cur)).
Proof.
  induction idx as [|i idx IH]; [reflexivity|].
  cbn [mapM]. rewrite IH, getitem_scale.
  destruct (Np.getitem a i) as [x|]; [|reflexivity]. cbn [bind].
  destruct (mapM (Np.getitem a) idx) as [cur|]; reflexivity.
Qed.

Lemma fancy_iop_scale (op : Qc -> Qc -> Qc) (c : Qc) (a : vec) (idx : list Z) (vals : vec) :
  (forall x y, op (c * x) (c * y) = c * op x y) ->
  Np.fancy_iop op (Np.scale c a) idx (Np.scale c vals)
  = (a' <- Np.fancy_iop op a idx vals ;; Ok (Np.scale c a')).
Proof.
  intros Hop. unfold Np.fancy_iop. rewrite mapM_getitem_scale.
  destruct (mapM (Np.getitem a) idx) as [cur|]; [|reflexivity]. cbn [bind].
  assert (E : map (fun p => op (fst p) (snd p)) (combine (Np.scale c cur) (Np.scale c vals))
              = Np.scale c (map (fun p => op (fst p) (snd p)) (combine cur vals))).
  { unfold Np.scale. revert vals. induction cur as [|x cur IH]; intros [|v vals];
      try reflexivity. cbn [map combine fst snd]. rewrite IH, Hop. reflexivity. }
  rewrite E. apply fancy_set_scale.
Qed.

Lemma cumsum_from_scale (c : Qc) (a : vec) (acc : Qc) :
  Np.cumsum_from (c * acc) (Np.scale c a) = Np.scale c (Np.cumsum_from acc a).
Proof.
  unfold Np.scale. revert acc. induction a as [|x a IH]; intros acc; [reflexivity|].
  cbn [map Np.cumsum_from].
  replace (c * acc + c * x) with (c * (acc + x)) by ring. rewrite IH. reflexivity.
Qed.

Lemma hr_regressor_scale (c : Qc) (hr : vec) (evs : list event) :
  hr_regressor hr (scale_amplitudes c evs)
  = (r <- hr_regressor hr evs ;; Ok (Np.scale c r)).
Proof.
  unfold hr_regressor.
  destruct (scale_amplitudes_indices c hr evs) as [-> [-> ->]].
  rewrite <- (scale_zeros c (length hr)).
  rewrite fancy_iop_scale by (intros; ring).
  rewrite scale_zeros.
  destruct (Np.fancy_iop Qcplus _ _ _) as [r1|]; [|reflexivity]. cbn [bind].
  rewrite fancy_iop_scale by (intros; ring).
  destruct (Np.fancy_iop Qcminus _ _ _) as [r2|]; [|reflexivity]. cbn [bind].
  unfold Np.cumsum. replace 0 with (c * 0) at 1 by ring.
  rewrite cumsum_from_scale. reflexivity.
Qed.

Lemma padd_scale (c : Qc) (u v : vec) :
  Np.padd (Np.scale c u) (Np.scale c v) = Np.scale c (Np.padd u v).
Proof.
  unfold Np.scale. revert v. induction u as [|x u IH]; intros [|y v]; try reflexivity.
  cbn [map Np.padd]. rewrite IH. f_equal. ring.
Qed.

Lemma conv_full_scale (c : Qc) (a v : vec) :
  Np.conv_full (Np.scale c a) v = Np.scale c (Np.conv_full a v).
Proof.
  induction a as [|x a IH]; [reflexivity|].
  change (Np.scale c (x :: a)) with (c * x :: Np.scale c a).
  cbn [Np.conv_full]. rewrite IH, <- padd_scale. f_equal.
  - unfold Np.scale. rewrite map_map. apply map_ext. intros y. ring.
  - unfold Np.scale. cbn [map]. f_equal. ring.
Qed.

Lemma mapM_post {A B : Type} (f f' : A -> result B) (g : B -> B) (l : list A) :
  (forall a, f' a = (x <- f a ;; Ok (g x))) ->
  mapM f' l = (rows <- mapM f l ;; Ok (map g rows)).
Proof.
  intros H. induction l as [|a l IH]; [reflexivity|].
  cbn [mapM]. rewrite IH, H.
  destruct (f a) as [x|]; [|reflexivity]. cbn [bind].
  destruct (mapM f l) as [rows|]; reflexivity.
Qed.

Lemma conv_rows_scale (c : Qc) (r : vec) (ks : list vec) :
  mapM (fun h => x <- Np.convolve (Np.scale c r) h ;;
                 Ok (firstn (length (Np.scale c r)) x)) ks
  = (rows <- mapM (fun h => x <- Np.convolve r h ;; Ok (firstn (length r) x)) ks ;;
     Ok (map (Np.scale c) rows)).
Proof.
  apply mapM_post. intros k. rewrite scale_length.
  assert (E : Np.convolve (Np.scale c r) k = (x <- Np.convolve r k ;; Ok (Np.scale c x))).
  { unfold Np.convolve. destruct r as [|a r]; [reflexivity|].
    destruct k as [|b k]; [reflexivity|].
    change (Np.scale c (a :: r)) with (c * a :: Np.scale c r).
    cbn [bind]. f_equal. exact (conv_full_scale c (a :: r) (b :: k)). }
  rewrite E. destruct (Np.convolve r k) as [x|]; [|reflexivity]. cbn [bind].
  unfold Np.scale. rewrite firstn_map. reflexivity.
Qed.

Lemma take_scale (c : Qc) (ind : list nat) (r : vec) :
  Scipy.take ind (Np.scale c r) = Np.scale c (Scipy.take ind r).
Proof.
  unfold Scipy.take. unfold Np.scale at 2. rewrite map_map. apply map_ext.
  intros j. apply nth_scale.
Qed.

Lemma interp_linear_scale (c : Qc) (x y : vec) (t : Qc) :
  Scipy.interp_linear x (Np.scale c y) t = c * Scipy.interp_linear x y t.
Proof.
  unfold Scipy.interp_linear. rewrite !nth_scale. unfold Qcdiv. ring.
Qed.

Lemma col_scale (c : Qc) (j : nat) (M : matrix) :
  Np.col j (map (Np.scale c) M) = Np.scale c (Np.col j M).
Proof.
  unfold Np.col. unfold Np.scale at 2. rewrite !map_map. apply map_ext.
  intros r. apply nth_scale.
Qed.

Lemma resample_scale (c : Qc) (rows : matrix) (hr frame_times : vec) :
  _resample_regressor (map (Np.scale c) rows) hr frame_times
  = (creg <- _resample_regressor rows hr frame_times ;; Ok (map (Np.scale c) creg)).
Proof.
  unfold _resample_regressor, Scipy.interp1d.
  assert (E : Scipy.interp1d_init hr (map (Np.scale c) rows)
              = (p <- Scipy.interp1d_init hr rows ;;
                 Ok (fst p, map (Np.scale c) (snd p)))).
  { unfold Scipy.interp1d_init.
    destruct rows as [|r rows]; cbn [map].
    - destruct (Scipy.argsort hr); [|reflexivity].
      destruct (negb _); [reflexivity|]. destruct (_ <? _)%nat; reflexivity.
    - rewrite scale_length. destruct (negb _); [reflexivity|].
      destruct (_ <? _)%nat; [reflexivity|]. cbn [bind fst snd map].
      rewrite take_scale, !map_map. f_equal. f_equal. f_equal.
      apply map_ext. intros a. apply take_scale. }
  rewrite E. destruct (Scipy.interp1d_init hr rows) as [[xs ys]|]; [|reflexivity].
  cbn [bind fst snd]. destruct (Scipy.check_bounds xs frame_times); [|reflexivity].
  cbn [bind]. f_equal. unfold Np.transpose. rewrite !map_map. apply map_ext.
  intros j. rewrite <- col_scale. f_equal. rewrite !map_map. apply map_ext.
  intros row. unfold Np.scale at 2. rewrite map_map. apply map_ext.
  intros t. apply interp_linear_scale.
Qed.

(** X22 ([compute_regressor], lines 386-401, with [_sample_condition],
    lines 200-214).  For ['spm'], ['canonical'] and ['fir'], multiplying
    every amplitude of the condition by [c] multiplies every entry of the
    returned array by [c] and changes nothing else: the same names, and an
    exception in the same cases. *)
Theorem amplitude_scaling (gamma_pdf : Qc -> Qc -> Qc -> Qc) (pinv : matrix -> matrix)
    (c : Qc) (exp_condition : list event) (m : string) (frame_times : vec)
    (con_id : string) (oversampling : Z) (fir_delays : option (list Z)) (min_onset : Qc) :
  In m ["spm"; "canonical"; "fir"]%string ->
  compute_regressor gamma_pdf pinv (scale_amplitudes c exp_condition) m frame_times con_id
    oversampling fir_delays min_onset
  = (r <- compute_regressor gamma_pdf pinv exp_condition m frame_times con_id
            oversampling fir_delays min_onset ;;
     Ok (map (Np.scale c) (fst r), snd r)).
Proof.
  intros Hm. unfold compute_regressor.
  destruct (Np.max frame_times) as [fmax|]; [|reflexivity]. cbn [bind].
  destruct (py_div fmax _) as [tr|]; [|reflexivity]. cbn [bind].
  unfold _sample_condition.
  destruct (hr_frame_times _ _ _) as [hr|]; [|reflexivity]. cbn [bind].
  rewrite hr_regressor_scale.
  destruct (hr_regressor hr exp_condition) as [r|]; [|reflexivity]. cbn [bind].
  destruct (_hrf_kernel gamma_pdf m tr oversampling fir_delays) as [ks|] eqn:Hk;
    [|reflexivity]. cbn [bind].
  rewrite conv_rows_scale.
  destruct (mapM _ ks) as [rows|] eqn:Hrows; [|reflexivity]. cbn [bind].
  rewrite resample_scale.
  destruct (_resample_regressor rows hr frame_times) as [creg|] eqn:Hc; [|reflexivity].
  cbn [bind].
  destruct (hrf_kernel_count _ _ _ _ _ _ Hk) as [_ Lk].
  destruct (resample_shape rows hr frame_times creg Hc) as [_ F].
  assert (F1 : expected_columns m fir_delays = 1%nat ->
               Forall (fun r => length r = 1%nat) creg /\
               Forall (fun r => length r = 1%nat) (map (Np.scale c) creg)).
  { intros E1.
    assert (G : Forall (fun r => length r = 1%nat) creg).
    { eapply Forall_impl; [|exact F]. cbn beta. intros a Ha.
      etransitivity; [exact Ha|]. etransitivity; [exact (mapM_length _ _ _ Hrows)|].
      etransitivity; [exact Lk|exact E1]. }
    split; [exact G|]. apply Forall_forall. intros a Ha. apply in_map_iff in Ha.
    destruct Ha as [b [<- Hb]]. rewrite scale_length.
    exact (proj1 (Forall_forall _ _) G b Hb). }
  destruct Hm as [<-|[<-|[<-|[]]]].
  - cbn [String.eqb Ascii.eqb Bool.eqb negb andb].
    destruct (F1 eq_refl) as [G G'].
    rewrite !(orthogonalize_single_column _ _ G), !(orthogonalize_single_column _ _ G').
    reflexivity.
  - cbn [String.eqb Ascii.eqb Bool.eqb negb andb].
    destruct (F1 eq_refl) as [G G'].
    rewrite !(orthogonalize_single_column _ _ G), !(orthogonalize_single_column _ _ G').
    reflexivity.
  - cbn [String.eqb Ascii.eqb Bool.eqb negb andb bind].
    destruct fir_delays; reflexivity.
Qed.

Lemma amplitude_scaling_witness :
  let evs := [mk_event (qz 0) (qz 1) (qz 1); mk_event (qz 2) (qz 1) (qz 3)] in
  compute_regressor (fun _ _ _ => 0) (fun A => A) (scale_amplitudes (qz 5) evs) "fir"
    [qz 0; qz 1; qz 2] "cond" 2 (Some [0; 1]%Z) (qz (-1))
  = (r <- compute_regressor (fun _ _ _ => 0) (fun A => A) evs "fir"
            [qz 0; qz 1; qz 2] "cond" 2 (Some [0; 1]%Z) (qz (-1)) ;;
     Ok (map (Np.scale (qz 5)) (fst r), snd r)).
Proof.
  intros evs. apply amplitude_scaling. right. right. left. reflexivity.
Defined.
(** ** Inputs the pipeline rejects *)

(** X23 ([_sample_condition], lines 185-191).  When all frame times are
    equal, the division by [max - min] makes the sample count infinite or
    undefined and [linspace] raises; [compute_regressor] raises the same
    exception. *)
Theorem constant_frame_times_rejected (gamma_pdf : Qc -> Qc -> Qc -> Qc)
    (pinv : matrix -> matrix) (exp_condition : list event) (m : string)
    (frame_times : vec) (con_id : string) (oversampling : Z)
    (fir_delays : option (list Z)) (min_onset : Qc) (a : Qc) :
  (2 <= length frame_times)%nat ->
  Np.max frame_times = Ok a -> Np.min frame_times = Ok a ->
  exists e,
    (e = OverflowError \/ e = ValueError "cannot convert float NaN to integer") /\
    _sample_condition exp_condition frame_times oversampling min_onset = Err e /\
    compute_regressor gamma_pdf pinv exp_condition m frame_times con_id
      oversampling fir_delays min_onset = Err e.
Proof.
  intros Hlen Hmax Hmin.
  assert (Hn : Z2Qc (Z.of_nat (length frame_times) - 1) <> 0)
    by (apply Z2Qc_neq0; lia).
  assert (E : exists e,
            (e = OverflowError \/ e = ValueError "cannot convert float NaN to integer") /\
            n_hr frame_times oversampling min_onset = Err e).
  { unfold n_hr, hr_stop. rewrite Hmax, Hmin. cbn [bind].
    rewrite (py_div_nonzero _ _ Hn). cbn [bind].
    destruct (Qc_eq_dec (a - a) 0) as [_|C]; [|exfalso; apply C; ring].
    destruct (Qc_eq_dec _ 0); eexists; split; try reflexivity; auto. }
  destruct E as [e [He En]]. exists e. split; [exact He|].
  assert (Es : _sample_condition exp_condition frame_times oversampling min_onset = Err e).
  { unfold _sample_condition, hr_frame_times. rewrite En. reflexivity. }
  split; [exact Es|].
  unfold compute_regressor. rewrite Hmax. cbn [bind].
  rewrite (py_div_nonzero _ _ Hn). cbn [bind]. rewrite Es. reflexivity.
Qed.

Lemma constant_frame_times_rejected_witness :
  _sample_condition [mk_event (qz 0) (qz 1) (qz 1)] [qz 3; qz 3; qz 3] 16 (qz (-24))
    = Err OverflowError /\
  compute_regressor (fun _ _ _ => 0) (fun A => A) [mk_event (qz 0) (qz 1) (qz 1)] "spm"
    [qz 3; qz 3; qz 3] "cond" 16 None (qz (-24)) = Err OverflowError.
Proof.
  destruct (constant_frame_times_rejected (fun _ _ _ => 0) (fun A => A)
              [mk_event (qz 0) (qz 1) (qz 1)] "spm" [qz 3; qz 3; qz 3] "cond" 16 None
              (qz (-24)) (qz 3)) as [e [_ [E1 E2]]].
  - cbn [length]. lia.
  - vm_compute. reflexivity.
  - vm_compute. reflexivity.
  - assert (E : e = OverflowError).
    { assert (E' : _sample_condition [mk_event (qz 0) (qz 1) (qz 1)] [qz 3; qz 3; qz 3]
                     16 (qz (-24)) = Err OverflowError) by (vm_compute; reflexivity).
      rewrite E' in E1. injection E1 as <-. reflexivity. }
    rewrite E in E1, E2. split; assumption.
Defined.

(** X24 ([compute_regressor], lines 390-397, with [_hrf_kernel], lines
    330-333).  The ['fir'] model needs at least one delay: with
    [fir_delays] left at [None], or empty, the pipeline raises. *)
Theorem fir_needs_delays (gamma_pdf : Qc -> Qc -> Qc -> Qc) (pinv : matrix -> matrix)
    (exp_condition : list event) (frame_times : vec) (con_id : string)
    (oversampling : Z) (fir_delays : option (list Z)) (min_onset : Qc) :
  fir_delays = None \/ fir_delays = Some [] ->
  exists e, compute_regressor gamma_pdf pinv exp_condition "fir" frame_times con_id
              oversampling fir_delays min_onset = Err e.
Proof.
  intros Hd. unfold compute_regressor.
  destruct (Np.max frame_times) as [fmax|]; [|eexists; reflexivity]. cbn [bind].
  destruct (py_div fmax _) as [tr|]; [|eexists; reflexivity]. cbn [bind].
  destruct (_sample_condition _ _ _ _) as [[r hr]|]; [|eexists; reflexivity]. cbn [bind].
  destruct Hd as [->| ->].
  - eexists. reflexivity.
  - change (_hrf_kernel gamma_pdf "fir" tr oversampling (Some [])) with (@Ok (list vec) []).
    cbn [bind mapM].
    destruct (resample_no_kernel hr frame_times) as [e He]. rewrite He.
    eexists. reflexivity.
Qed.

Lemma fir_needs_delays_witness :
  (exists e, compute_regressor (fun _ _ _ => 0) (fun A => A) [mk_event (qz 0) (qz 1) (qz 1)]
               "fir" [qz 0; qz 1; qz 2] "cond" 2 None (qz (-1)) = Err e) /\
  (exists e, compute_regressor (fun _ _ _ => 0) (fun A => A) [mk_event (qz 0) (qz 1) (qz 1)]
               "fir" [qz 0; qz 1; qz 2] "cond" 2 (Some []) (qz (-1)) = Err e).
Proof.
  split; apply fir_needs_delays; [left|right]; reflexivity.
Defined.
(** * The grid and its sample count *)




(** Where an operation rounds, the float64 count can fall one short of the
    truncation of the exact formula: for the 78 frame times 0, 1, ..., 77
    with oversampling 16 and [min_onset = -24] the exact formula is worth
    1633 and its float64 value 1632.9999999999998, so that the program
    builds 1632 samples; for the frame times [-49, 0] with oversampling 3
    the values are 4 and 3.9999999999999996. *)
Lemma float64_count_one_short :
  let frames := map (fun i => Z2Qc (Z.of_nat i)) (seq 0 78) in
  n_hr frames 16 (qz (-24)) = Ok (qz 1633) /\
  (exists v, n_hr_float64 frames 16 (qz (-24)) = Ok v /\
     v = qf 7182009952632831 4398046511104 /\ py_int v = 1632%Z) /\
  n_hr [qz (-49); qz 0] 3 (qz 0) = Ok (qz 4) /\
  (exists v, n_hr_float64 [qz (-49); qz 0] 3 (qz 0) = Ok v /\
     v = qf 9007199254740991 2251799813685248 /\ py_int v = 3%Z).
Proof.
  intros frames.
  split; [|split; [|split]].
  - apply result_Qc_by_bool. vm_compute. reflexivity.
  - exists (qf 7182009952632831 4398046511104).
    split; [apply result_Qc_by_bool; vm_compute; reflexivity|].
    split; [reflexivity|]. vm_compute. reflexivity.
  - apply result_Qc_by_bool. vm_compute. reflexivity.
  - exists (qf 9007199254740991 2251799813685248).
    split; [apply result_Qc_by_bool; vm_compute; reflexivity|].
    split; [reflexivity|]. vm_compute. reflexivity.
Qed.

(** * Events that share a grid index *)

Lemma sample_by_bool (x : result (vec * vec)) (r hr : vec) :
  match x with
  | Ok (r', hr') => vec_eqb r' r && vec_eqb hr' hr
  | Err _ => false
  end = true -> x = Ok (r, hr).
Proof.
  destruct x as [[r' hr']|e]; [|discriminate].
  intros H. apply andb_true_iff in H as [H1 H2].
  apply vec_eqb_eq in H1. apply vec_eqb_eq in H2. now subst.
Qed.

(** C4 (evaluation at a failing input).  Two events of duration zero with
    onset 1 and amplitudes 5 and 3, on the frame times [0, 1, 2] with
    oversampling 1 and [min_onset = 0] (no operation of the sample count
    rounds): the grid is [0, 1, 2, 3], both onset indices and both clamped
    offset indices are 1, which is not the last index, and the loop of lines
    208-211 increments both offset indices to 2.  Onset and offset indices
    differ, yet the first event contributes no step: [regressor[t_onset] +=
    values] and [regressor[t_offset] -= values] write the repeated index once
    each, with the last amplitude, so the sampler returns [0, 3, 0, 0], the
    regressor of the second event alone, where a width-one step for each
    event gives [0, 8, 0, 0].  Alone, each event gives its own step. *)
Theorem shared_index_edge_lost :
  let e1 := mk_event (qz 1) (qz 0) (qz 5) in
  let e2 := mk_event (qz 1) (qz 0) (qz 3) in
  let frame_times := [qz 0; qz 1; qz 2] in
  exact_in_float64 frame_times 1 (qz 0) /\
  exists r hr,
    _sample_condition [e1; e2] frame_times 1 (qz 0) = Ok (r, hr) /\
    hr = [qz 0; qz 1; qz 2; qz 3] /\
    t_onset hr [e1; e2] = [1; 1]%Z /\ t_offset0 hr [e1; e2] = [1; 1]%Z /\
    t_offset hr [e1; e2] = [2; 2]%Z /\
    r = [qz 0; qz 3; qz 0; qz 0] /\
    _sample_condition [e1] frame_times 1 (qz 0) = Ok ([qz 0; qz 5; qz 0; qz 0], hr) /\
    _sample_condition [e2] frame_times 1 (qz 0) = Ok (r, hr) /\
    regressor_spec hr [e1; e2] = [qz 0; qz 8; qz 0; qz 0] /\
    map (active_sum hr [e1; e2]) (seq 0 (length hr)) = [qz 0; qz 8; qz 0; qz 0] /\
    r <> regressor_spec hr [e1; e2].
Proof.
  intros e1 e2 frame_times.
  split; [split; apply float64_list; vm_compute; reflexivity|].
  exists [qz 0; qz 3; qz 0; qz 0], [qz 0; qz 1; qz 2; qz 3].
  split; [apply sample_by_bool; vm_compute; reflexivity|].
  split; [reflexivity|].
  split; [vm_compute; reflexivity|].
  split; [vm_compute; reflexivity|].
  split; [vm_compute; reflexivity|].
  split; [reflexivity|].
  split; [apply sample_by_bool; vm_compute; reflexivity|].
  split; [apply sample_by_bool; vm_compute; reflexivity|].
  split; [apply vec_eqb_eq; vm_compute; reflexivity|].
  split; [apply vec_eqb_eq; vm_compute; reflexivity|].
  intros E. apply (f_equal (fun l => Qc_eq_bool (nth 1 l 0) (qz 3))) in E.
  vm_compute in E. discriminate.
Qed.

(** * Unsupported identifiers and the steps before kernel selection *)

(** C8 as stated fails: "glover" is none of the six identifiers, yet the
    caller does not always receive the unsupported-model error.  With the
    frame times [0, 1], oversampling 2 and [min_onset = 5/2] the sample
    count is 0 (no operation rounds), the grid is empty and the event
    sampler stops at [regressor[t_onset] += values] with an [IndexError];
    with the single frame time [3] the call stops at the repetition
    interval, whose divisor [np.size(frame_times) - 1] is zero.  In both
    calls the kernel selector is never reached. *)
Lemma unknown_model_other_error :
  let evs := [mk_event (qz 0) (qz 1) (qz 1)] in
  ~ In "glover"%string hrf_models /\
  exact_in_float64 [qz 0; qz 1] 2 (qf 5 2) /\
  hr_frame_times [qz 0; qz 1] 2 (qf 5 2) = Ok [] /\
  (forall gamma_pdf pinv,
     compute_regressor gamma_pdf pinv evs "glover" [qz 0; qz 1] "cond" 2 None (qf 5 2)
     = Err IndexError) /\
  (forall gamma_pdf pinv,
     compute_regressor gamma_pdf pinv evs "glover" [qz 3] "cond" 16 None (qz (-24))
     = Err ZeroDivisionError).
Proof.
  intros evs. split; [|split; [|split; [|split]]].
  - unfold hrf_models. simpl. intros H.
    repeat (destruct H as [H|H]; [discriminate|]). exact H.
  - split; apply float64_list; vm_compute; reflexivity.
  - vm_compute. reflexivity.
  - intros gamma_pdf pinv. vm_compute. reflexivity.
  - intros gamma_pdf pinv. vm_compute. reflexivity.
Qed.

(** * Names and columns, regressor by regressor *)










